(** * The tab strip of an editor group (nextTabsTitleControl.ts)

    A shallow embedding of the parts of [NextTabsTitleControl] that carry
    logic: the label configuration, the duplicate resolver for tab labels,
    the label splice of [moveEditor], the scroll-reveal computation of
    [doLayout] and the drop handling of the tabs container.

    Conventions.
    - A TypeScript [string] of this file may hold a string, [null] or
      [undefined] at run time (the code itself tests
      [typeof label.description === 'string']); such values are [jsstring].
    - DOM measures ([offsetLeft], [offsetWidth], [scrollWidth]) and the
      scroll offset are integers, modelled in [Z].  Array indices are [Z]
      as well, with the index normalisation of [Array.prototype.splice]
      written out.
    - An array of label objects is a list.  [computeTabLabels], the one
      caller of the resolver, builds a fresh object for every editor, so
      the slots hold distinct objects and the object of slot [r] is
      referred to by the index [r]: the maps of the resolver, which hold
      the very objects of the array, hold indices into it, and an
      assignment to a label is an update of its slot. *)

From Stdlib Require Import ZArith Lia Ascii.
From stdpp Require Import base decidable option list numbers strings.

Local Open Scope Z_scope.

(* ===================================================================== *)
(** ** Data model *)
(* ===================================================================== *)

(** [Verbosity] of vs/platform/editor/common/editor. *)
Inductive Verbosity : Type := SHORT | MEDIUM | LONG.

(** Run-time inhabitants of the TypeScript type [string] (no strict null
    checks): a string, [null] or [undefined]. *)
Inductive jsstring : Type :=
| Str (s : string)
| Null
| Undefined.

#[global] Instance Verbosity_eq_dec : EqDecision Verbosity.
Proof. solve_decision. Defined.

#[global] Instance jsstring_eq_dec : EqDecision jsstring.
Proof. solve_decision. Defined.

(** [typeof v === 'string'] *)
Definition isString (v : jsstring) : bool :=
  match v with
  | Str _ => true
  | _ => false
  end.

(** The part of [IEditorInput] the title control reads. *)
Record IEditorInput : Type := mkEditorInput {
  getName : string;
  getDescription : Verbosity -> jsstring;
  getTitle : Verbosity -> jsstring
}.

(** [type AugmentedLabel = IEditorInputLabel & { editor: IEditorInput }] *)
Record AugmentedLabel : Type := mkLabel {
  editor : IEditorInput;
  name : string;
  description : jsstring;
  title : jsstring
}.

(** The assignment [label.description = d]. *)
Definition set_description (d : jsstring) (label : AugmentedLabel) : AugmentedLabel :=
  {| editor := editor label;
     name := name label;
     description := d;
     title := title label |}.

(* ===================================================================== *)
(** ** getLabelConfigFlags *)
(* ===================================================================== *)

Record LabelConfigFlags : Type := mkFlags {
  verbosity : Verbosity;
  shortenDuplicates : bool
}.

Definition getLabelConfigFlags (value : string) : LabelConfigFlags :=
  if String.eqb value "short" then
    {| verbosity := SHORT; shortenDuplicates := false |}
  else if String.eqb value "medium" then
    {| verbosity := MEDIUM; shortenDuplicates := false |}
  else if String.eqb value "long" then
    {| verbosity := LONG; shortenDuplicates := false |}
  else
    {| verbosity := MEDIUM; shortenDuplicates := true |}.

(* ===================================================================== *)
(** ** JavaScript arrays: indexing and splice *)
(* ===================================================================== *)

Section JSArray.
Context {A : Type}.

(** [arr[i]]: [None] stands for [undefined]. *)
Definition js_index (arr : list A) (i : Z) : option A :=
  if i <? 0 then None else arr !! Z.to_nat i.

(** The relative start of [splice]: a negative start counts from the
    end, and the result is clamped to [0 .. length]. *)
Definition splice_start (len start : Z) : nat :=
  Z.to_nat (if start <? 0 then Z.max (len + start) 0 else Z.min start len).

(** [arr.splice(start, 1)] *)
Definition splice_delete1 (arr : list A) (start : Z) : list A :=
  let s := splice_start (Z.of_nat (length arr)) start in
  take s arr ++ drop (S s) arr.

(** [arr.splice(start, 0, x)] *)
Definition splice_insert (arr : list A) (start : Z) (x : A) : list A :=
  let s := splice_start (Z.of_nat (length arr)) start in
  take s arr ++ x :: drop s arr.
End JSArray.

(** The label part of [moveEditor(editor, fromIndex, targetIndex)].  A slot
    of [tabLabels] holds a label or [undefined] ([None]): reading
    [tabLabels[fromIndex]] out of range gives [undefined], which the second
    splice then inserts. *)
Definition moveEditor {L : Type} (tabLabels : list (option L))
    (fromIndex targetIndex : Z) : list (option L) :=
  let editorLabel := mjoin (js_index tabLabels fromIndex) in
  splice_insert (splice_delete1 tabLabels fromIndex) targetIndex editorLabel.

(* ===================================================================== *)
(** ** Scroll reveal: doLayout *)
(* ===================================================================== *)

(** The measures [doLayout] reads from a tab element. *)
Record HTMLElement : Type := mkElement {
  offsetLeft : Z;
  offsetWidth : Z
}.

(** Modelled from the spec: the state of the scroll-bar widget, "current
    scroll offset, content width, viewport width". *)
Record ScrollState : Type := mkScroll {
  width : Z;
  scrollWidth : Z;
  scrollLeft : Z
}.

(** Modelled from the spec: [ScrollableElement] (vs/base/browser/ui/scrollbar)
    is not among the sources.  The spec's ScrollState is "current scroll
    offset, content width, viewport width"; scroll dimensions are pushed to
    the scroll-bar and a scroll position is set on it. *)
Definition setScrollDimensions (w sw : Z) (s : ScrollState) : ScrollState :=
  {| width := w; scrollWidth := sw; scrollLeft := scrollLeft s |}.

(** Modelled from the spec: see [setScrollDimensions]. *)
Definition setScrollPosition (x : Z) (s : ScrollState) : ScrollState :=
  {| width := width s; scrollWidth := scrollWidth s; scrollLeft := x |}.

(** What [doLayout] reads and writes: the element of the active editor
    ([this.getTab(this.group.activeEditor)], [None] when there is none),
    the measures of the tabs container, the scroll-bar and the
    [blockRevealActiveTab] flag. *)
Record LayoutState : Type := mkLayout {
  activeTab : option HTMLElement;
  containerOffsetWidth : Z;
  containerScrollWidth : Z;
  scrollbar : ScrollState;
  blockRevealActiveTab : bool
}.

Definition with_scrollbar (sb : ScrollState) (st : LayoutState) : LayoutState :=
  {| activeTab := activeTab st;
     containerOffsetWidth := containerOffsetWidth st;
     containerScrollWidth := containerScrollWidth st;
     scrollbar := sb;
     blockRevealActiveTab := blockRevealActiveTab st |}.

Definition with_blockRevealActiveTab (b : bool) (st : LayoutState) : LayoutState :=
  {| activeTab := activeTab st;
     containerOffsetWidth := containerOffsetWidth st;
     containerScrollWidth := containerScrollWidth st;
     scrollbar := scrollbar st;
     blockRevealActiveTab := b |}.

Definition blockRevealActiveTabOnce (st : LayoutState) : LayoutState :=
  with_blockRevealActiveTab true st.

Definition doLayout (st : LayoutState) : LayoutState :=
  match activeTab st with
  | None => st
  | Some tab =>
    let visibleContainerWidth := containerOffsetWidth st in
    let totalContainerWidth := containerScrollWidth st in
    (* Update scrollbar *)
    let st1 :=
      with_scrollbar
        (setScrollDimensions visibleContainerWidth totalContainerWidth (scrollbar st)) st in
    (* Return now if we are blocked to reveal the active tab and clear flag *)
    if blockRevealActiveTab st1 then with_blockRevealActiveTab false st1
    else
      let activeTabPosX := offsetLeft tab in
      let activeTabWidth := offsetWidth tab in
      let containerScrollPosX := scrollLeft (scrollbar st1) in
      let activeTabFits := activeTabWidth <=? visibleContainerWidth in
      if activeTabFits
         && (containerScrollPosX + visibleContainerWidth <? activeTabPosX + activeTabWidth)
      then
        with_scrollbar
          (setScrollPosition
             (containerScrollPosX
              + ((activeTabPosX + activeTabWidth)
                 - (containerScrollPosX + visibleContainerWidth)))
             (scrollbar st1)) st1
      else if (containerScrollPosX >? activeTabPosX) || negb activeTabFits then
        with_scrollbar (setScrollPosition activeTabPosX (scrollbar st1)) st1
      else st1
  end.

(* ===================================================================== *)
(** ** The duplicate resolver: shortenTabLabels *)
(* ===================================================================== *)

(** A JavaScript [Map<K, V[]>]: entries in insertion order, keys compared
    by value. *)
Abbreviation JSMap K V := (list (K * list V)) (only parsing).

Section JSMap.
Context {K V : Type} `{EqDecision K}.

(** [map.get(key)] *)
Fixpoint map_get (m : JSMap K V) (key : K) : option (list V) :=
  match m with
  | [] => None
  | (k, vs) :: m' => if decide (k = key) then Some vs else map_get m' key
  end.

(** [getOrSet(map, key, []).push(v)]: append to the entry of [key],
    creating it at the end of the map when absent. *)
Fixpoint getOrSet_push (m : JSMap K V) (key : K) (v : V) : JSMap K V :=
  match m with
  | [] => [(key, [v])]
  | (k, vs) :: m' =>
    if decide (k = key) then (k, vs ++ [v]) :: m'
    else (k, vs) :: getOrSet_push m' key v
  end.
End JSMap.

(** The label array; the label object of slot [r] is referred to as [r]. *)
Abbreviation Labels := (list AugmentedLabel) (only parsing).

(** [labels[r].description = d] *)
Definition assign (d : jsstring) (r : nat) (labels : Labels) : Labels :=
  alter (set_description d) r labels.

(** One turn of the first loop: gather duplicate titles, while filtering
    out invalid descriptions. *)
Definition gatherStep (acc : Labels * JSMap string nat) (r : nat)
    : Labels * JSMap string nat :=
  match acc.1 !! r with
  | Some label =>
    if isString (description label)
    then (acc.1, getOrSet_push acc.2 (name label) r)
    else (assign (Str "") r acc.1, acc.2)
  | None => acc
  end.

Definition gatherTitles (labels : Labels) : Labels * JSMap string nat :=
  foldl gatherStep (labels, []) (seq 0 (length labels)).

(** [label.editor.getDescription(Verbosity.LONG)] for the label of slot [r]. *)
Definition longDescription (labels : Labels) (r : nat) : jsstring :=
  from_option (fun label => getDescription (editor label) LONG) Undefined (labels !! r).

(** Identify duplicate descriptions. *)
Definition gatherDescriptions (labels : Labels) (duplicateTitles : list nat)
    : JSMap jsstring nat :=
  foldl (fun m r =>
           match labels !! r with
           | Some label => getOrSet_push m (description label) r
           | None => m
           end) [] duplicateTitles.

(** [const [first, ...rest] = duplicateDescriptions.map(long);
     rest.some(description => description !== first)] *)
Definition longDescriptionsDiffer (labels : Labels) (duplicateDescriptions : list nat)
    : bool :=
  match longDescription labels <$> duplicateDescriptions with
  | first :: rest => existsb (fun d => negb (bool_decide (d = first))) rest
  | [] => false
  end.

(** For editors with duplicate descriptions, check whether any long
    descriptions differ. *)
Definition checkLongDescriptions (labels : Labels) (m : JSMap jsstring nat) : bool :=
  foldl (fun useLongDescriptions entry =>
           if negb useLongDescriptions && (1 <? length entry.2)%nat
           then longDescriptionsDiffer labels entry.2
           else useLongDescriptions) false m.

(** Replace all descriptions with long descriptions, gathering them anew. *)
Definition replaceWithLong (labels : Labels) (duplicateTitles : list nat)
    : Labels * JSMap jsstring nat :=
  foldl (fun acc r =>
           match acc.1 !! r with
           | Some label =>
             let d := getDescription (editor label) LONG in
             (assign d r acc.1, getOrSet_push acc.2 d r)
           | None => acc
           end) (labels, []) duplicateTitles.

(** [for (const label of map.get(description)) { label.description = d; }] *)
Definition assignAll (d : jsstring) (m : JSMap jsstring nat) (key : jsstring)
    (labels : Labels) : Labels :=
  foldl (fun ls r => assign d r ls) labels (default [] (map_get m key)).

(** The body of [mapTitleToDuplicates.forEach], parametrised by the path
    shortener [shorten] of vs/base/common/labels. *)
Definition shortenDuplicateTitles (shorten : list jsstring -> list jsstring)
    (labels : Labels) (duplicateTitles : list nat) : Labels :=
  match duplicateTitles with
  | [r] =>
    (* Remove description if the title isn't duplicated *)
    assign (Str "") r labels
  | _ =>
    let mapDescriptionToDuplicates := gatherDescriptions labels duplicateTitles in
    let useLongDescriptions := checkLongDescriptions labels mapDescriptionToDuplicates in
    let acc :=
      if useLongDescriptions then replaceWithLong labels duplicateTitles
      else (labels, mapDescriptionToDuplicates) in
    (* Obtain final set of descriptions *)
    let descriptions := acc.2.*1 in
    match descriptions with
    | [d] =>
      (* Remove description if all descriptions are identical *)
      assignAll (Str "") acc.2 d acc.1
    | _ =>
      (* Shorten descriptions *)
      let shortenedDescriptions := shorten descriptions in
      foldl (fun ls id =>
               assignAll (default Undefined (shortenedDescriptions !! id.1)) acc.2 id.2 ls)
            acc.1 (imap pair descriptions)
    end
  end.

Definition shortenTabLabels (shorten : list jsstring -> list jsstring)
    (labels : Labels) : Labels :=
  let acc := gatherTitles labels in
  foldl (fun ls entry => shortenDuplicateTitles shorten ls entry.2) acc.1 acc.2.

(** Build labels and descriptions for each editor. *)
Definition buildLabels (verbosity : Verbosity) (editors : list IEditorInput) : Labels :=
  (fun editor => {| editor := editor;
                    name := getName editor;
                    description := getDescription editor verbosity;
                    title := getTitle editor LONG |}) <$> editors.

(** [computeTabLabels], for the label format of the part options and the
    editors of the group. *)
Definition computeTabLabels (shorten : list jsstring -> list jsstring)
    (labelFormat : string) (editors : list IEditorInput) : Labels :=
  let flags := getLabelConfigFlags labelFormat in
  let labels := buildLabels (verbosity flags) editors in
  if shortenDuplicates flags then shortenTabLabels shorten labels else labels.

(* ===================================================================== *)
(** ** The path shortener *)
(* ===================================================================== *)

(** Modelled from the spec: part of [shorten] below.  The segments of a
    path, split at ["/"]. *)
Fixpoint split_path (s : string) : list string :=
  match s with
  | EmptyString => [EmptyString]
  | String c s' =>
    if Ascii.eqb c "/"%char then EmptyString :: split_path s'
    else match split_path s' with
         | seg :: segs => String c seg :: segs
         | [] => [String c EmptyString]
         end
  end.

(** Modelled from the spec: part of [shorten] below.  The path of its
    segments. *)
Definition join_path (segs : list string) : string := String.concat "/" segs.

(** Modelled from the spec: the "ellipsis marker" of [shorten] below,
    U+2026 in UTF-8. *)
Definition ellipsis : string :=
  String (Ascii.ascii_of_nat 226)
    (String (Ascii.ascii_of_nat 128) (String (Ascii.ascii_of_nat 166) EmptyString)).

(** Modelled from the spec: part of [shorten] below.  The last [k]
    segments. *)
Definition last_segments (k : nat) (segs : list string) : list string :=
  drop (length segs - k)%nat segs.

(** Modelled from the spec: part of [shorten] below.  The path [segs] ends
    with the segments [suf]. *)
Definition ends_with (suf segs : list string) : bool :=
  (length suf <=? length segs)%nat && bool_decide (last_segments (length suf) segs = suf).

(** Modelled from the spec: part of [shorten] below.  The least [k' >= k]
    (trying [fuel] values) whose suffix of [segs] ends none of the other
    paths. *)
Fixpoint minimal_suffix (others : list (list string)) (segs : list string)
    (k fuel : nat) : option nat :=
  match fuel with
  | O => None
  | S fuel' =>
    if forallb (fun o => negb (ends_with (last_segments k segs) o)) others
    then Some k
    else minimal_suffix others segs (S k) fuel'
  end.

(** Modelled from the spec: part of [shorten] below.  The segments of the
    string paths other than the one at index [i]. *)
Definition other_paths (i : nat) (paths : list jsstring) : list (list string) :=
  omap (fun jp => match jp.2 with
                  | Str s => if decide (jp.1 = i) then None else Some (split_path s)
                  | _ => None
                  end) (imap pair paths).

(** Modelled from the spec: [shorten] (vs/base/common/labels) is not among
    the sources.  The spec describes it as "a path-shortening routine over
    the distinct value set that returns, for each input string, the minimal
    suffix (with ellipsis marker) needed to make every output unique".
    Here: the fewest trailing segments that end no other input, behind the
    ellipsis marker when segments were dropped; the whole path when no
    shorter suffix is unique.  A value that is not a string is returned as
    it is. *)
Definition shorten (paths : list jsstring) : list jsstring :=
  imap (fun i p =>
          match p with
          | Str s =>
            let segs := split_path s in
            match minimal_suffix (other_paths i paths) segs 1 (length segs) with
            | Some k =>
              if (k <? length segs)%nat
              then Str (ellipsis +:+ "/" +:+ join_path (last_segments k segs))
              else Str s
            | None => Str s
            end
          | _ => p
          end) paths.

(* ===================================================================== *)
(** ** Drag and drop onto the tab strip *)
(* ===================================================================== *)

Definition GroupIdentifier : Type := nat.

Section DragAndDrop.
Context {Editor L : Type} `{EqDecision Editor}.

(** The payload of the transfer slot: the dragged editor and the group it
    was dragged from. *)
Record DraggedEditorIdentifier : Type := mkDragged {
  dragged_editor : Editor;
  dragged_group : GroupIdentifier
}.

(** The title control with the editors of its group.  [dropFeedback] is the
    highlight of the tabs container set by [updateDropFeedback], and
    [scrollClass] its CSS class ['scroll']. *)
Record TitleControl : Type := mkControl {
  group_id : GroupIdentifier;
  group_editors : list Editor;
  tabLabels : list (option L);
  transfer : option DraggedEditorIdentifier;
  dropFeedback : bool;
  scrollClass : bool
}.

Record DragEvent : Type := mkDragEvent {
  ctrlKey : bool;
  altKey : bool;
  (** [target instanceof HTMLElement &&
       target.className.indexOf('tabs-container') === 0] *)
  targetIsTabsContainer : bool
}.

(** The calls [onDrop] makes on its collaborators. *)
Inductive HostCall : Type :=
| GroupMoveEditor (source : GroupIdentifier) (e : Editor)
                  (target : GroupIdentifier) (index : Z)
| GroupOpenEditor (e : Editor) (pinned : bool) (index : Z)
| HandleExternalDrop (target : GroupIdentifier) (index : Z).

(** The platform constant and the collaborators (the groups of the
    accessor, the drop handler for external resources), as parameters. *)
Variable isMacintosh : bool.
Variable host : HostCall -> TitleControl -> TitleControl.

Definition set_group_editors (es : list Editor) (c : TitleControl) : TitleControl :=
  {| group_id := group_id c; group_editors := es; tabLabels := tabLabels c;
     transfer := transfer c; dropFeedback := dropFeedback c;
     scrollClass := scrollClass c |}.

Definition set_tabLabels (ls : list (option L)) (c : TitleControl) : TitleControl :=
  {| group_id := group_id c; group_editors := group_editors c; tabLabels := ls;
     transfer := transfer c; dropFeedback := dropFeedback c;
     scrollClass := scrollClass c |}.

Definition set_transfer (t : option DraggedEditorIdentifier) (c : TitleControl)
    : TitleControl :=
  {| group_id := group_id c; group_editors := group_editors c;
     tabLabels := tabLabels c; transfer := t; dropFeedback := dropFeedback c;
     scrollClass := scrollClass c |}.

(** [this.updateDropFeedback(this.tabsContainer, isDND)] *)
Definition updateDropFeedback (isDND : bool) (c : TitleControl) : TitleControl :=
  {| group_id := group_id c; group_editors := group_editors c;
     tabLabels := tabLabels c; transfer := transfer c; dropFeedback := isDND;
     scrollClass := scrollClass c |}.

(** [addClass] / [removeClass] of ['scroll'] on the tabs container. *)
Definition set_scrollClass (b : bool) (c : TitleControl) : TitleControl :=
  {| group_id := group_id c; group_editors := group_editors c;
     tabLabels := tabLabels c; transfer := transfer c;
     dropFeedback := dropFeedback c; scrollClass := b |}.

(** [this.group.count] *)
Definition group_count (c : TitleControl) : Z := Z.of_nat (length (group_editors c)).

(** Modelled from the spec: [getIndexOfEditor] belongs to the host group,
    which is not among the sources ("ordered document list with stable
    indices"): the index of the editor in the list, [-1] when absent. *)
Definition getIndexOfEditor (e : Editor) (es : list Editor) : Z :=
  match list_find (fun x => x = e) es with
  | Some ix => Z.of_nat ix.1
  | None => -1
  end.

Definition isMoveOperation (e : DragEvent) (source : GroupIdentifier)
    (c : TitleControl) : bool :=
  let isCopy := (ctrlKey e && negb isMacintosh) || (altKey e && isMacintosh) in
  negb isCopy || bool_decide (source = group_id c).

Definition onDrop (e : DragEvent) (targetIndex : Z) (c : TitleControl) : TitleControl :=
  let c := updateDropFeedback false c in
  let c := set_scrollClass false c in
  match transfer c with
  | Some draggedEditor =>
    (* Local DND *)
    let c :=
      if isMoveOperation e (dragged_group draggedEditor) c
      then host (GroupMoveEditor (dragged_group draggedEditor)
                   (dragged_editor draggedEditor) (group_id c) targetIndex) c
      else host (GroupOpenEditor (dragged_editor draggedEditor) true targetIndex) c in
    set_transfer None c
  | None =>
    (* External DND *)
    host (HandleExternalDrop (group_id c) targetIndex) c
  end.

(** The [DRAG_OVER] listener of the tabs container. *)
Definition onDragOverTabsContainer (e : DragEvent) (c : TitleControl) : TitleControl :=
  let c := set_scrollClass true c in
  if targetIsTabsContainer e then
    let draggedEditorIsLastTab :=
      match transfer c with
      | Some draggedEditor =>
        bool_decide (group_id c = dragged_group draggedEditor)
        && (getIndexOfEditor (dragged_editor draggedEditor) (group_editors c)
            =? group_count c - 1)
      | None => false
      end in
    if negb draggedEditorIsLastTab then updateDropFeedback true c else c
  else c.

(** The [DROP] listener of the tabs container. *)
Definition onDropTabsContainer (e : DragEvent) (c : TitleControl) : TitleControl :=
  let c := updateDropFeedback false c in
  let c := set_scrollClass false c in
  if targetIsTabsContainer e then onDrop e (group_count c) c else c.

(** Modelled from the spec: the host group's [moveEditor] for a move
    inside the group is not among the sources.  The spec: a drop "is a
    move (remove from source, insert at target)", after which the strip is
    told [move(doc, from, to)], which splices the label at [from] into
    position [to]. *)
Definition moveInsideGroup (e : Editor) (index : Z) (c : TitleControl) : TitleControl :=
  let fromIndex := getIndexOfEditor e (group_editors c) in
  if fromIndex <? 0 then c
  else
    let c := set_group_editors
               (splice_insert (splice_delete1 (group_editors c) fromIndex) index e) c in
    set_tabLabels (moveEditor (tabLabels c) fromIndex index) c.
End DragAndDrop.

Arguments DraggedEditorIdentifier : clear implicits.
Arguments TitleControl : clear implicits.
Arguments HostCall : clear implicits.

(* ===================================================================== *)
(** ** Notions used to state and prove the properties of the resolver *)
(* ===================================================================== *)

(** What an assignment to [description] leaves alone. *)
Definition frame (label : AugmentedLabel) : IEditorInput * string * jsstring :=
  (editor label, name label, title label).

(** The map built by pushing every slot of [G] under its key. *)
Definition partition_by {K : Type} `{EqDecision K} (key : nat → K) (G : list nat)
    (m : JSMap K nat) : JSMap K nat :=
  foldl (λ m r, getOrSet_push m (key r) r) m G.

(** [labels[r].description], for a slot of the array. *)
Definition descriptionAt (ls : Labels) (r : nat) : jsstring :=
  from_option description Undefined (ls !! r).

(** The slots of a group are slots of the array, each listed once. *)
Definition valid_refs (ls : Labels) (G : list nat) : Prop :=
  NoDup G ∧ ∀ r, r ∈ G → (r < length ls)%nat.

(** The description given to the slots of the [p]-th entry: empty when one
    description is left, else the [p]-th shortened description. *)
Definition finalValue (shorten : list jsstring → list jsstring)
    (ds : list jsstring) (p : nat) : jsstring :=
  match ds with
  | [_] => Str ""
  | _ => default Undefined (shorten ds !! p)
  end.

Definition assignShortened (shorten : list jsstring → list jsstring)
    (m : JSMap jsstring nat) (ls : Labels) : Labels :=
  foldl (λ ls id, assignAll (finalValue shorten m.*1 id.1) m id.2 ls) ls (imap pair m.*1).

(** Whether the group switches to long descriptions, the key under which a
    slot is then filed, and the keys in the order of the map. *)
Definition usesLong (ls : Labels) (G : list nat) : bool :=
  checkLongDescriptions ls (partition_by (descriptionAt ls) G []).

Definition groupKey (ls : Labels) (G : list nat) : nat → jsstring :=
  if usesLong ls G then longDescription ls else descriptionAt ls.

Definition groupKeys (ls : Labels) (G : list nat) : list jsstring :=
  (partition_by (groupKey ls G) G []).*1.

(** What the first loop does to a label. *)
Definition clearInvalid (label : AugmentedLabel) : AugmentedLabel :=
  if isString (description label) then label else set_description (Str "") label.

(** Slot [r] holds a label with a string description and the name [n]. *)
Definition in_group (labels : Labels) (n : string) (r : nat) : bool :=
  match labels !! r with
  | Some label => isString (description label) && bool_decide (name label = n)
  | None => false
  end.

(** The name-group of [n]: the slots of the labels with a string description
    and the name [n], in the order of the array. *)
Definition name_group (labels : Labels) (n : string) : list nat :=
  filter (λ r, in_group labels n r) (seq 0 (length labels)).

(** [mapTitleToDuplicates.forEach(...)], for the map [M] of the first loop. *)
Definition resolveAll (shorten : list jsstring → list jsstring)
    (M : JSMap string nat) (ls : Labels) : Labels :=
  foldl (λ ls entry, shortenDuplicateTitles shorten ls entry.2) ls M.

(** A label of the name-group of [n]: its description is a string and its
    name is [n]. *)
Definition member_of (n : string) (label : AugmentedLabel) : Prop :=
  isString (description label) = true ∧ name label = n.

#[global] Instance member_of_dec n label : Decision (member_of n label).
Proof. unfold member_of. apply _. Defined.

(** *** Notions about the path shortener *)

(** A path segment: a string that holds no ["/"]. *)
Definition slash_free (s : string) : Prop := split_path s = [s].

(** Some other string of [paths] than [s] ends with the segments [u]. *)
Definition clashes (paths : list jsstring) (s : string) (u : list string) : Prop :=
  ∃ t, Str t ∈ paths ∧ t ≠ s ∧ u `suffix_of` split_path t.

(** Nothing is left to shorten in [paths]: a string of it has a proper
    suffix of segments that ends no other string only when the string is
    the ellipsis marker followed by that suffix. *)
Definition settled (paths : list jsstring) : Prop :=
  ∀ s k,
    Str s ∈ paths →
    (1 ≤ k < length (split_path s))%nat →
    ¬ clashes paths s (last_segments k (split_path s)) →
    split_path s = ellipsis :: last_segments k (split_path s).

(** What [shorten] returns for the string [s] of [paths]: the string
    itself when none of its proper suffixes of segments is its own, else
    the shortest suffix that ends no other string, behind the ellipsis
    marker. *)
Inductive shortened (paths : list jsstring) (s : string) : string → Prop :=
| shortened_whole :
    (∀ k, (1 ≤ k < length (split_path s))%nat →
          clashes paths s (last_segments k (split_path s))) →
    shortened paths s s
| shortened_suffix k :
    (1 ≤ k < length (split_path s))%nat →
    ¬ clashes paths s (last_segments k (split_path s)) →
    (∀ k', (1 ≤ k' < k)%nat → clashes paths s (last_segments k' (split_path s))) →
    shortened paths s (ellipsis +:+ "/" +:+ join_path (last_segments k (split_path s))).

(* ===================================================================== *)
(** ** Statements about two runs and about equal sources *)
(* ===================================================================== *)

(** Two labels of the array have the same name. *)
Definition has_duplicate_names (labels : Labels) : Prop :=
  ∃ i j li lj,
    i ≠ j ∧ labels !! i = Some li ∧ labels !! j = Some lj ∧ name li = name lj.

(** Labels that come in with the same name and the same string description
    leave the resolver with the same description. *)
Definition equal_sources_equal_results (shorten : list jsstring → list jsstring)
    (labels : Labels) : Prop :=
  ∀ i j li lj li' lj',
    labels !! i = Some li →
    labels !! j = Some lj →
    name li = name lj →
    isString (description li) = true →
    description li = description lj →
    shortenTabLabels shorten labels !! i = Some li' →
    shortenTabLabels shorten labels !! j = Some lj' →
    description li' = description lj'.

(** Labels of one name come in with different descriptions. *)
Definition distinct_within_names (labels : Labels) : Prop :=
  ∀ i j li lj,
    i ≠ j → labels !! i = Some li → labels !! j = Some lj →
    name li = name lj → description li ≠ description lj.

(** The resolver has nothing to shorten for the label [l] of slot [i]: its
    description is not a string or is the empty string, or no other label
    of its name has a string description. *)
Definition nothing_to_shorten (labels : Labels) (i : nat) (l : AugmentedLabel) : Prop :=
  (∀ s, description l = Str s → s = "")
  ∨ (∀ j lj, labels !! j = Some lj → name lj = name l →
             isString (description lj) = true → j = i).

(** The labels of one name for which the resolver has nothing to shorten
    have one long description. *)
Definition unshortened_share_long (labels : Labels) : Prop :=
  ∀ i j li lj,
    labels !! i = Some li → labels !! j = Some lj → name li = name lj →
    nothing_to_shorten labels i li → nothing_to_shorten labels j lj →
    getDescription (editor li) LONG = getDescription (editor lj) LONG.

(* ===================================================================== *)
(** ** Examples *)
(* ===================================================================== *)

(** An editor with the given name, one description for the short and medium
    verbosity and one for the long verbosity. *)
Definition mkEditor (n : string) (medium long : jsstring) : IEditorInput :=
  {| getName := n;
     getDescription := fun v => match v with LONG => long | _ => medium end;
     getTitle := fun _ => long |}.

(** Two files of one name in two folders of one name. *)
Definition labels_same_folder_name : Labels :=
  buildLabels MEDIUM
    [mkEditor "index.ts" (Str "src") (Str "/a/src");
     mkEditor "index.ts" (Str "src") (Str "/b/src")].

(** An editor without descriptions next to a file of the same name. *)
Definition labels_without_description : Labels :=
  buildLabels MEDIUM
    [mkEditor "index.ts" Null Null;
     mkEditor "index.ts" (Str "a") (Str "/q/a")].

(** Two files of one name in sibling folders, and a third file. *)
Definition labels_sibling_folders : Labels :=
  buildLabels MEDIUM
    [mkEditor "index.ts" (Str "src/a") (Str "/p/src/a");
     mkEditor "index.ts" (Str "src/b") (Str "/p/src/b");
     mkEditor "main.ts" (Str "src") (Str "/p/src")].

(** An editor without descriptions under a name of its own, next to two
    files of one name in sibling folders. *)
Definition labels_with_settings : Labels :=
  buildLabels MEDIUM
    [mkEditor "Settings" Null Null;
     mkEditor "index.ts" (Str "src/a") (Str "/p/src/a");
     mkEditor "index.ts" (Str "src/b") (Str "/p/src/b")].

(** The same file shown twice, and another file. *)
Definition labels_same_file_twice : Labels :=
  buildLabels MEDIUM
    [mkEditor "index.ts" (Str "src") (Str "/p/src");
     mkEditor "main.ts" (Str "src") (Str "/p/src");
     mkEditor "index.ts" (Str "src") (Str "/p/src")].

(** A host for the examples: it carries out the moves inside the group of
    the control as [moveInsideGroup] does, and no other call. *)
Definition insideGroupHost (call : HostCall string)
    (c : TitleControl string string) : TitleControl string string :=
  match call with
  | GroupMoveEditor source e target index =>
    if decide (source = group_id c ∧ target = group_id c)
    then moveInsideGroup e index c
    else c
  | _ => c
  end.

(** A group of three editors whose last one is being dragged. *)
Definition control_dragging_last : TitleControl string string :=
  {| group_id := 1%nat;
     group_editors := ["a.ts"; "b.ts"; "c.ts"];
     tabLabels := [Some "a.ts"; Some "b.ts"; Some "c.ts"];
     transfer := Some {| dragged_editor := "c.ts"; dragged_group := 1%nat |};
     dropFeedback := false;
     scrollClass := true |}.

(** A drop onto the empty part of the strip, with the copy modifier of a
    platform other than macOS held down. *)
Definition drop_on_strip : DragEvent :=
  {| ctrlKey := true; altKey := false; targetIsTabsContainer := true |}.

(* ===================================================================== *)
(** ** Scheduling the layout *)
(* ===================================================================== *)

(** [Dimension] of vs/base/browser/dom. *)
Record Dimension : Type := mkDimension {
  dim_width : Z;
  dim_height : Z
}.

(** The control as [layout] sees it: what [doLayout] works on, the stored
    [dimension] ([None] while undefined), whether [layoutScheduled] is set,
    and the number of callbacks this control has waiting for the next
    animation frame. *)
Record LayoutControl : Type := mkLayoutControl {
  layoutState : LayoutState;
  dimension : option Dimension;
  layoutScheduled : bool;
  queuedFrames : nat
}.

(** [layout(dimension)]; the argument is [None] for an undefined
    dimension, as in [this.layout(this.dimension)] before the first layout. *)
Definition layout (dim : option Dimension) (c : LayoutControl) : LayoutControl :=
  match activeTab (layoutState c), dim with
  | Some _, Some d =>
    if layoutScheduled c
    then {| layoutState := layoutState c; dimension := Some d;
            layoutScheduled := true; queuedFrames := queuedFrames c |}
    else {| layoutState := layoutState c; dimension := Some d;
            layoutScheduled := true; queuedFrames := S (queuedFrames c) |}
  | _, _ => c
  end.

(** The callback given to [scheduleAtNextAnimationFrame]:
    [this.doLayout(this.dimension); this.layoutScheduled = void 0]. *)
Definition layoutCallback (c : LayoutControl) : LayoutControl :=
  {| layoutState := doLayout (layoutState c); dimension := dimension c;
     layoutScheduled := false; queuedFrames := queuedFrames c |}.

(** Modelled from the spec: [scheduleAtNextAnimationFrame] (vs/base/browser/dom)
    is not among the sources.  The spec: "enqueuing a single deferred
    recomputation bound to the next display refresh tick".  At the tick
    every waiting callback runs, once. *)
Definition animationFrame (c : LayoutControl) : LayoutControl :=
  Nat.iter (queuedFrames c) layoutCallback
    {| layoutState := layoutState c; dimension := dimension c;
       layoutScheduled := layoutScheduled c; queuedFrames := 0 |}.

(* ===================================================================== *)
(** ** The tabs of the strip: openEditor and closeEditor *)
(* ===================================================================== *)

(** What the control reads from its group: the editors in order
    ([this.group.editors], whose length is [this.group.count]) and the
    active editor, if any. *)
Record Group : Type := mkGroup {
  editors : list IEditorInput;
  activeEditor : option IEditorInput
}.

(** The three parallel arrays of the control and its labels.  A tab element
    is modelled by the index [createTab] was called with, which its
    listeners and its action runner keep; so are its label widget and its
    disposable.  [disposed] lists the disposables whose [dispose] ran. *)
Record TabStore : Type := mkStore {
  children : list nat;
  tabLabelWidgets : list nat;
  tabDisposeables : list nat;
  disposed : list nat;
  storeTabLabels : list (option AugmentedLabel)
}.

(** [this.tabsContainer.appendChild(this.createTab(index))] *)
Definition appendTab (st : TabStore) (index : nat) : TabStore :=
  {| children := children st ++ [index];
     tabLabelWidgets := tabLabelWidgets st ++ [index];
     tabDisposeables := tabDisposeables st ++ [index];
     disposed := disposed st;
     storeTabLabels := storeTabLabels st |}.

(** [this.tabLabels = labels] at the end of [computeTabLabels]. *)
Definition set_storeTabLabels (labels : Labels) (st : TabStore) : TabStore :=
  {| children := children st;
     tabLabelWidgets := tabLabelWidgets st;
     tabDisposeables := tabDisposeables st;
     disposed := disposed st;
     storeTabLabels := Some <$> labels |}.

(** [openEditor(editor)], up to the redraw: create tabs as needed, then
    recompute all labels. *)
Definition openEditor (shorten : list jsstring -> list jsstring) (labelFormat : string)
    (g : Group) (st : TabStore) : TabStore :=
  let first := length (children st) in
  let st := foldl appendTab st (seq first (length (editors g) - first)) in
  set_storeTabLabels (computeTabLabels shorten labelFormat (editors g)) st.

(** One turn of the loop of [closeEditor]: remove the last tab, pop its
    label widget, pop and dispose its disposable.  [None] is the TypeError of
    [this.tabDisposeables.pop().dispose()] on an empty array. *)
Definition removeLastTab (st : TabStore) : option TabStore :=
  match last (tabDisposeables st) with
  | Some d =>
    Some {| children := take (pred (length (children st))) (children st);
            tabLabelWidgets := take (pred (length (tabLabelWidgets st))) (tabLabelWidgets st);
            tabDisposeables := take (pred (length (tabDisposeables st))) (tabDisposeables st);
            disposed := disposed st ++ [d];
            storeTabLabels := storeTabLabels st |}
  | None => None
  end.

(** [while (this.tabsContainer.children.length > this.group.count) ...],
    with one unit of fuel for every turn. *)
Fixpoint removeClosedTabs (fuel : nat) (count : nat) (st : TabStore) : option TabStore :=
  if (count <? length (children st))%nat then
    match fuel with
    | O => None
    | S fuel' =>
      match removeLastTab st with
      | Some st' => removeClosedTabs fuel' count st'
      | None => None
      end
    end
  else Some st.

(** [closeEditor(editor, index)], up to the redraw.  Neither argument is
    read.  The fuel is the number of tabs: every turn removes one. *)
Definition closeEditor (shorten : list jsstring -> list jsstring) (labelFormat : string)
    (g : Group) (st : TabStore) : option TabStore :=
  match activeEditor g with
  | Some _ =>
    (* There are tabs to show *)
    match removeClosedTabs (length (children st)) (length (editors g)) st with
    | Some st' =>
      Some (set_storeTabLabels (computeTabLabels shorten labelFormat (editors g)) st')
    | None => None
    end
  | None =>
    (* No tabs to show *)
    Some {| children := [];
            tabLabelWidgets := [];
            tabDisposeables := [];
            disposed := disposed st ++ tabDisposeables st;
            storeTabLabels := [] |}
  end.

(** Tab [i] of the strip was created for index [i], and so were its label
    widget and its disposable. *)
Definition aligned (count : nat) (st : TabStore) : Prop :=
  children st = seq 0 count
  ∧ tabLabelWidgets st = seq 0 count
  ∧ tabDisposeables st = seq 0 count.

(* ===================================================================== *)
(** ** Listeners of a tab: drag feedback and keyboard navigation *)
(* ===================================================================== *)

(** The drag state of one tab: the [counter] of its listeners, its class
    ['dragged-over'] and its drop feedback. *)
Record TabDragState : Type := mkTabDrag {
  counter : Z;
  draggedOver : bool;
  tabDropFeedback : bool
}.

(** The state [hookTabListeners] starts from. *)
Definition tabDragInit : TabDragState :=
  {| counter := 0; draggedOver := false; tabDropFeedback := false |}.

(** The [DRAG_ENTER] listener, given whether the dragged editor is this tab. *)
Definition onTabDragEnter (draggedEditorIsTab : bool) (t : TabDragState) : TabDragState :=
  {| counter := counter t + 1;
     draggedOver := true;
     tabDropFeedback := if negb draggedEditorIsTab then true else tabDropFeedback t |}.

(** The [DRAG_LEAVE] listener. *)
Definition onTabDragLeave (t : TabDragState) : TabDragState :=
  if counter t - 1 =? 0
  then {| counter := counter t - 1; draggedOver := false; tabDropFeedback := false |}
  else {| counter := counter t - 1; draggedOver := draggedOver t;
          tabDropFeedback := tabDropFeedback t |}.

(** What the [DRAG_END] and [DROP] listeners do to the state of the tab. *)
Definition onTabDragEnd (t : TabDragState) : TabDragState :=
  {| counter := 0; draggedOver := false; tabDropFeedback := false |}.

Inductive TabDragEvent : Type := DragEnter | DragLeave.

(** Enter and leave events come nested: none leaves more often than it
    entered.  [depth] is the number of enters not yet left. *)
Fixpoint nested (depth : Z) (events : list TabDragEvent) : Prop :=
  match events with
  | [] => True
  | DragEnter :: events' => nested (depth + 1) events'
  | DragLeave :: events' => 0 < depth ∧ nested (depth - 1) events'
  end.

(** The number of enters minus the number of leaves. *)
Fixpoint enters_minus_leaves (events : list TabDragEvent) : Z :=
  match events with
  | [] => 0
  | DragEnter :: events' => 1 + enters_minus_leaves events'
  | DragLeave :: events' => enters_minus_leaves events' - 1
  end.

(** The listener an event runs, for a drag that is, or is not, the drag of
    this tab. *)
Definition tabDragStep (draggedEditorIsTab : bool) (t : TabDragState)
    (ev : TabDragEvent) : TabDragState :=
  match ev with
  | DragEnter => onTabDragEnter draggedEditorIsTab t
  | DragLeave => onTabDragLeave t
  end.

Inductive NavigationKey : Type :=
| LeftArrow | RightArrow | UpArrow | DownArrow | Home | End_.

(** The target index of the keyboard navigation from the tab of [index]. *)
Definition navigationTarget (key : NavigationKey) (index count : Z) : Z :=
  match key with
  | LeftArrow | UpArrow => index - 1
  | RightArrow | DownArrow => index + 1
  | Home => 0
  | End_ => count - 1
  end.

Section TabListeners.
Context {Editor L : Type} `{EqDecision Editor}.

(** Modelled from the spec: [getEditor] belongs to the host group, which is
    not among the sources ("ordered document list with stable indices"):
    the editor at the index, nothing outside the list. *)
Definition getEditor (c : TitleControl Editor L) (index : Z) : option Editor :=
  js_index (group_editors c) index.

(** Find out if the currently dragged editor is this tab. *)
Definition draggedEditorIsTab (c : TitleControl Editor L) (index : Z) : bool :=
  match transfer c with
  | Some draggedEditor =>
    bool_decide (Some (dragged_editor draggedEditor) = getEditor c index)
    && bool_decide (dragged_group draggedEditor = group_id c)
  | None => false
  end.

(** The [DRAG_ENTER] listener of the tab of [index]. *)
Definition onTabDragEnterAt (c : TitleControl Editor L) (index : Z)
    (t : TabDragState) : TabDragState :=
  onTabDragEnter (draggedEditorIsTab c index) t.

(** The editor the navigation keys open from the tab of [index]:
    [this.group.getEditor(targetIndex)], and nothing when there is none. *)
Definition navigate (key : NavigationKey) (index : Z) (c : TitleControl Editor L)
    : option Editor :=
  getEditor c (navigationTarget key index (group_count c)).
End TabListeners.

(* ===================================================================== *)
(** ** More examples *)
(* ===================================================================== *)

(** A group of two files of one name, the first of them active. *)
Definition group_of_two : Group :=
  {| editors := [mkEditor "index.ts" (Str "src/a") (Str "/p/src/a");
                 mkEditor "index.ts" (Str "src/b") (Str "/p/src/b")];
     activeEditor := Some (mkEditor "index.ts" (Str "src/a") (Str "/p/src/a")) |}.

(** The same group after a third file was opened. *)
Definition group_of_three : Group :=
  {| editors := [mkEditor "index.ts" (Str "src/a") (Str "/p/src/a");
                 mkEditor "index.ts" (Str "src/b") (Str "/p/src/b");
                 mkEditor "main.ts" (Str "src") (Str "/p/src")];
     activeEditor := Some (mkEditor "main.ts" (Str "src") (Str "/p/src")) |}.

(** The tabs of [group_of_two]. *)
Definition store_of_two : TabStore :=
  {| children := [0; 1]%nat;
     tabLabelWidgets := [0; 1]%nat;
     tabDisposeables := [0; 1]%nat;
     disposed := [];
     storeTabLabels := Some <$> computeTabLabels shorten "default" (editors group_of_two) |}.

(** Three tabs whose disposables are missing. *)
Definition store_without_disposables : TabStore :=
  {| children := [0; 1; 2]%nat;
     tabLabelWidgets := [0; 1; 2]%nat;
     tabDisposeables := [];
     disposed := [];
     storeTabLabels := [] |}.

(* ===================================================================== *)
(** * Properties *)
(* ===================================================================== *)

(** ** The label configuration *)

(** C8: [getLabelConfigFlags] maps the strings "short", "medium" and "long"
    to the SHORT, MEDIUM and LONG verbosity without shortening of
    duplicates, and every other string to MEDIUM verbosity with shortening
    of duplicates. *)
Theorem getLabelConfigFlags_cases :
  getLabelConfigFlags "short" = {| verbosity := SHORT; shortenDuplicates := false |}
  ∧ getLabelConfigFlags "medium" = {| verbosity := MEDIUM; shortenDuplicates := false |}
  ∧ getLabelConfigFlags "long" = {| verbosity := LONG; shortenDuplicates := false |}
  ∧ ∀ value : string,
      value ≠ "short" → value ≠ "medium" → value ≠ "long" →
      getLabelConfigFlags value = {| verbosity := MEDIUM; shortenDuplicates := true |}.
Proof.
  repeat split; try reflexivity.
  intros value Hs Hm Hl. unfold getLabelConfigFlags.
  destruct (String.eqb_spec value "short"); [contradiction|].
  destruct (String.eqb_spec value "medium"); [contradiction|].
  destruct (String.eqb_spec value "long"); [contradiction|].
  reflexivity.
Qed.

Lemma getLabelConfigFlags_cases_witness :
  getLabelConfigFlags "default" = {| verbosity := MEDIUM; shortenDuplicates := true |}.
Proof.
  apply (proj2 (proj2 (proj2 getLabelConfigFlags_cases))); discriminate.
Defined.

(** ** Scroll reveal *)

Lemma doLayout_unblocked (st : LayoutState) (tab : HTMLElement) :
  activeTab st = Some tab →
  blockRevealActiveTab st = false →
  doLayout st =
    let st1 :=
      with_scrollbar
        (setScrollDimensions (containerOffsetWidth st) (containerScrollWidth st)
           (scrollbar st)) st in
    let X := offsetLeft tab in
    let W := offsetWidth tab in
    let V := containerOffsetWidth st in
    let S := scrollLeft (scrollbar st) in
    if (W <=? V) && (S + V <? X + W)
    then with_scrollbar (setScrollPosition (S + ((X + W) - (S + V))) (scrollbar st1)) st1
    else if (S >? X) || negb (W <=? V)
         then with_scrollbar (setScrollPosition X (scrollbar st1)) st1
         else st1.
Proof.
  intros Htab Hflag. unfold doLayout. rewrite Htab. cbn. rewrite Hflag. reflexivity.
Qed.

(** C1: with the suppress-reveal flag clear, and for the active tab at offset
    [X] of width [W], the viewport width [V] and the scroll offset [S]:
    when [X+W > S+V] and [W <= V] the new scroll offset is
    [S + (X+W) - (S+V)]; otherwise, when [S > X] or [W > V], it is [X];
    otherwise it is unchanged. *)
Theorem doLayout_scroll_offset (st : LayoutState) (tab : HTMLElement) :
  activeTab st = Some tab →
  blockRevealActiveTab st = false →
  let X := offsetLeft tab in
  let W := offsetWidth tab in
  let V := containerOffsetWidth st in
  let S := scrollLeft (scrollbar st) in
  let S' := scrollLeft (scrollbar (doLayout st)) in
  (X + W > S + V ∧ W ≤ V → S' = S + (X + W) - (S + V))
  ∧ (¬ (X + W > S + V ∧ W ≤ V) → S > X ∨ W > V → S' = X)
  ∧ (¬ (X + W > S + V ∧ W ≤ V) → ¬ (S > X ∨ W > V) → S' = S).
Proof.
  intros Htab Hflag X W V S S'. subst S'.
  rewrite (doLayout_unblocked st tab Htab Hflag). cbn zeta.
  fold X W V S.
  destruct (Z.leb_spec W V) as [Hfit|Hfit];
    destruct (Z.ltb_spec (S + V) (X + W)) as [Hover|Hover];
    destruct (Z.gtb_spec S X) as [Hleft|Hleft]; cbn;
    repeat split; intros; try reflexivity; lia.
Qed.

Lemma doLayout_scroll_offset_witness :
  scrollLeft (scrollbar (doLayout
    {| activeTab := Some {| offsetLeft := 500; offsetWidth := 80 |};
       containerOffsetWidth := 400;
       containerScrollWidth := 2000;
       scrollbar := {| width := 400; scrollWidth := 2000; scrollLeft := 50 |};
       blockRevealActiveTab := false |})) = 180.
Proof.
  refine (proj1 (doLayout_scroll_offset
    {| activeTab := Some {| offsetLeft := 500; offsetWidth := 80 |};
       containerOffsetWidth := 400;
       containerScrollWidth := 2000;
       scrollbar := {| width := 400; scrollWidth := 2000; scrollLeft := 50 |};
       blockRevealActiveTab := false |}
    {| offsetLeft := 500; offsetWidth := 80 |} eq_refl eq_refl) _).
  cbn. lia.
Defined.

(** C6: when [doLayout] runs with the suppress-reveal flag set and an active
    tab, it pushes the viewport width and the content width to the
    scroll-bar, clears the flag and leaves the scroll position as it was. *)
Theorem doLayout_blocked (st : LayoutState) (tab : HTMLElement) :
  activeTab st = Some tab →
  blockRevealActiveTab st = true →
  width (scrollbar (doLayout st)) = containerOffsetWidth st
  ∧ scrollWidth (scrollbar (doLayout st)) = containerScrollWidth st
  ∧ blockRevealActiveTab (doLayout st) = false
  ∧ scrollLeft (scrollbar (doLayout st)) = scrollLeft (scrollbar st).
Proof.
  intros Htab Hflag. unfold doLayout. rewrite Htab. cbn. rewrite Hflag.
  cbn. auto.
Qed.

Lemma doLayout_blocked_witness :
  let st := {| activeTab := Some {| offsetLeft := 500; offsetWidth := 80 |};
               containerOffsetWidth := 400;
               containerScrollWidth := 1900;
               scrollbar := {| width := 400; scrollWidth := 2000; scrollLeft := 50 |};
               blockRevealActiveTab := true |} in
  width (scrollbar (doLayout st)) = 400
  ∧ scrollWidth (scrollbar (doLayout st)) = 1900
  ∧ blockRevealActiveTab (doLayout st) = false
  ∧ scrollLeft (scrollbar (doLayout st)) = 50.
Proof.
  intros st.
  exact (doLayout_blocked st {| offsetLeft := 500; offsetWidth := 80 |} eq_refl eq_refl).
Defined.

(** ** The label splice of moveEditor *)

Section SpliceFacts.
Context {A : Type}.
Implicit Types (arr : list A) (x : A).

Lemma splice_start_in_range (len : nat) (i : nat) :
  (i ≤ len)%nat → splice_start (Z.of_nat len) (Z.of_nat i) = i.
Proof.
  intros Hi. unfold splice_start.
  destruct (Z.ltb_spec (Z.of_nat i) 0); lia.
Qed.

Lemma js_index_of_nat arr (i : nat) : js_index arr (Z.of_nat i) = arr !! i.
Proof.
  unfold js_index. destruct (Z.ltb_spec (Z.of_nat i) 0); [lia|].
  by rewrite Nat2Z.id.
Qed.

Lemma splice_delete1_of_nat arr (i : nat) :
  (i ≤ length arr)%nat →
  splice_delete1 arr (Z.of_nat i) = take i arr ++ drop (S i) arr.
Proof. intros Hi. unfold splice_delete1. by rewrite splice_start_in_range. Qed.

Lemma splice_insert_of_nat arr (i : nat) x :
  (i ≤ length arr)%nat →
  splice_insert arr (Z.of_nat i) x = take i arr ++ x :: drop i arr.
Proof. intros Hi. unfold splice_insert. by rewrite splice_start_in_range. Qed.

Lemma length_splice_delete1 arr (i : nat) :
  (i < length arr)%nat →
  length (take i arr ++ drop (S i) arr) = pred (length arr).
Proof. intros Hi. rewrite length_app, length_take, length_drop. lia. Qed.

(** Taking out slot [i] and putting its value back at [i]. *)
Lemma reinsert_deleted arr (i : nat) x :
  arr !! i = Some x →
  let rest := take i arr ++ drop (S i) arr in
  take i rest ++ x :: drop i rest = arr.
Proof.
  intros Hx rest. subst rest.
  pose proof (lookup_lt_Some _ _ _ Hx) as Hi.
  rewrite take_app_le by (rewrite length_take; lia).
  rewrite take_take, Nat.min_id.
  rewrite drop_app_ge by (rewrite length_take; lia).
  rewrite length_take, Nat.min_l by lia.
  rewrite Nat.sub_diag, drop_0.
  by apply take_drop_middle.
Qed.

(** Deleting the slot that was just inserted. *)
Lemma delete_inserted arr (j : nat) x :
  (j ≤ length arr)%nat →
  let arr' := take j arr ++ x :: drop j arr in
  arr' !! j = Some x ∧ take j arr' ++ drop (S j) arr' = arr.
Proof.
  intros Hj arr'. subst arr'.
  assert (length (take j arr) = j) as Hlen by (rewrite length_take; lia).
  split.
  - rewrite lookup_app_r by lia. rewrite Hlen, Nat.sub_diag. done.
  - rewrite take_app_le by lia. rewrite take_take, Nat.min_id.
    rewrite drop_app_ge by lia. rewrite Hlen.
    replace (S j - j)%nat with 1%nat by lia. cbn.
    rewrite drop_0. apply take_drop.
Qed.
End SpliceFacts.

Lemma moveEditor_of_nat {L : Type} (tabLabels : list (option L)) (i j : nat) x :
  tabLabels !! i = Some x →
  (j < length tabLabels)%nat →
  moveEditor tabLabels (Z.of_nat i) (Z.of_nat j) =
    let rest := take i tabLabels ++ drop (S i) tabLabels in
    take j rest ++ x :: drop j rest.
Proof.
  intros Hx Hj. pose proof (lookup_lt_Some _ _ _ Hx) as Hi.
  unfold moveEditor. rewrite js_index_of_nat, Hx. cbn [mjoin option_join].
  rewrite splice_delete1_of_nat by lia.
  rewrite splice_insert_of_nat; [done|].
  rewrite length_splice_delete1 by done. lia.
Qed.

(** C7: for valid indices [i] and [j], the label splice of [moveEditor] from
    [i] to [j] followed by the one from [j] to [i] restores the label array. *)
Theorem moveEditor_there_and_back {L : Type} (tabLabels : list (option L)) (i j : Z) :
  0 ≤ i < Z.of_nat (length tabLabels) →
  0 ≤ j < Z.of_nat (length tabLabels) →
  moveEditor (moveEditor tabLabels i j) j i = tabLabels.
Proof.
  intros Hi Hj.
  rewrite <- (Z2Nat.id i), <- (Z2Nat.id j) by lia.
  set (a := Z.to_nat i). set (b := Z.to_nat j).
  assert (a < length tabLabels)%nat as Ha by lia.
  assert (b < length tabLabels)%nat as Hb by lia.
  destruct (lookup_lt_is_Some_2 tabLabels a Ha) as [x Hx].
  rewrite (moveEditor_of_nat tabLabels a b x Hx Hb). cbn zeta.
  set (rest := take a tabLabels ++ drop (S a) tabLabels).
  assert (length rest = pred (length tabLabels)) as Hrest
    by (by apply length_splice_delete1).
  destruct (delete_inserted rest b x) as [Hlook Hdel]; [lia|].
  rewrite (moveEditor_of_nat _ b a x Hlook).
  - cbn zeta. rewrite Hdel. by apply reinsert_deleted.
  - rewrite length_app, length_take. cbn [length]. rewrite length_drop. lia.
Qed.

Lemma moveEditor_there_and_back_witness :
  moveEditor (moveEditor [Some "a.ts"; Some "b.ts"; Some "c.ts"; Some "d.ts"] 0 2) 2 0
  = [Some "a.ts"; Some "b.ts"; Some "c.ts"; Some "d.ts"].
Proof.
  apply (moveEditor_there_and_back
           [Some "a.ts"; Some "b.ts"; Some "c.ts"; Some "d.ts"] 0 2); cbn; lia.
Defined.

(** ** Dropping the last tab of the group onto the strip *)

(** Moving the last slot to the end (index [length]) or onto itself
    (index [length - 1]) changes nothing. *)
Lemma splice_last_to_end {A : Type} (arr : list A) (x : A) (index : Z) :
  arr !! pred (length arr) = Some x →
  index = Z.of_nat (length arr) ∨ index = Z.of_nat (length arr) - 1 →
  splice_insert (splice_delete1 arr (Z.of_nat (pred (length arr)))) index x = arr.
Proof.
  intros Hx Hindex. pose proof (lookup_lt_Some _ _ _ Hx) as Hlt.
  rewrite splice_delete1_of_nat by lia.
  replace (S (pred (length arr))) with (length arr) by lia.
  rewrite drop_all, app_nil_r.
  set (rest := take (pred (length arr)) arr).
  assert (length rest = pred (length arr)) as Hrest
    by (unfold rest; rewrite length_take; lia).
  assert (splice_start (Z.of_nat (length rest)) index = length rest) as Hstart.
  { unfold splice_start. destruct (Z.ltb_spec index 0); lia. }
  unfold splice_insert. rewrite Hstart.
  rewrite firstn_all, drop_all. unfold rest.
  rewrite <- (take_drop_middle arr (pred (length arr)) x Hx) at 3.
  replace (S (pred (length arr))) with (length arr) by lia.
  by rewrite drop_all.
Qed.

Section DropFacts.
Context {Editor L : Type} `{EqDecision Editor}.
Variable isMacintosh : bool.
Variable host : HostCall Editor → TitleControl Editor L → TitleControl Editor L.

Implicit Types (c : TitleControl Editor L) (e : Editor).

Lemma getIndexOfEditor_lookup e (es : list Editor) (i : nat) :
  getIndexOfEditor e es = Z.of_nat i → es !! i = Some e.
Proof.
  unfold getIndexOfEditor.
  destruct (list_find (λ x, x = e) es) as [[k y]|] eqn:Hfind; [|lia].
  apply list_find_Some in Hfind as (Hk & -> & _). cbn.
  intros Hi. by replace i with k by lia.
Qed.

Lemma moveInsideGroup_last c e (index : Z) :
  getIndexOfEditor e (group_editors c) = group_count c - 1 →
  length (tabLabels c) = length (group_editors c) →
  index = group_count c ∨ index = group_count c - 1 →
  moveInsideGroup e index c = c.
Proof.
  unfold group_count. intros Hlast Hlabels Hindex. unfold moveInsideGroup.
  rewrite Hlast.
  destruct (Z.ltb_spec (Z.of_nat (length (group_editors c)) - 1) 0) as [|Hpos];
    [done|].
  assert (Z.of_nat (length (group_editors c)) - 1
          = Z.of_nat (pred (length (group_editors c)))) as Hpred by lia.
  rewrite Hpred in *.
  pose proof (getIndexOfEditor_lookup _ _ _ Hlast) as He.
  rewrite (splice_last_to_end _ _ _ He) by lia.
  destruct c as [gid es ls tr fb sc]; cbn in *.
  unfold set_tabLabels, set_group_editors; cbn. f_equal.
  assert (pred (length ls) < length ls)%nat as Hlt by lia.
  destruct (lookup_lt_is_Some_2 ls _ Hlt) as [x Hx].
  unfold moveEditor. rewrite <- Hlabels.
  rewrite js_index_of_nat, Hx. cbn [mjoin option_join].
  apply splice_last_to_end; [done|lia].
Qed.

(** The host carries out a move inside the group of the control as the
    spec describes it. *)
Hypothesis host_moves_inside_group : ∀ c e (index : Z),
  host (GroupMoveEditor (group_id c) e (group_id c) index) c
  = moveInsideGroup e index c.

Lemma onDrop_last c e (ev : DragEvent) (index : Z) :
  transfer c = Some {| dragged_editor := e; dragged_group := group_id c |} →
  getIndexOfEditor e (group_editors c) = group_count c - 1 →
  length (tabLabels c) = length (group_editors c) →
  index = group_count c ∨ index = group_count c - 1 →
  onDrop isMacintosh host ev index c
  = set_transfer None (set_scrollClass false (updateDropFeedback false c)).
Proof.
  intros Htransfer Hlast Hlabels Hindex. unfold onDrop. cbn.
  rewrite Htransfer. cbn.
  set (c1 := set_scrollClass false (updateDropFeedback false c)).
  assert (isMoveOperation isMacintosh ev (group_id c) c1 = true) as ->.
  { unfold isMoveOperation. cbn. rewrite bool_decide_eq_true_2 by done.
    apply orb_true_r. }
  change (group_id c) with (group_id c1).
  rewrite host_moves_inside_group.
  by rewrite moveInsideGroup_last.
Qed.

(** While the last tab of the group is dragged over the strip, no drop
    feedback is shown. *)
Lemma onDragOver_last_shows_no_feedback c e (ev : DragEvent) :
  transfer c = Some {| dragged_editor := e; dragged_group := group_id c |} →
  getIndexOfEditor e (group_editors c) = group_count c - 1 →
  dropFeedback (onDragOverTabsContainer ev c) = dropFeedback c.
Proof.
  intros Htransfer Hlast. unfold onDragOverTabsContainer. cbn.
  rewrite Htransfer. cbn. unfold group_count in *. cbn.
  rewrite bool_decide_eq_true_2 by done.
  rewrite Hlast, Z.eqb_refl. cbn. by destruct (targetIsTabsContainer ev).
Qed.

(** C5: when the dragged document belongs to this group and sits at its
    last index, a drop onto the tab strip (target index [count]) and a drop
    onto that last tab (target index [count - 1]) leave the document list
    of the group and the tab labels as they were. *)
Theorem drop_of_last_tab_is_noop c e (ev : DragEvent) :
  transfer c = Some {| dragged_editor := e; dragged_group := group_id c |} →
  getIndexOfEditor e (group_editors c) = group_count c - 1 →
  length (tabLabels c) = length (group_editors c) →
  (group_editors (onDropTabsContainer isMacintosh host ev c) = group_editors c
   ∧ tabLabels (onDropTabsContainer isMacintosh host ev c) = tabLabels c)
  ∧ (group_editors (onDrop isMacintosh host ev (group_count c - 1) c) = group_editors c
     ∧ tabLabels (onDrop isMacintosh host ev (group_count c - 1) c) = tabLabels c).
Proof.
  intros Htransfer Hlast Hlabels. split.
  - unfold onDropTabsContainer.
    destruct (targetIsTabsContainer ev); [|done].
    set (c1 := set_scrollClass false (updateDropFeedback false c)).
    by rewrite (onDrop_last c1 e) by (done || by left).
  - by rewrite (onDrop_last c e) by (done || by right).
Qed.
End DropFacts.

(** ** Insertion-ordered maps *)

Section JSMapFacts.
Context {K V : Type} `{EqDecision K}.
Implicit Types (m : JSMap K V) (k : K) (v : V) (vs : list V).

Lemma map_get_push m k v k' :
  map_get (getOrSet_push m k v) k' =
    if decide (k = k') then Some (default [] (map_get m k) ++ [v])
    else map_get m k'.
Proof.
  induction m as [|[k0 vs0] m IH]; cbn.
  - by repeat case_decide.
  - destruct (decide (k0 = k)) as [->|Hne]; cbn.
    + by destruct (decide (k = k')) as [->|Hne'].
    + destruct (decide (k0 = k')) as [->|Hne']; cbn.
      * by rewrite decide_False.
      * rewrite IH. by case_decide.
Qed.

Lemma push_keys m k v :
  (getOrSet_push m k v).*1 = if decide (k ∈ m.*1) then m.*1 else m.*1 ++ [k].
Proof.
  induction m as [|[k0 vs0] m IH]; cbn.
  - rewrite decide_False; [done|]. by apply not_elem_of_nil.
  - destruct (decide (k0 = k)) as [->|Hne]; cbn.
    + rewrite decide_True; [done|]. by left.
    + rewrite IH. destruct (decide (k ∈ m.*1)) as [Hin|Hnin].
      * rewrite decide_True; [done|]. by right.
      * rewrite decide_False; [done|].
        intros [?|?]%elem_of_cons; congruence.
Qed.

Lemma push_keys_NoDup m k v : NoDup m.*1 → NoDup (getOrSet_push m k v).*1.
Proof.
  intros Hnd. rewrite push_keys. case_decide; [done|].
  apply NoDup_app. split_and!; [done| |apply NoDup_singleton].
  intros x Hx ->%list_elem_of_singleton. done.
Qed.

Lemma map_get_Some_elem_of m k vs : map_get m k = Some vs → (k, vs) ∈ m.
Proof.
  induction m as [|[k0 vs0] m IH]; cbn; [done|].
  case_decide; subst.
  - intros [= ->]. by left.
  - intros. right. by apply IH.
Qed.

Lemma map_get_None m k : map_get m k = None ↔ k ∉ m.*1.
Proof.
  induction m as [|[k0 vs0] m IH]; cbn.
  - split; [intros _; apply not_elem_of_nil|done].
  - case_decide; subst.
    + split; [done|]. intros []. by left.
    + rewrite IH, not_elem_of_cons. split; [by intros ?|by intros [_ ?]].
Qed.

Lemma elem_of_map_get m k vs : NoDup m.*1 → (k, vs) ∈ m → map_get m k = Some vs.
Proof.
  induction m as [|[k0 vs0] m IH]; cbn; [by intros _ ?%elem_of_nil|].
  intros [Hk0 Hnd]%NoDup_cons [Heq|Hin]%elem_of_cons.
  - simplify_eq. by rewrite decide_True.
  - rewrite decide_False; [by apply IH|].
    intros ->. apply Hk0. apply list_elem_of_fmap. by exists (k, vs).
Qed.

Lemma map_get_lookup_key m k (p : nat) :
  NoDup m.*1 → m.*1 !! p = Some k → ∃ vs, m !! p = Some (k, vs) ∧ map_get m k = Some vs.
Proof.
  intros Hnd Hp. rewrite list_lookup_fmap in Hp.
  destruct (m !! p) as [[k' vs]|] eqn:Hm; simplify_eq/=.
  exists vs. split; [done|].
  apply elem_of_map_get; [done|]. by eapply list_elem_of_lookup_2.
Qed.
End JSMapFacts.

(** ** Assignments to descriptions *)

Lemma set_description_frame d label : frame (set_description d label) = frame label.
Proof. done. Qed.

Lemma set_description_twice d d' label :
  set_description d' (set_description d label) = set_description d' label.
Proof. done. Qed.

Lemma set_description_same label : set_description (description label) label = label.
Proof. by destruct label. Qed.

Lemma length_assign d r (ls : Labels) : length (assign d r ls) = length ls.
Proof. apply length_alter. Qed.

Lemma assign_lookup d r (ls : Labels) :
  assign d r ls !! r = set_description d <$> ls !! r.
Proof. apply list_lookup_alter_eq. Qed.

Lemma assign_lookup_ne d r i (ls : Labels) :
  r ≠ i → assign d r ls !! i = ls !! i.
Proof. apply list_lookup_alter_ne. Qed.

Lemma assign_frame d r (ls : Labels) : frame <$> assign d r ls = frame <$> ls.
Proof.
  apply list_eq. intros i. rewrite !list_lookup_fmap.
  destruct (decide (r = i)) as [->|Hne].
  - rewrite assign_lookup. by destruct (ls !! i).
  - by rewrite assign_lookup_ne.
Qed.

Lemma frame_lookup (ls ls' : Labels) i label :
  frame <$> ls' = frame <$> ls →
  ls !! i = Some label →
  ∃ d, ls' !! i = Some (set_description d label).
Proof.
  intros Hframe Hi.
  assert ((frame <$> ls') !! i = Some (frame label)) as Hi'
    by (by rewrite Hframe, list_lookup_fmap, Hi).
  rewrite list_lookup_fmap in Hi'.
  destruct (ls' !! i) as [label'|]; [|done]. cbn in Hi'.
  exists (description label'). f_equal.
  destruct label, label'. cbn in *. unfold frame in Hi'. by simplify_eq/=.
Qed.

(** Assigning one description to a list of slots. *)
Lemma foldl_assign_lookup d (rs : list nat) (ls : Labels) i :
  foldl (λ ls r, assign d r ls) ls rs !! i =
    if decide (i ∈ rs) then set_description d <$> ls !! i else ls !! i.
Proof.
  revert ls. induction rs as [|r rs IH]; intros ls; cbn.
  - rewrite decide_False; [done|]. apply not_elem_of_nil.
  - rewrite IH. destruct (decide (r = i)) as [->|Hne].
    + rewrite assign_lookup. rewrite (decide_True (P := i ∈ i :: rs)) by left.
      case_decide; [|done]. destruct (ls !! i); [|done]. done.
    + rewrite assign_lookup_ne by done.
      destruct (decide (i ∈ rs)) as [Hin|Hnin].
      * rewrite decide_True; [done|]. by right.
      * rewrite decide_False; [done|].
        intros [?|?]%elem_of_cons; congruence.
Qed.

Lemma foldl_assign_frame d (rs : list nat) (ls : Labels) :
  frame <$> foldl (λ ls r, assign d r ls) ls rs = frame <$> ls.
Proof.
  revert ls. induction rs as [|r rs IH]; intros ls; cbn; [done|].
  by rewrite IH, assign_frame.
Qed.

Lemma assignAll_lookup d (m : JSMap jsstring nat) key (ls : Labels) i :
  assignAll d m key ls !! i =
    if decide (i ∈ default [] (map_get m key)) then set_description d <$> ls !! i
    else ls !! i.
Proof. apply foldl_assign_lookup. Qed.

Lemma assignAll_frame d (m : JSMap jsstring nat) key (ls : Labels) :
  frame <$> assignAll d m key ls = frame <$> ls.
Proof. apply foldl_assign_frame. Qed.

(** ** Partitions of a group by a key *)

Section PartitionFacts.
Context {K : Type} `{EqDecision K}.
Implicit Types (key : nat → K) (G : list nat) (m : list (K * list nat)) (k : K).

Lemma partition_by_keys_NoDup key G m :
  NoDup m.*1 → NoDup (partition_by key G m).*1.
Proof.
  revert m. induction G as [|r G IH]; intros m Hnd; cbn; [done|].
  apply IH. by apply push_keys_NoDup.
Qed.

Lemma partition_by_get key G m k :
  map_get (partition_by key G m) k =
    if decide (filter (λ r, key r = k) G = []) then map_get m k
    else Some (default [] (map_get m k) ++ filter (λ r, key r = k) G).
Proof.
  revert m. induction G as [|r G IH]; intros m.
  - cbn. by rewrite decide_True.
  - change (partition_by key (r :: G) m)
      with (partition_by key G (getOrSet_push m (key r) r)).
    rewrite IH, map_get_push, filter_cons.
    destruct (decide (key r = k)) as [Hk|Hk]; [|done].
    rewrite (decide_False (P := _ :: _ = [])) by done.
    case_decide as Hnil.
    + rewrite Hnil. by subst k.
    + subst k. cbn. by rewrite <- app_assoc.
Qed.

Lemma partition_by_get_nil key G k :
  map_get (partition_by key G []) k =
    if decide (filter (λ r, key r = k) G = []) then None
    else Some (filter (λ r, key r = k) G).
Proof. rewrite partition_by_get. by case_decide. Qed.

(** A slot of [G] sits in the entry of its key, and nowhere else. *)
Lemma partition_by_member key G r :
  r ∈ G →
  ∃ rs, map_get (partition_by key G []) (key r) = Some rs ∧ r ∈ rs.
Proof.
  intros Hr. rewrite partition_by_get_nil.
  assert (r ∈ filter (λ r', key r' = key r) G) as Hin
    by (by apply list_elem_of_filter).
  case_decide as Hnil.
  - rewrite Hnil in Hin. by apply elem_of_nil in Hin.
  - eauto.
Qed.

Lemma partition_by_entry key G k rs r :
  map_get (partition_by key G []) k = Some rs → r ∈ rs → key r = k ∧ r ∈ G.
Proof.
  rewrite partition_by_get_nil. case_decide; [done|].
  intros [= <-] Hr. by apply list_elem_of_filter in Hr.
Qed.

Lemma push_fresh m k (v : nat) : k ∉ m.*1 → getOrSet_push m k v = m ++ [(k, [v])].
Proof.
  induction m as [|[k0 vs0] m IH]; cbn; [done|].
  intros [Hne Hnin]%not_elem_of_cons.
  rewrite decide_False by done. by rewrite IH.
Qed.

(** With pairwise distinct keys every slot gets an entry of its own. *)
Lemma partition_by_distinct key G m :
  NoDup (key <$> G) →
  (∀ r, r ∈ G → key r ∉ m.*1) →
  partition_by key G m = m ++ ((λ r, (key r, [r])) <$> G).
Proof.
  revert m. induction G as [|r G IH]; intros m Hnd Hfresh; cbn.
  - by rewrite app_nil_r.
  - apply NoDup_cons in Hnd as [Hr Hnd].
    unfold partition_by in IH. rewrite IH; [|done|].
    + rewrite push_fresh by (apply Hfresh; left).
      by rewrite <- app_assoc.
    + intros r' Hr'. rewrite push_keys.
      rewrite decide_False by (apply Hfresh; left).
      rewrite elem_of_app, list_elem_of_singleton.
      intros [Hin|Heq].
      * by apply (Hfresh r'); [right|].
      * apply Hr. rewrite <- Heq. apply list_elem_of_fmap. by exists r'.
Qed.

(** With one key for all slots there is one entry. *)
Lemma partition_by_constant key G k rs :
  (∀ r, r ∈ G → key r = k) →
  partition_by key G [(k, rs)] = [(k, rs ++ G)].
Proof.
  revert rs. induction G as [|r G IH]; intros rs Hkey; cbn.
  - by rewrite app_nil_r.
  - rewrite (Hkey r) by left. rewrite decide_True by done.
    unfold partition_by in IH. rewrite IH by (intros; apply Hkey; by right).
    by rewrite <- app_assoc.
Qed.

Lemma partition_by_constant_nil key G k :
  G ≠ [] →
  (∀ r, r ∈ G → key r = k) →
  partition_by key G [] = [(k, G)].
Proof.
  destruct G as [|r G]; [done|]. intros _ Hkey.
  change (partition_by key (r :: G) []) with (partition_by key G [(key r, [r])]).
  rewrite (Hkey r) by left.
  by rewrite partition_by_constant by (intros; apply Hkey; by right).
Qed.

Lemma partition_by_ext key key' G m :
  (∀ r, r ∈ G → key r = key' r) →
  partition_by key G m = partition_by key' G m.
Proof.
  revert m. induction G as [|r G IH]; intros m Hkey; cbn; [done|].
  rewrite (Hkey r) by left. apply IH. intros; apply Hkey; by right.
Qed.
End PartitionFacts.

(** ** The steps of shortenDuplicateTitles *)

Lemma frame_length (ls ls' : Labels) : frame <$> ls' = frame <$> ls → length ls' = length ls.
Proof. intros Hframe. by rewrite <- (length_fmap frame ls'), Hframe, length_fmap. Qed.

Lemma frame_longDescription (ls ls' : Labels) r :
  frame <$> ls' = frame <$> ls → longDescription ls' r = longDescription ls r.
Proof.
  intros Hframe. unfold longDescription.
  assert ((frame <$> ls') !! r = (frame <$> ls) !! r) as Hr by (by rewrite Hframe).
  rewrite !list_lookup_fmap in Hr.
  destruct (ls' !! r) as [l'|], (ls !! r) as [l|]; simplify_eq/=; [|done].
  congruence.
Qed.

Lemma gatherDescriptions_partition (ls : Labels) G :
  (∀ r, r ∈ G → (r < length ls)%nat) →
  gatherDescriptions ls G = partition_by (descriptionAt ls) G [].
Proof.
  unfold gatherDescriptions, partition_by. generalize (@nil (jsstring * list nat)).
  induction G as [|r G IH]; intros m Hvalid; cbn; [done|].
  destruct (lookup_lt_is_Some_2 ls r) as [l Hl]; [apply Hvalid; left|].
  assert (descriptionAt ls r = description l) as ->
    by (unfold descriptionAt; by rewrite Hl).
  rewrite Hl. apply IH. intros; apply Hvalid; by right.
Qed.

Lemma foldl_assign_fun_lookup (f : nat → jsstring) (G : list nat) (ls : Labels) i :
  foldl (λ l r, assign (f r) r l) ls G !! i =
    if decide (i ∈ G) then set_description (f i) <$> ls !! i else ls !! i.
Proof.
  revert ls. induction G as [|r G IH]; intros ls; cbn.
  - rewrite decide_False; [done|]. apply not_elem_of_nil.
  - rewrite IH. destruct (decide (r = i)) as [->|Hne].
    + rewrite assign_lookup. rewrite (decide_True (P := i ∈ i :: G)) by left.
      case_decide; [|done]. by destruct (ls !! i).
    + rewrite assign_lookup_ne by done.
      destruct (decide (i ∈ G)) as [Hin|Hnin].
      * rewrite decide_True; [done|]. by right.
      * rewrite decide_False; [done|].
        intros [?|?]%elem_of_cons; congruence.
Qed.

Lemma foldl_assign_fun_frame (f : nat → jsstring) (G : list nat) (ls : Labels) :
  frame <$> foldl (λ l r, assign (f r) r l) ls G = frame <$> ls.
Proof.
  revert ls. induction G as [|r G IH]; intros ls; cbn; [done|].
  by rewrite IH, assign_frame.
Qed.

Lemma replaceWithLong_frame (ls : Labels) G :
  frame <$> (replaceWithLong ls G).1 = frame <$> ls.
Proof.
  unfold replaceWithLong. generalize (@nil (jsstring * list nat)).
  revert ls. induction G as [|r G IH]; intros ls m; cbn; [done|].
  destruct (ls !! r) as [l|]; [|apply IH].
  by rewrite IH, assign_frame.
Qed.

Lemma replaceWithLong_from (ls acc : Labels) (m : JSMap jsstring nat) G :
  frame <$> acc = frame <$> ls →
  (∀ r, r ∈ G → (r < length ls)%nat) →
  foldl (λ acc r,
           match acc.1 !! r with
           | Some label =>
             let d := getDescription (editor label) LONG in
             (assign d r acc.1, getOrSet_push acc.2 d r)
           | None => acc
           end) (acc, m) G =
    (foldl (λ l r, assign (longDescription ls r) r l) acc G,
     partition_by (longDescription ls) G m).
Proof.
  revert acc m. induction G as [|r G IH]; intros acc m Hframe Hvalid; cbn; [done|].
  assert (r < length acc)%nat as Hr
    by (rewrite (frame_length _ _ Hframe); apply Hvalid; left).
  destruct (lookup_lt_is_Some_2 acc r Hr) as [l Hl]. rewrite Hl.
  assert (getDescription (editor l) LONG = longDescription ls r) as ->.
  { rewrite <- (frame_longDescription ls acc r Hframe).
    unfold longDescription. by rewrite Hl. }
  apply IH.
  - by rewrite assign_frame.
  - intros; apply Hvalid; by right.
Qed.

Lemma replaceWithLong_spec (ls : Labels) G :
  (∀ r, r ∈ G → (r < length ls)%nat) →
  replaceWithLong ls G =
    (foldl (λ l r, assign (longDescription ls r) r l) ls G,
     partition_by (longDescription ls) G []).
Proof. intros Hvalid. by apply replaceWithLong_from. Qed.

Lemma longDescriptionsDiffer_same (ls : Labels) (rs : list nat) :
  (∀ r r', r ∈ rs → r' ∈ rs → longDescription ls r = longDescription ls r') →
  longDescriptionsDiffer ls rs = false.
Proof.
  intros Hsame. unfold longDescriptionsDiffer.
  destruct rs as [|r0 rs]; cbn; [done|].
  apply not_true_iff_false. intros (d & Hd & Hne)%existsb_exists.
  apply list_elem_of_In, list_elem_of_fmap in Hd as (r & -> & Hr).
  rewrite bool_decide_eq_true_2 in Hne; [done|].
  apply Hsame; [by right|by left].
Qed.

Lemma checkLongDescriptions_small (ls : Labels) (m : JSMap jsstring nat) :
  (∀ entry, entry ∈ m → (length entry.2 ≤ 1)%nat) →
  checkLongDescriptions ls m = false.
Proof.
  unfold checkLongDescriptions.
  induction m as [|entry m IH]; intros Hsmall; [done|].
  assert (length entry.2 ≤ 1)%nat as Hlen by (apply Hsmall; left).
  cbn [foldl negb andb].
  destruct (Nat.ltb_spec 1 (length entry.2)); [lia|].
  apply IH. intros; apply Hsmall; by right.
Qed.

Lemma checkLongDescriptions_single (ls : Labels) d (rs : list nat) :
  (∀ r r', r ∈ rs → r' ∈ rs → longDescription ls r = longDescription ls r') →
  checkLongDescriptions ls [(d, rs)] = false.
Proof.
  intros Hsame. unfold checkLongDescriptions. cbn [foldl negb andb snd].
  destruct (1 <? length rs)%nat; [|done].
  by apply longDescriptionsDiffer_same.
Qed.

(** *** The final assignment *)

Lemma imap_pair_snd {A : Type} (l : list A) : (imap pair l).*2 = l.
Proof.
  apply list_eq. intros i. rewrite list_lookup_fmap, list_lookup_imap.
  by destruct (l !! i).
Qed.

Section FinalAssignment.
Variable val : nat → jsstring.
Variable m : list (jsstring * list nat).

Local Abbreviation step := (λ (ls : Labels) (id : nat * jsstring), assignAll (val id.1) m id.2 ls).

Lemma foldl_assignAll_frame (kvs : list (nat * jsstring)) (ls : Labels) :
  frame <$> foldl step ls kvs = frame <$> ls.
Proof.
  revert ls. induction kvs as [|pk kvs IH]; intros ls; cbn; [done|].
  rewrite IH. apply assignAll_frame.
Qed.

Lemma foldl_assignAll_untouched (kvs : list (nat * jsstring)) (ls : Labels) r :
  (∀ pk, pk ∈ kvs → r ∉ default [] (map_get m pk.2)) →
  foldl step ls kvs !! r = ls !! r.
Proof.
  revert ls. induction kvs as [|pk kvs IH]; intros ls Hout; cbn; [done|].
  rewrite IH by (intros; apply Hout; by right).
  rewrite assignAll_lookup.
  rewrite decide_False; [done|]. apply Hout. by left.
Qed.

Lemma foldl_assignAll_lookup (kvs : list (nat * jsstring)) (ls : Labels) r l p k :
  NoDup kvs.*2 →
  (p, k) ∈ kvs →
  r ∈ default [] (map_get m k) →
  (∀ k', k' ≠ k → r ∉ default [] (map_get m k')) →
  ls !! r = Some l →
  foldl step ls kvs !! r = Some (set_description (val p) l).
Proof.
  intros Hnd Hin Hr Hothers. revert ls.
  induction kvs as [|[p0 k0] kvs IH]; intros ls Hl; [by apply elem_of_nil in Hin|].
  cbn in Hnd. apply NoDup_cons in Hnd as [Hk0 Hnd]. cbn [foldl].
  apply elem_of_cons in Hin as [Heq|Hin].
  - injection Heq as Hp Hk. subst p0 k0. rewrite foldl_assignAll_untouched.
    + rewrite assignAll_lookup. cbn. rewrite decide_True by done.
      by rewrite Hl.
    + intros [p' k'] Hpk. cbn. apply Hothers. intros ->.
      apply Hk0. apply list_elem_of_fmap. by exists (p', k).
  - apply IH; [done|done|].
    rewrite assignAll_lookup. cbn.
    rewrite decide_False; [done|]. apply Hothers. intros ->.
    apply Hk0. apply list_elem_of_fmap. by exists (p, k).
Qed.
End FinalAssignment.

(** *** The body of the loop over the titles, summed up *)

Section ShortenDuplicateTitles.
Variable shorten : list jsstring → list jsstring.
Implicit Types (ls : list AugmentedLabel) (G : list nat).

Lemma shortenDuplicateTitles_single ls r :
  shortenDuplicateTitles shorten ls [r] = assign (Str "") r ls.
Proof. done. Qed.

Lemma final_stage_assignShortened (m : list (jsstring * list nat)) ls :
  match m.*1 with
  | [d] => assignAll (Str "") m d ls
  | _ =>
    foldl (λ ls id, assignAll (default Undefined (shorten m.*1 !! id.1)) m id.2 ls)
      ls (imap pair m.*1)
  end = assignShortened shorten m ls.
Proof.
  unfold assignShortened. by destruct (m.*1) as [|d [|d' ds]].
Qed.

Lemma shortenDuplicateTitles_many ls G :
  length G ≠ 1%nat →
  valid_refs ls G →
  shortenDuplicateTitles shorten ls G =
    assignShortened shorten (partition_by (groupKey ls G) G [])
      (if usesLong ls G
       then foldl (λ l r, assign (longDescription ls r) r l) ls G
       else ls).
Proof.
  intros Hlen [Hnd Hvalid].
  assert (shortenDuplicateTitles shorten ls G =
    let m0 := gatherDescriptions ls G in
    let acc := if checkLongDescriptions ls m0 then replaceWithLong ls G
               else (ls, m0) in
    assignShortened shorten acc.2 acc.1) as ->.
  { cbn zeta. rewrite <- final_stage_assignShortened.
    by destruct G as [|r [|r' G]]. }
  cbn zeta. rewrite gatherDescriptions_partition by done.
  unfold groupKey, usesLong.
  destruct (checkLongDescriptions ls _); [|done].
  by rewrite replaceWithLong_spec.
Qed.

Lemma shortenDuplicateTitles_frame ls G :
  frame <$> shortenDuplicateTitles shorten ls G = frame <$> ls.
Proof.
  assert (∀ acc : list AugmentedLabel * list (jsstring * list nat),
    frame <$> acc.1 = frame <$> ls →
    frame <$> match acc.2.*1 with
              | [d] => assignAll (Str "") acc.2 d acc.1
              | _ =>
                foldl (λ ls id,
                         assignAll (default Undefined (shorten acc.2.*1 !! id.1))
                           acc.2 id.2 ls) acc.1 (imap pair acc.2.*1)
              end = frame <$> ls) as Hfinal.
  { intros acc Hacc. rewrite final_stage_assignShortened.
    unfold assignShortened. by rewrite foldl_assignAll_frame. }
  destruct G as [|r [|r' G]].
  - by apply Hfinal.
  - apply assign_frame.
  - unfold shortenDuplicateTitles. apply Hfinal.
    destruct (checkLongDescriptions ls _); [|done].
    apply replaceWithLong_frame.
Qed.

Lemma shortenDuplicateTitles_out ls G i :
  valid_refs ls G → i ∉ G →
  shortenDuplicateTitles shorten ls G !! i = ls !! i.
Proof.
  intros Hvalid Hi. destruct (decide (length G = 1%nat)) as [Hone|Hmany].
  - destruct G as [|r [|r' G]]; try done.
    rewrite shortenDuplicateTitles_single, assign_lookup_ne; [done|].
    intros ->. apply Hi. by left.
  - rewrite shortenDuplicateTitles_many by done.
    unfold assignShortened. rewrite foldl_assignAll_untouched.
    + destruct (usesLong ls G); [|done].
      rewrite foldl_assign_fun_lookup. by rewrite decide_False.
    + intros [p k] Hpk. cbn.
      destruct (map_get _ k) as [rs|] eqn:Hget; cbn; [|apply not_elem_of_nil].
      intros Hin. by apply (partition_by_entry _ _ _ _ _ Hget) in Hin as [_ ?].
Qed.

(** A slot of a group of several labels gets the final value of the entry
    its key is filed under. *)
Lemma shortenDuplicateTitles_in ls G r l :
  length G ≠ 1%nat →
  valid_refs ls G →
  r ∈ G →
  ls !! r = Some l →
  ∃ p, groupKeys ls G !! p = Some (groupKey ls G r)
       ∧ shortenDuplicateTitles shorten ls G !! r
         = Some (set_description (finalValue shorten (groupKeys ls G) p) l).
Proof.
  intros Hlen Hvalid Hr Hl.
  rewrite shortenDuplicateTitles_many by done.
  set (key := groupKey ls G). set (m := partition_by key G []).
  destruct (partition_by_member key G r Hr) as (rs & Hget & Hrs). fold m in Hget.
  assert (NoDup m.*1) as Hnd by (apply partition_by_keys_NoDup; constructor).
  assert (key r ∈ m.*1) as Hkey.
  { destruct (decide (key r ∈ m.*1)) as [|Hnin]; [done|].
    apply map_get_None in Hnin. congruence. }
  apply list_elem_of_lookup in Hkey as [p Hp].
  exists p. split; [done|].
  set (ls1 := if usesLong ls G then _ else ls).
  assert (ls1 !! r = Some (set_description (key r) l)) as Hl1.
  { unfold ls1, key, groupKey. destruct (usesLong ls G).
    - rewrite foldl_assign_fun_lookup, decide_True by done. by rewrite Hl.
    - rewrite Hl. f_equal. unfold descriptionAt. rewrite Hl. cbn.
      by rewrite set_description_same. }
  unfold assignShortened.
  rewrite (foldl_assignAll_lookup _ m _ ls1 r (set_description (key r) l) p (key r)).
  - done.
  - by rewrite imap_pair_snd.
  - by apply (elem_of_lookup_imap_2 pair).
  - by rewrite Hget.
  - intros k' Hk'.
    destruct (map_get m k') as [rs'|] eqn:Hget'; cbn; [|apply not_elem_of_nil].
    intros Hin. apply (partition_by_entry _ _ _ _ _ Hget') in Hin as [? _].
    congruence.
  - done.
Qed.
End ShortenDuplicateTitles.

(** ** The first loop: gathering the titles *)

Lemma in_group_Some (labels : Labels) n r :
  in_group labels n r ↔
  ∃ label, labels !! r = Some label ∧ isString (description label) = true ∧ name label = n.
Proof.
  unfold in_group. destruct (labels !! r) as [label|]; cbn.
  - rewrite andb_True, bool_decide_spec, Is_true_true. split.
    + intros [? ?]. by exists label.
    + intros (l & [= <-] & ? & ?). done.
  - split; [done|]. by intros (l & ? & _).
Qed.

Lemma elem_of_name_group (labels : Labels) n r :
  r ∈ name_group labels n ↔
  ∃ label, labels !! r = Some label ∧ isString (description label) = true ∧ name label = n.
Proof.
  unfold name_group. rewrite list_elem_of_filter, in_group_Some, elem_of_seq.
  split; [by intros [? _]|]. intros (label & Hl & ?). split; [eauto|].
  apply lookup_lt_Some in Hl. lia.
Qed.

Lemma name_group_valid_refs (labels ls : Labels) n :
  length ls = length labels → valid_refs ls (name_group labels n).
Proof.
  intros Hlen. split.
  - apply NoDup_filter, NoDup_seq.
  - intros r (label & Hl & _)%elem_of_name_group.
    apply lookup_lt_Some in Hl. lia.
Qed.

Lemma name_group_disjoint (labels : Labels) n n' r :
  r ∈ name_group labels n → r ∈ name_group labels n' → n = n'.
Proof.
  intros (l & Hl & _ & <-)%elem_of_name_group (l' & Hl' & _ & <-)%elem_of_name_group.
  congruence.
Qed.

Lemma gatherStep_valid (ls : Labels) (m : JSMap string nat) r label :
  ls !! r = Some label → isString (description label) = true →
  gatherStep (ls, m) r = (ls, getOrSet_push m (name label) r).
Proof. intros Hl Hs. unfold gatherStep. cbn. by rewrite Hl, Hs. Qed.

Lemma gatherStep_invalid (ls : Labels) (m : JSMap string nat) r label :
  ls !! r = Some label → isString (description label) = false →
  gatherStep (ls, m) r = (assign (Str "") r ls, m).
Proof. intros Hl Hs. unfold gatherStep. cbn. by rewrite Hl, Hs. Qed.

(** The state of the first loop after [k] turns. *)
Lemma gather_prefix (labels : Labels) (k : nat) :
  (k ≤ length labels)%nat →
  ∃ m : list (string * list nat),
    foldl gatherStep (labels, []) (seq 0 k)
    = ((clearInvalid <$> take k labels) ++ drop k labels, m)
    ∧ NoDup m.*1
    ∧ ∀ n, map_get m n =
           if decide (filter (λ r, in_group labels n r) (seq 0 k) = []) then None
           else Some (filter (λ r, in_group labels n r) (seq 0 k)).
Proof.
  induction k as [|k IH]; intros Hk.
  - exists []. cbn. split_and!; [by rewrite drop_0|constructor|done].
  - destruct IH as (m & Hfold & Hnd & Hget); [lia|].
    destruct (lookup_lt_is_Some_2 labels k) as [label Hlabel]; [lia|].
    rewrite seq_S, foldl_app, Hfold. cbn [foldl Nat.add].
    set (ls := (clearInvalid <$> take k labels) ++ drop k labels).
    assert (length (clearInvalid <$> take k labels) = k) as Hlen
      by (rewrite length_fmap, length_take; lia).
    assert (ls !! k = Some label) as Hls.
    { unfold ls. rewrite lookup_app_r by lia.
      rewrite Hlen, Nat.sub_diag, lookup_drop. by rewrite Nat.add_0_r. }
    assert (∀ n, in_group labels n k
                 ↔ isString (description label) = true ∧ name label = n) as Hin.
    { intros n. rewrite in_group_Some. split; [|by eauto].
      intros (l & Hl & ?). by simplify_eq. }
    rewrite (take_S_r _ _ _ Hlabel), fmap_app. cbn [fmap list_fmap].
    destruct (isString (description label)) eqn:Hs.
    + exists (getOrSet_push m (name label) k).
      rewrite (gatherStep_valid _ _ _ _ Hls Hs). split_and!.
      * f_equal.
        assert (clearInvalid label = label) as ->
          by (unfold clearInvalid; by rewrite Hs).
        unfold ls. rewrite <- app_assoc. cbn.
        by rewrite (drop_S _ _ _ Hlabel).
      * by apply push_keys_NoDup.
      * intros n. rewrite map_get_push, filter_app, Hget.
        rewrite filter_cons, filter_nil. cbn beta.
        destruct (decide (Is_true (in_group labels n k))) as [Hk'|Hk'].
        -- apply Hin in Hk' as [_ <-]. rewrite decide_True by done.
           rewrite (decide_False (P := _ ++ [_] = [])) by (by intros [_ ?]%app_nil).
           by case_decide as Hnil; [rewrite Hnil|].
        -- rewrite decide_False by (intros <-; by apply Hk', Hin).
           by rewrite app_nil_r.
    + exists m. rewrite (gatherStep_invalid _ _ _ _ Hls Hs). split_and!.
      * f_equal.
        assert (clearInvalid label = set_description (Str "") label) as ->
          by (unfold clearInvalid; by rewrite Hs).
        unfold ls, assign.
        rewrite alter_app_r_alt by lia. rewrite Hlen, Nat.sub_diag.
        rewrite (drop_S _ _ _ Hlabel). cbn. by rewrite <- app_assoc.
      * done.
      * intros n. rewrite filter_app, Hget, filter_cons, filter_nil. cbn beta.
        destruct (decide (Is_true (in_group labels n k))) as [Hk'|Hk'].
        -- by apply Hin in Hk' as [? _].
        -- by rewrite app_nil_r.
Qed.

Lemma gatherTitles_spec (labels : Labels) :
  ∃ m : list (string * list nat),
    gatherTitles labels = (clearInvalid <$> labels, m)
    ∧ NoDup m.*1
    ∧ ∀ n, map_get m n =
           if decide (name_group labels n = []) then None
           else Some (name_group labels n).
Proof.
  destruct (gather_prefix labels (length labels)) as (m & Hfold & Hnd & Hget); [done|].
  exists m. split_and!; [|done|done].
  unfold gatherTitles. rewrite Hfold, firstn_all, drop_all. by rewrite app_nil_r.
Qed.

(** ** The loop over the titles *)

Lemma valid_refs_frame (ls ls' : Labels) G :
  frame <$> ls' = frame <$> ls → valid_refs ls G → valid_refs ls' G.
Proof.
  intros Hframe [Hnd Hvalid]. split; [done|].
  rewrite (frame_length _ _ Hframe). done.
Qed.

Lemma clearInvalid_frame (labels : Labels) : frame <$> (clearInvalid <$> labels) = frame <$> labels.
Proof.
  rewrite <- list_fmap_compose. apply list_fmap_ext. intros i l _. cbn.
  unfold clearInvalid. by destruct (isString (description l)).
Qed.

Section Run.
Variable shorten : list jsstring → list jsstring.
Implicit Types (ls labels : list AugmentedLabel) (M : list (string * list nat)).

Lemma resolveAll_frame M ls : frame <$> resolveAll shorten M ls = frame <$> ls.
Proof.
  revert ls. induction M as [|e M IH]; intros ls; cbn; [done|].
  unfold resolveAll in IH. by rewrite IH, shortenDuplicateTitles_frame.
Qed.

Lemma resolveAll_untouched M ls i :
  (∀ e, e ∈ M → valid_refs ls e.2 ∧ i ∉ e.2) →
  resolveAll shorten M ls !! i = ls !! i.
Proof.
  revert ls. induction M as [|e M IH]; intros ls Hout; cbn; [done|].
  destruct (Hout e) as [Hvalid Hi]; [by left|].
  unfold resolveAll in IH. rewrite IH.
  - by apply shortenDuplicateTitles_out.
  - intros e' He'. destruct (Hout e') as [Hvalid' Hi']; [by right|].
    split; [|done].
    eapply valid_refs_frame; [|done]. apply shortenDuplicateTitles_frame.
Qed.

Lemma shortenTabLabels_resolveAll labels :
  ∃ M,
    shortenTabLabels shorten labels = resolveAll shorten M (clearInvalid <$> labels)
    ∧ NoDup M.*1
    ∧ (∀ n G, (n, G) ∈ M ↔ G = name_group labels n ∧ G ≠ []).
Proof.
  destruct (gatherTitles_spec labels) as (M & Hgather & Hnd & Hget).
  exists M. split_and!; [|done|].
  - unfold shortenTabLabels. by rewrite Hgather.
  - intros n G. split.
    + intros Hin. apply elem_of_map_get in Hin; [|done].
      rewrite Hget in Hin. case_decide; simplify_eq. done.
    + intros [-> Hne]. apply map_get_Some_elem_of.
      rewrite Hget. by rewrite decide_False.
Qed.

Lemma shortenTabLabels_frame labels :
  frame <$> shortenTabLabels shorten labels = frame <$> labels.
Proof.
  destruct (shortenTabLabels_resolveAll labels) as (M & -> & _).
  by rewrite resolveAll_frame, clearInvalid_frame.
Qed.

(** A label whose description is not a string ends with an empty
    description. *)
Lemma shortenTabLabels_invalid labels i label :
  labels !! i = Some label →
  isString (description label) = false →
  shortenTabLabels shorten labels !! i = Some (set_description (Str "") label).
Proof.
  intros Hi Hs.
  destruct (shortenTabLabels_resolveAll labels) as (M & -> & Hnd & HM).
  rewrite resolveAll_untouched.
  - rewrite list_lookup_fmap, Hi. cbn. unfold clearInvalid. by rewrite Hs.
  - intros [n G] [-> _]%HM. cbn. split.
    + apply name_group_valid_refs. by rewrite length_fmap.
    + intros (l & Hl & Hs' & _)%elem_of_name_group. congruence.
Qed.

(** The labels of a name-group are resolved by one run of the loop body,
    on an array that still holds the labels of the group as they came in. *)
Lemma shortenTabLabels_group labels n :
  name_group labels n ≠ [] →
  ∃ ls,
    frame <$> ls = frame <$> labels
    ∧ (∀ j, j ∈ name_group labels n → ls !! j = labels !! j)
    ∧ (∀ j, j ∈ name_group labels n →
         shortenTabLabels shorten labels !! j
         = shortenDuplicateTitles shorten ls (name_group labels n) !! j).
Proof.
  intros Hne. set (G := name_group labels n).
  destruct (shortenTabLabels_resolveAll labels) as (M & -> & Hnd & HM).
  assert ((n, G) ∈ M) as Hin by (by apply HM).
  apply list_elem_of_split in Hin as (M1 & M2 & ->).
  rewrite fmap_app, fmap_cons in Hnd. cbn in Hnd.
  apply NoDup_app in Hnd as (_ & Hn1 & [Hn2 _]%NoDup_cons).
  set (ls0 := clearInvalid <$> labels).
  assert (∀ e j, e.1 ≠ n → e ∈ M1 ++ (n, G) :: M2 → j ∈ G → ∀ ls,
            length ls = length labels → valid_refs ls e.2 ∧ j ∉ e.2) as Hother.
  { intros [n' G'] j Hn' [-> _]%HM Hj ls Hlen. cbn in *. split.
    - by apply name_group_valid_refs.
    - intros Hj'. apply Hn'. by apply (name_group_disjoint labels n' n j). }
  assert (frame <$> ls0 = frame <$> labels) as Hframe0 by apply clearInvalid_frame.
  exists (resolveAll shorten M1 ls0). split_and!.
  - by rewrite resolveAll_frame.
  - intros j Hj. rewrite resolveAll_untouched.
    + apply elem_of_name_group in Hj as (l & Hl & Hs & _).
      unfold ls0. rewrite list_lookup_fmap, Hl. cbn.
      unfold clearInvalid. by rewrite Hs.
    + intros e He. apply Hother; [|apply elem_of_app; by left|done|].
      * intros <-. apply (Hn1 e.1); [|left].
        apply list_elem_of_fmap. by exists e.
      * unfold ls0. by rewrite length_fmap.
  - intros j Hj. unfold resolveAll at 1. rewrite foldl_app. cbn [foldl snd].
    fold (resolveAll shorten M1 ls0).
    change (foldl _ ?a M2) with (resolveAll shorten M2 a).
    rewrite resolveAll_untouched; [done|].
    intros e He. apply Hother; [|apply elem_of_app; right; by right|done|].
    * intros <-. apply Hn2. apply list_elem_of_fmap. by exists e.
    * apply frame_length.
      by rewrite shortenDuplicateTitles_frame, resolveAll_frame.
Qed.
End Run.

(** ** The resolver as a whole *)

Lemma filter_ext_elem {A : Type} (P Q : A → Prop)
    `{∀ x, Decision (P x)} `{∀ x, Decision (Q x)} (l : list A) :
  (∀ x, x ∈ l → P x ↔ Q x) → filter P l = filter Q l.
Proof.
  induction l as [|x l IH]; intros Hext; [done|].
  rewrite !filter_cons. rewrite IH by (intros; apply Hext; by right).
  destruct (decide (P x)) as [HP|HP], (decide (Q x)) as [HQ|HQ]; try done.
  - by apply Hext in HP; [|left].
  - by apply Hext in HQ; [|left].
Qed.

Lemma name_group_snoc (labels : Labels) label n :
  name_group (labels ++ [label]) n =
    name_group labels n ++ (if decide (member_of n label) then [length labels] else []).
Proof.
  unfold name_group. rewrite length_app. cbn [length].
  rewrite Nat.add_1_r, seq_S, filter_app. cbn [Nat.add]. f_equal.
  - apply filter_ext_elem. intros r Hr%elem_of_seq.
    unfold in_group. by rewrite lookup_app_l by lia.
  - rewrite filter_cons, filter_nil. cbn beta.
    assert (in_group (labels ++ [label]) n (length labels) ↔ member_of n label) as Hin.
    { rewrite in_group_Some, list_lookup_middle by done. unfold member_of. split.
      - by intros (l & [= <-] & ?).
      - intros ?. by exists label. }
    destruct (decide (Is_true _)) as [Hk|Hk], (decide (member_of n label)) as [Hm|Hm];
      try done; by apply Hin in Hk || apply Hin in Hm.
Qed.

(** The size of a name-group, counted on the labels. *)
Lemma length_name_group (labels : Labels) n :
  length (name_group labels n) = length (filter (member_of n) labels).
Proof.
  induction labels as [|label labels IH] using rev_ind; [done|].
  rewrite name_group_snoc, filter_app, !length_app, IH. f_equal.
  rewrite filter_cons, filter_nil. by case_decide.
Qed.

Section Resolver.
Variable shorten : list jsstring → list jsstring.
Implicit Types (labels : list AugmentedLabel) (label : AugmentedLabel).

(** C9: the resolver keeps the length and the order of the label array and
    changes nothing but descriptions: at every index the name, the title
    and the editor are those of the label that came in. *)
Theorem shortenTabLabels_changes_descriptions_only labels :
  length (shortenTabLabels shorten labels) = length labels
  ∧ ∀ i label,
      labels !! i = Some label →
      ∃ label',
        shortenTabLabels shorten labels !! i = Some label'
        ∧ name label' = name label
        ∧ title label' = title label
        ∧ editor label' = editor label.
Proof.
  pose proof (shortenTabLabels_frame shorten labels) as Hframe. split.
  - by apply frame_length.
  - intros i label Hi.
    destruct (frame_lookup _ _ _ _ Hframe Hi) as [d Hd].
    by exists (set_description d label).
Qed.

(** C4: a label whose name occurs exactly once among the labels with a
    string description ends with an empty description. *)
Theorem unique_name_clears_description labels i label :
  labels !! i = Some label →
  length (filter (member_of (name label)) labels) = 1%nat →
  shortenTabLabels shorten labels !! i = Some (set_description (Str "") label).
Proof.
  intros Hi Hone. rewrite <- length_name_group in Hone.
  destruct (isString (description label)) eqn:Hs;
    [|by apply shortenTabLabels_invalid].
  assert (i ∈ name_group labels (name label)) as Hin
    by (apply elem_of_name_group; by exists label).
  destruct (name_group labels (name label)) as [|r [|r' G]] eqn:HG; try done.
  apply list_elem_of_singleton in Hin as ->.
  destruct (shortenTabLabels_group shorten labels (name label))
    as (ls & _ & Hsame & Hrun); [by rewrite HG|].
  rewrite HG in Hsame, Hrun.
  rewrite Hrun by left. cbn. rewrite assign_lookup, Hsame by left.
  by rewrite Hi.
Qed.
End Resolver.

Lemma finalValue_many (shorten : list jsstring → list jsstring) (ds : list jsstring) p :
  length ds ≠ 1%nat → finalValue shorten ds p = default Undefined (shorten ds !! p).
Proof. by destruct ds as [|d [|d' ds]]. Qed.

Lemma descriptionAt_lookup (ls : Labels) r label :
  ls !! r = Some label → descriptionAt ls r = description label.
Proof. intros Hr. unfold descriptionAt. by rewrite Hr. Qed.

Lemma longDescription_lookup (ls : Labels) r label :
  ls !! r = Some label → longDescription ls r = getDescription (editor label) LONG.
Proof. intros Hr. unfold longDescription. by rewrite Hr. Qed.

Section ResolverGroups.
Variable shorten : list jsstring → list jsstring.
Implicit Types (labels : list AugmentedLabel) (label : AugmentedLabel).

(** C2: when the labels of a name-group all have the same description, and
    those with the same description the same long description, so that one
    description is left in the group, every label of that name ends with an
    empty description.  (The group may have any size; the claim is the
    case of two or more labels.) *)
Theorem indistinguishable_group_cleared labels (n : string) :
  (∀ l l', l ∈ labels → l' ∈ labels → member_of n l → member_of n l' →
     description l = description l' →
     getDescription (editor l) LONG = getDescription (editor l') LONG) →
  (∀ l l', l ∈ labels → l' ∈ labels → member_of n l → member_of n l' →
     description l = description l') →
  ∀ i label,
    labels !! i = Some label → name label = n →
    shortenTabLabels shorten labels !! i = Some (set_description (Str "") label).
Proof.
  intros Hlong Hdesc i label Hi Hn.
  destruct (isString (description label)) eqn:Hs;
    [|by apply shortenTabLabels_invalid].
  set (G := name_group labels n).
  assert (i ∈ G) as Hin by (apply elem_of_name_group; by exists label).
  assert (G ≠ []) as HG
    by (intros HG; rewrite HG in Hin; by apply elem_of_nil in Hin).
  destruct (shortenTabLabels_group shorten labels n)
    as (ls & Hframe & Hsame & Hrun); [done|].
  fold G in Hsame, Hrun. rewrite (Hrun i Hin).
  assert (ls !! i = Some label) as Hli by (by rewrite Hsame).
  destruct (decide (length G = 1%nat)) as [Hone|Hmany].
  { destruct G as [|r [|r' G']]; try done.
    apply list_elem_of_singleton in Hin as ->.
    cbn. by rewrite assign_lookup, Hli. }
  assert (valid_refs ls G) as Hvalid
    by (apply name_group_valid_refs; by apply frame_length).
  assert (∀ r, r ∈ G → ∃ l, ls !! r = Some l ∧ l ∈ labels ∧ member_of n l) as Hmem.
  { intros r Hr. pose proof Hr as (l & Hl & ? & ?)%elem_of_name_group.
    exists l. rewrite (Hsame r Hr). split_and!; try done.
    by eapply list_elem_of_lookup_2. }
  assert (∀ r, r ∈ G → descriptionAt ls r = description label) as Hkey.
  { intros r (l & Hl & Hlin & Hlm)%Hmem.
    rewrite (descriptionAt_lookup _ _ _ Hl).
    apply Hdesc; try done; by eapply list_elem_of_lookup_2. }
  assert (usesLong ls G = false) as Huses.
  { unfold usesLong.
    rewrite (partition_by_constant_nil _ G (description label)) by done.
    apply checkLongDescriptions_single.
    intros r r' (l & Hl & ? & ?)%Hmem (l' & Hl' & ? & ?)%Hmem.
    rewrite (longDescription_lookup _ _ _ Hl), (longDescription_lookup _ _ _ Hl').
    apply Hlong; try done. by apply Hdesc. }
  assert (groupKeys ls G = [description label]) as Hkeys.
  { unfold groupKeys, groupKey. rewrite Huses.
    by rewrite (partition_by_constant_nil _ G (description label)) by done. }
  destruct (shortenDuplicateTitles_in shorten ls G i label Hmany Hvalid Hin Hli)
    as (p & _ & ->).
  by rewrite Hkeys.
Qed.

(** C10, amended: two labels with the same name, the same string
    description and the same long description end with the same
    description. *)
Theorem same_source_same_description labels i j li lj :
  labels !! i = Some li →
  labels !! j = Some lj →
  name li = name lj →
  isString (description li) = true →
  description li = description lj →
  getDescription (editor li) LONG = getDescription (editor lj) LONG →
  ∃ d,
    shortenTabLabels shorten labels !! i = Some (set_description d li)
    ∧ shortenTabLabels shorten labels !! j = Some (set_description d lj).
Proof.
  intros Hi Hj Hname Hs Hdesc Hlong.
  set (G := name_group labels (name li)).
  assert (i ∈ G) as Hini by (apply elem_of_name_group; by exists li).
  assert (j ∈ G) as Hinj
    by (apply elem_of_name_group; exists lj; by rewrite <- Hdesc).
  assert (G ≠ []) as HG
    by (intros HG; rewrite HG in Hini; by apply elem_of_nil in Hini).
  destruct (shortenTabLabels_group shorten labels (name li))
    as (ls & Hframe & Hsame & Hrun); [done|].
  fold G in Hsame, Hrun. rewrite (Hrun i Hini), (Hrun j Hinj).
  assert (ls !! i = Some li) as Hli by (by rewrite Hsame).
  assert (ls !! j = Some lj) as Hlj by (by rewrite Hsame).
  destruct (decide (length G = 1%nat)) as [Hone|Hmany].
  { destruct G as [|r [|r' G']]; try done.
    apply list_elem_of_singleton in Hini as ->.
    apply list_elem_of_singleton in Hinj as ->.
    exists (Str ""). cbn. rewrite assign_lookup, Hli. simplify_eq. done. }
  assert (valid_refs ls G) as Hvalid
    by (apply name_group_valid_refs; by apply frame_length).
  destruct (shortenDuplicateTitles_in shorten ls G i li Hmany Hvalid Hini Hli)
    as (p & Hp & ->).
  destruct (shortenDuplicateTitles_in shorten ls G j lj Hmany Hvalid Hinj Hlj)
    as (q & Hq & ->).
  assert (groupKey ls G i = groupKey ls G j) as Hkey.
  { unfold groupKey. destruct (usesLong ls G).
    - by rewrite (longDescription_lookup _ _ _ Hli), (longDescription_lookup _ _ _ Hlj).
    - by rewrite (descriptionAt_lookup _ _ _ Hli), (descriptionAt_lookup _ _ _ Hlj). }
  rewrite <- Hkey in Hq.
  assert (p = q) as <-.
  { eapply NoDup_lookup; [|done..].
    apply partition_by_keys_NoDup. constructor. }
  by eexists.
Qed.
End ResolverGroups.

(** ** The path shortener: what it returns needs no more shortening *)

Lemma split_path_length s : (1 ≤ length (split_path s))%nat.
Proof.
  induction s as [|c s IH]; cbn; [lia|].
  destruct (Ascii.eqb c "/"); cbn; [lia|].
  destruct (split_path s); cbn in *; lia.
Qed.

Lemma split_path_app s1 s2 :
  split_path (s1 +:+ String "/" s2) = split_path s1 ++ split_path s2.
Proof.
  induction s1 as [|c s1 IH]; [done|].
  change (String c s1 +:+ String "/" s2) with (String c (s1 +:+ String "/" s2)).
  cbn [split_path]. rewrite IH. destruct (Ascii.eqb c "/"); [done|].
  pose proof (split_path_length s1).
  destruct (split_path s1); cbn in *; [lia|done].
Qed.

Lemma split_path_slash_free s : Forall slash_free (split_path s).
Proof.
  induction s as [|c s IH]; cbn.
  - by repeat constructor.
  - destruct (Ascii.eqb c "/") eqn:Hc.
    + by constructor.
    + pose proof (split_path_length s).
      destruct (split_path s) as [|seg segs]; cbn in *; [lia|].
      apply Forall_cons in IH as [Hseg Hsegs]. constructor; [|done].
      unfold slash_free in *. cbn. by rewrite Hc, Hseg.
Qed.

Lemma split_join segs :
  segs ≠ [] → Forall slash_free segs → split_path (join_path segs) = segs.
Proof.
  unfold join_path.
  induction segs as [|x [|y segs] IH]; intros Hne Hfree; [done|..].
  - cbn. by apply Forall_cons in Hfree as [-> _].
  - apply Forall_cons in Hfree as [Hx Hfree].
    change (String.concat "/" (x :: y :: segs))
      with (x +:+ String "/" (String.concat "/" (y :: segs))).
    rewrite split_path_app, IH by done. by rewrite Hx.
Qed.

Lemma join_split s : join_path (split_path s) = s.
Proof.
  unfold join_path. induction s as [|c s IH]; [done|].
  pose proof (split_path_length s).
  cbn [split_path]. destruct (Ascii.eqb_spec c "/") as [->|Hc].
  - destruct (split_path s) as [|seg segs] eqn:Hs; cbn in *; [lia|].
    by rewrite <- IH.
  - destruct (split_path s) as [|seg [|seg' segs]] eqn:Hs; cbn in *; [lia|..];
      by rewrite <- IH.
Qed.

Lemma ellipsis_slash_free : slash_free ellipsis.
Proof. reflexivity. Qed.

(** The segments of a shortened path. *)
Lemma split_shortened (segs : list string) :
  segs ≠ [] → Forall slash_free segs →
  split_path (ellipsis +:+ "/" +:+ join_path segs) = ellipsis :: segs.
Proof.
  intros Hne Hfree.
  change ("/" +:+ join_path segs) with (String "/" (join_path segs)).
  by rewrite split_path_app, split_join, ellipsis_slash_free.
Qed.

(** *** Trailing segments *)

Lemma length_last_segments k (segs : list string) :
  length (last_segments k segs) = (k `min` length segs)%nat.
Proof. unfold last_segments. rewrite length_drop. lia. Qed.

Lemma last_segments_suffix k (segs : list string) : last_segments k segs `suffix_of` segs.
Proof. apply suffix_drop. Qed.

Lemma last_segments_all k (segs : list string) :
  (length segs ≤ k)%nat → last_segments k segs = segs.
Proof.
  intros Hk. unfold last_segments.
  by replace (length segs - k)%nat with 0%nat by lia.
Qed.

Lemma suffix_last_segments (u segs : list string) :
  u `suffix_of` segs → last_segments (length u) segs = u.
Proof.
  intros [pre ->]. unfold last_segments. rewrite length_app.
  replace (length pre + length u - length u)%nat with (length pre) by lia.
  by rewrite drop_app_length.
Qed.

Lemma last_segments_of_suffix k (u segs : list string) :
  u `suffix_of` segs → (k ≤ length u)%nat →
  last_segments k u = last_segments k segs.
Proof.
  intros [pre ->] Hk. unfold last_segments. rewrite length_app.
  replace (length pre + length u - k)%nat with (length pre + (length u - k))%nat by lia.
  by rewrite drop_app_add.
Qed.

Lemma ends_with_suffix (suf segs : list string) :
  ends_with suf segs = true ↔ suf `suffix_of` segs.
Proof.
  unfold ends_with. rewrite andb_true_iff, Nat.leb_le, bool_decide_eq_true. split.
  - intros [_ <-]. apply last_segments_suffix.
  - intros Hsuf. split; [by apply suffix_length|by apply suffix_last_segments].
Qed.

(** *** The search for the shortest suffix *)

Lemma minimal_suffix_Some others segs k fuel k' :
  minimal_suffix others segs k fuel = Some k' →
  (k ≤ k' < k + fuel)%nat
  ∧ forallb (λ o, negb (ends_with (last_segments k' segs) o)) others = true
  ∧ ∀ k'', (k ≤ k'' < k')%nat →
      forallb (λ o, negb (ends_with (last_segments k'' segs) o)) others = false.
Proof.
  revert k. induction fuel as [|fuel IH]; intros k; cbn [minimal_suffix]; [done|].
  destruct (forallb (λ o, negb (ends_with (last_segments k segs) o)) others) eqn:Hk.
  - intros [= <-]. split; [lia|]. split; [done|]. intros; lia.
  - intros (Hle & Hok & Hmin)%IH. split; [lia|]. split; [done|].
    intros k'' Hk''. destruct (decide (k'' = k)) as [->|]; [done|]. apply Hmin. lia.
Qed.

Lemma minimal_suffix_None others segs k fuel :
  minimal_suffix others segs k fuel = None →
  ∀ k'', (k ≤ k'' < k + fuel)%nat →
    forallb (λ o, negb (ends_with (last_segments k'' segs) o)) others = false.
Proof.
  revert k. induction fuel as [|fuel IH]; intros k; cbn [minimal_suffix]; [lia|].
  destruct (forallb (λ o, negb (ends_with (last_segments k segs) o)) others) eqn:Hk;
    [done|].
  intros Hnone k'' Hk''. destruct (decide (k'' = k)) as [->|]; [done|].
  apply (IH _ Hnone). lia.
Qed.

Lemma elem_of_other_paths i (paths : list jsstring) o :
  o ∈ other_paths i paths ↔
  ∃ j t, j ≠ i ∧ paths !! j = Some (Str t) ∧ o = split_path t.
Proof.
  unfold other_paths. rewrite list_elem_of_omap. split.
  - intros ([j p] & (j' & p' & [= -> ->] & Hp)%elem_of_lookup_imap & Ho). cbn in Ho.
    destruct p' as [t| |]; try done. case_decide; [done|].
    injection Ho as <-. by exists j', t.
  - intros (j & t & Hj & Ht & ->). exists (j, Str t). split.
    + by apply (elem_of_lookup_imap_2 pair).
    + cbn. by rewrite decide_False.
Qed.

(** The test of the search, on a list without repetitions. *)
Lemma unique_suffix_true i (paths : list jsstring) s u :
  paths !! i = Some (Str s) →
  forallb (λ o, negb (ends_with u o)) (other_paths i paths) = true →
  ¬ clashes paths s u.
Proof.
  intros Hi Hall (t & [j Hj]%list_elem_of_lookup & Hne & Hsuf).
  rewrite forallb_forall in Hall.
  specialize (Hall (split_path t)). rewrite negb_true_iff in Hall.
  apply ends_with_suffix in Hsuf. rewrite Hall in Hsuf; [done|].
  apply list_elem_of_In, elem_of_other_paths. exists j, t. split_and!; [|done..].
  intros ->. congruence.
Qed.

Lemma unique_suffix_false i (paths : list jsstring) s u :
  NoDup paths →
  paths !! i = Some (Str s) →
  forallb (λ o, negb (ends_with u o)) (other_paths i paths) = false →
  clashes paths s u.
Proof.
  intros Hnd Hi Hall.
  assert (∃ o, o ∈ other_paths i paths ∧ ends_with u o = true) as (o & Ho & Hends).
  { induction (other_paths i paths) as [|o os IH]; [done|]. cbn in Hall.
    destruct (ends_with u o) eqn:Ho; cbn in Hall.
    - exists o. split; [left|done].
    - destruct (IH Hall) as (o' & Ho' & Hends). exists o'. split; [by right|done]. }
  apply elem_of_other_paths in Ho as (j & t & Hj & Ht & ->).
  exists t. split_and!.
  - by eapply list_elem_of_lookup_2.
  - intros ->. apply Hj. by eapply NoDup_lookup.
  - by apply ends_with_suffix.
Qed.

(** *** What the shortener returns *)

Lemma length_shorten (paths : list jsstring) : length (shorten paths) = length paths.
Proof. apply length_imap. Qed.

Lemma shorten_lookup_other (paths : list jsstring) i p :
  paths !! i = Some p → isString p = false → shorten paths !! i = Some p.
Proof.
  intros Hi Hp. unfold shorten. rewrite list_lookup_imap, Hi. cbn.
  by destruct p.
Qed.

Lemma shorten_lookup_Str (paths : list jsstring) i s :
  NoDup paths →
  paths !! i = Some (Str s) →
  ∃ s', shorten paths !! i = Some (Str s') ∧ shortened paths s s'.
Proof.
  intros Hnd Hi. unfold shorten. rewrite list_lookup_imap, Hi.
  cbn -[Nat.ltb minimal_suffix].
  destruct (minimal_suffix _ _ _ _) as [k|] eqn:Hmin.
  - apply minimal_suffix_Some in Hmin as (Hk & Hok & Hleast).
    destruct (Nat.ltb_spec k (length (split_path s))) as [Hlt|Hge].
    + eexists. split; [done|]. apply shortened_suffix; [lia| |].
      * by eapply unique_suffix_true.
      * intros k' Hk'. eapply unique_suffix_false; [done..|]. apply Hleast. lia.
    + eexists. split; [done|]. apply shortened_whole.
      intros k' Hk'. eapply unique_suffix_false; [done..|]. apply Hleast. lia.
  - eexists. split; [done|]. apply shortened_whole.
    intros k' Hk'. eapply unique_suffix_false; [done..|].
    eapply minimal_suffix_None; [done|]. lia.
Qed.

Lemma shorten_lookup_inv (paths : list jsstring) i s' :
  NoDup paths →
  shorten paths !! i = Some (Str s') →
  ∃ s, paths !! i = Some (Str s) ∧ shortened paths s s'.
Proof.
  intros Hnd Hi.
  destruct (paths !! i) as [p|] eqn:Hp.
  - destruct p as [s| |].
    + destruct (shorten_lookup_Str paths i s Hnd Hp) as (s'' & Hs'' & Hshort).
      exists s. split; [done|]. congruence.
    + rewrite (shorten_lookup_other paths i Null) in Hi by done. done.
    + rewrite (shorten_lookup_other paths i Undefined) in Hi by done. done.
  - apply lookup_ge_None in Hp. apply lookup_lt_Some in Hi.
    rewrite length_shorten in Hi. lia.
Qed.

(** The segments of what the shortener returns. *)
Lemma shortened_segments (paths : list jsstring) s s' :
  shortened paths s s' →
  split_path s' = split_path s
  ∨ ∃ k, (1 ≤ k < length (split_path s))%nat
         ∧ split_path s' = ellipsis :: last_segments k (split_path s)
         ∧ ¬ clashes paths s (last_segments k (split_path s)).
Proof.
  intros [Hall|k Hk Hok Hleast]; [by left|right].
  exists k. split; [done|]. split; [|done].
  apply split_shortened.
  - intros Hnil. apply (f_equal length) in Hnil.
    rewrite length_last_segments in Hnil. cbn in Hnil. lia.
  - apply Forall_drop, split_path_slash_free.
Qed.

(** A suffix that a string shares with another string survives the
    shortening. *)
Lemma shortened_keeps (paths : list jsstring) s s' u :
  shortened paths s s' →
  u `suffix_of` split_path s →
  clashes paths s u →
  u `suffix_of` split_path s'.
Proof.
  intros [Hsame|(k & Hk & -> & Hok)]%shortened_segments Hu Hclash.
  - by rewrite Hsame.
  - apply suffix_cons_r.
    destruct (suffix_weak_total u (last_segments k (split_path s)) (split_path s))
      as [Hsuf|Hsuf]; [done|apply last_segments_suffix|done|].
    exfalso. apply Hok. destruct Hclash as (t & Ht & Hne & Hut).
    exists t. split_and!; [done..|]. by etrans.
Qed.

Lemma shortened_blank (paths : list jsstring) s s' :
  shortened paths s s' → s' = "" ↔ s = "".
Proof.
  intros [Hall|k Hk Hok Hleast]; [done|]. split.
  - done.
  - intros ->. cbn in Hk. lia.
Qed.

Lemma split_path_shortened s k :
  (1 ≤ k)%nat →
  split_path (ellipsis +:+ "/" +:+ join_path (last_segments k (split_path s)))
  = ellipsis :: last_segments k (split_path s).
Proof.
  intros Hk. apply split_shortened.
  - intros Hnil. apply (f_equal length) in Hnil.
    rewrite length_last_segments in Hnil. pose proof (split_path_length s).
    cbn in Hnil. lia.
  - apply Forall_drop, split_path_slash_free.
Qed.

Lemma shorten_lookup_isString (paths : list jsstring) i p :
  NoDup paths →
  paths !! i = Some p →
  ∃ p', shorten paths !! i = Some p'
        ∧ isString p' = isString p
        ∧ (isString p = false → p' = p).
Proof.
  intros Hnd Hp. destruct (isString p) eqn:Hs.
  - destruct p as [s| |]; try done.
    destruct (shorten_lookup_Str paths i s Hnd Hp) as (s' & Hs' & _).
    by exists (Str s').
  - exists p. split_and!; [|done..]. by apply shorten_lookup_other.
Qed.

(** Different strings are shortened to different strings. *)
Lemma shorten_NoDup (paths : list jsstring) : NoDup paths → NoDup (shorten paths).
Proof.
  intros Hnd. apply NoDup_alt. intros i j x Hi Hj.
  destruct (decide (i = j)) as [|Hne]; [done|exfalso].
  destruct (lookup_lt_is_Some_2 paths i) as [p Hp];
    [rewrite <- (length_shorten paths); by eapply lookup_lt_Some|].
  destruct (lookup_lt_is_Some_2 paths j) as [q Hq];
    [rewrite <- (length_shorten paths); by eapply lookup_lt_Some|].
  assert (p ≠ q) as Hpq by (intros ->; apply Hne; by eapply NoDup_lookup).
  destruct (shorten_lookup_isString paths i p Hnd Hp) as (p' & Hp' & Hsp & Hkeep).
  destruct (shorten_lookup_isString paths j q Hnd Hq) as (q' & Hq' & Hsq & Hkeep').
  assert (p' = x) as -> by congruence. assert (q' = x) as -> by congruence.
  destruct (isString p) eqn:Hstr.
  - destruct p as [s| |], q as [t| |]; try done; try (rewrite Hsp in Hsq; done).
    destruct (shorten_lookup_Str paths i s Hnd Hp) as (s' & Hs' & Hshort).
    destruct (shorten_lookup_Str paths j t Hnd Hq) as (t' & Ht' & Hshort').
    assert (s' = t') as <- by congruence.
    assert (s ≠ t) as Hst by congruence.
    assert (Str s ∈ paths) as Hsin by (by eapply list_elem_of_lookup_2).
    assert (Str t ∈ paths) as Htin by (by eapply list_elem_of_lookup_2).
    apply shortened_segments in Hshort as [Hs|(k & Hk & Hs & Hok)];
      apply shortened_segments in Hshort' as [Ht|(k' & Hk' & Ht & Hok')].
    + apply Hst. rewrite <- (join_split s), <- (join_split t). congruence.
    + apply Hok'. exists s. split_and!; [done..|].
      rewrite <- Hs, Ht. apply suffix_cons_r. done.
    + apply Hok. exists t. split_and!; [done|done|].
      rewrite <- Ht, Hs. apply suffix_cons_r. done.
    + apply Hok. exists t. split_and!; [done|done|].
      assert (last_segments k (split_path s) = last_segments k' (split_path t)) as ->
        by congruence.
      apply last_segments_suffix.
  - rewrite Hsp in Hsq. apply Hpq. rewrite <- (Hkeep eq_refl). by apply Hkeep'.
Qed.

(** What the shortener returns needs no more shortening. *)
Lemma settled_shorten (paths : list jsstring) : NoDup paths → settled (shorten paths).
Proof.
  intros Hnd s' k [i Hi]%list_elem_of_lookup Hk Hok.
  destruct (shorten_lookup_inv paths i s' Hnd Hi) as (s & Hs & Hshort).
  assert (∀ u, u `suffix_of` split_path s → clashes paths s u →
               clashes (shorten paths) s' u) as Htransfer.
  { intros u Hu (t & [j Hj]%list_elem_of_lookup & Hne & Hut).
    destruct (shorten_lookup_Str paths j t Hnd Hj) as (t' & Ht' & Hshort').
    exists t'. split_and!.
    - by eapply list_elem_of_lookup_2.
    - intros ->. apply Hne.
      assert (i = j) as -> by (eapply NoDup_lookup; [by apply shorten_NoDup|done..]).
      congruence.
    - eapply shortened_keeps; [done..|].
      exists s. split_and!; [by eapply list_elem_of_lookup_2|congruence|done]. }
  destruct Hshort as [Hall|k0 Hk0 Hok0 Hleast].
  - exfalso. apply Hok, Htransfer; [apply last_segments_suffix|by apply Hall].
  - rewrite split_path_shortened in Hk, Hok by lia.
    rewrite split_path_shortened by lia.
    set (segs := split_path s) in *. set (w := last_segments k0 segs) in *.
    assert (length w = k0) as Hw by (unfold w; rewrite length_last_segments; lia).
    cbn [length] in Hk. rewrite Hw in Hk.
    assert (last_segments k (ellipsis :: w) = last_segments k segs) as Hlast.
    { rewrite <- (last_segments_of_suffix k w (ellipsis :: w));
        [|by apply suffix_cons_r|lia].
      apply last_segments_of_suffix; [apply last_segments_suffix|lia]. }
    destruct (decide (k = k0)) as [->|Hne].
    + by rewrite Hlast.
    + exfalso. apply Hok. rewrite Hlast.
      apply Htransfer; [apply last_segments_suffix|]. apply Hleast. lia.
Qed.

(** The shortener leaves alone a list that needs no shortening. *)
Lemma shorten_settled (paths : list jsstring) :
  NoDup paths → settled paths → shorten paths = paths.
Proof.
  intros Hnd Hset. apply list_eq. intros i.
  destruct (paths !! i) as [p|] eqn:Hp.
  - destruct p as [s| |]; [|by apply shorten_lookup_other..].
    destruct (shorten_lookup_Str paths i s Hnd Hp) as (s' & -> & Hshort). do 2 f_equal.
    destruct Hshort as [Hall|k Hk Hok Hleast]; [done|].
    pose proof (Hset s k (list_elem_of_lookup_2 _ _ _ Hp) Hk Hok) as Hsplit.
    pose proof (join_split s) as Hjoin. rewrite Hsplit in Hjoin.
    rewrite <- Hjoin at 2.
    pose proof (length_last_segments k (split_path s)) as Hlen.
    by destruct (last_segments k (split_path s)) as [|x xs]; [cbn in Hlen; lia|].
  - apply lookup_ge_None. rewrite length_shorten. by apply lookup_ge_None.
Qed.

(** A list that needs no shortening still needs none with the empty
    string added. *)
Lemma settled_mono (X K : list jsstring) :
  settled X →
  (∀ x, x ∈ X → x ∈ K) →
  (∀ s, Str s ∈ K → Str s ∈ X ∨ s = "") →
  settled K.
Proof.
  intros HX Hsub Hrest s k Hs Hk Hok.
  destruct (Hrest s Hs) as [HsX| ->]; [|cbn in Hk; lia].
  apply HX; [done..|]. intros (t & Ht & Hne & Hsuf).
  apply Hok. exists t. split_and!; [by apply Hsub|done..].
Qed.

(** ** Name-groups with pairwise distinct descriptions *)

Section DistinctGroups.
Variable shorten : list jsstring → list jsstring.
Implicit Types (labels : list AugmentedLabel) (label : AugmentedLabel).

(** A name-group with pairwise distinct descriptions: slot [p] of the
    group gets the [p]-th shortened description, or the empty string when
    the group has one label. *)
Lemma shortenTabLabels_distinct labels n p i label :
  NoDup (descriptionAt labels <$> name_group labels n) →
  name_group labels n !! p = Some i →
  labels !! i = Some label →
  shortenTabLabels shorten labels !! i
  = Some (set_description
            (finalValue shorten (descriptionAt labels <$> name_group labels n) p) label).
Proof.
  set (G := name_group labels n). intros Hnd Hp Hi.
  assert (i ∈ G) as Hin by (by eapply list_elem_of_lookup_2).
  assert (G ≠ []) as HG
    by (intros HG; rewrite HG in Hin; by apply elem_of_nil in Hin).
  destruct (shortenTabLabels_group shorten labels n)
    as (ls & Hframe & Hsame & Hrun); [done|].
  fold G in Hsame, Hrun. rewrite (Hrun i Hin).
  assert (ls !! i = Some label) as Hli by (by rewrite Hsame).
  assert (descriptionAt ls <$> G = descriptionAt labels <$> G) as Hds.
  { apply list_fmap_ext. intros k r Hr%list_elem_of_lookup_2.
    unfold descriptionAt. by rewrite Hsame. }
  rewrite <- Hds in *.
  destruct (decide (length G = 1%nat)) as [Hone|Hmany].
  { destruct G as [|r [|r' G']]; try done.
    apply list_elem_of_singleton in Hin as ->.
    cbn. by rewrite assign_lookup, Hli. }
  assert (valid_refs ls G) as Hvalid
    by (apply name_group_valid_refs; by apply frame_length).
  assert (partition_by (descriptionAt ls) G []
          = (λ r, (descriptionAt ls r, [r])) <$> G) as Hpart.
  { rewrite partition_by_distinct; [done|done|].
    intros r _. apply not_elem_of_nil. }
  assert (usesLong ls G = false) as Huses.
  { unfold usesLong. rewrite Hpart. apply checkLongDescriptions_small.
    intros e (r & -> & _)%list_elem_of_fmap. done. }
  assert (groupKeys ls G = descriptionAt ls <$> G) as Hkeys.
  { unfold groupKeys, groupKey. rewrite Huses, Hpart.
    by rewrite <- list_fmap_compose. }
  destruct (shortenDuplicateTitles_in shorten ls G i label Hmany Hvalid Hin Hli)
    as (q & Hq & ->).
  rewrite Hkeys in *.
  assert (q = p) as ->; [|done].
  eapply NoDup_lookup; [exact Hnd|exact Hq|].
  unfold groupKey. rewrite Huses, list_lookup_fmap, Hp. done.
Qed.
End DistinctGroups.

(** *** The check of the long descriptions *)

Lemma checkLongDescriptions_true (ls : Labels) (m : JSMap jsstring nat) :
  foldl (λ useLongDescriptions entry,
           if negb useLongDescriptions && (1 <? length entry.2)%nat
           then longDescriptionsDiffer ls entry.2
           else useLongDescriptions) true m = true.
Proof. by induction m. Qed.

Lemma checkLongDescriptions_same (ls : Labels) (m : JSMap jsstring nat) :
  (∀ entry r r', entry ∈ m → r ∈ entry.2 → r' ∈ entry.2 →
                 longDescription ls r = longDescription ls r') →
  checkLongDescriptions ls m = false.
Proof.
  unfold checkLongDescriptions.
  induction m as [|entry m IH]; intros Hsame; [done|].
  cbn [foldl negb andb].
  rewrite (longDescriptionsDiffer_same ls entry.2)
    by (intros; eapply Hsame; [left|done..]).
  assert ((if (1 <? length entry.2)%nat then false else false) = false) as ->
    by (by destruct (1 <? length entry.2)%nat).
  apply IH. intros entry' r r' Hin. apply Hsame. by right.
Qed.

Lemma longDescriptionsDiffer_differ (ls : Labels) (rs : list nat) a b :
  a ∈ rs → b ∈ rs →
  longDescription ls a ≠ longDescription ls b →
  longDescriptionsDiffer ls rs = true.
Proof.
  intros Ha Hb Hne. unfold longDescriptionsDiffer.
  destruct rs as [|first rest]; [by apply elem_of_nil in Ha|]. cbn.
  assert (∃ c, c ∈ rest ∧ longDescription ls c ≠ longDescription ls first)
    as (c & Hc & Hdiff).
  { destruct (decide (longDescription ls a = longDescription ls first)) as [Heq|Hna].
    - exists b. apply elem_of_cons in Hb as [->|Hb]; [congruence|].
      split; [done|congruence].
    - exists a. apply elem_of_cons in Ha as [->|Ha]; [done|]. done. }
  apply existsb_exists. exists (longDescription ls c). split.
  - apply list_elem_of_In, list_elem_of_fmap. by exists c.
  - by rewrite bool_decide_eq_false_2.
Qed.

Lemma checkLongDescriptions_differ (ls : Labels) (m : JSMap jsstring nat) k rs :
  (k, rs) ∈ m →
  (∀ entry, entry ∈ m → entry ≠ (k, rs) → (length entry.2 ≤ 1)%nat) →
  (1 < length rs)%nat →
  longDescriptionsDiffer ls rs = true →
  checkLongDescriptions ls m = true.
Proof.
  unfold checkLongDescriptions.
  induction m as [|entry m IH]; intros Hin Hsmall Hlen Hdiff.
  - by apply elem_of_nil in Hin.
  - cbn [foldl negb andb].
    destruct (decide (entry = (k, rs))) as [->|Hne].
    + cbn [snd]. destruct (Nat.ltb_spec 1 (length rs)); [|lia].
      rewrite Hdiff. apply checkLongDescriptions_true.
    + assert (length entry.2 ≤ 1)%nat as Hentry by (apply Hsmall; [left|done]).
      destruct (Nat.ltb_spec 1 (length entry.2)); [lia|].
      apply IH; [|intros; apply Hsmall; [by right|done]|done..].
      apply elem_of_cons in Hin as [Heq|Hin]; [congruence|done].
Qed.

(** Entries of a partition hold slots of the group filed under the key. *)
Lemma partition_by_elem_of {K : Type} `{EqDecision K} (key : nat → K) (G : list nat)
    (entry : K * list nat) r :
  entry ∈ partition_by key G [] → r ∈ entry.2 → key r = entry.1 ∧ r ∈ G.
Proof.
  intros Hin Hr. destruct entry as [k rs].
  apply elem_of_map_get in Hin; [|apply partition_by_keys_NoDup; constructor].
  by eapply partition_by_entry.
Qed.

Lemma partition_by_entry_NoDup {K : Type} `{EqDecision K} (key : nat → K) (G : list nat)
    (entry : K * list nat) :
  NoDup G → entry ∈ partition_by key G [] → NoDup entry.2.
Proof.
  intros Hnd Hin. destruct entry as [k rs].
  apply elem_of_map_get in Hin; [|apply partition_by_keys_NoDup; constructor].
  rewrite partition_by_get_nil in Hin. case_decide; [done|].
  injection Hin as <-. by apply NoDup_filter.
Qed.

(** The keys of a partition are the keys of the slots of the group. *)
Lemma partition_by_keys {K : Type} `{EqDecision K} (key : nat → K) (G : list nat) k :
  k ∈ (partition_by key G []).*1 ↔ ∃ r, r ∈ G ∧ key r = k.
Proof.
  split.
  - intros Hk. destruct (map_get (partition_by key G []) k) as [rs|] eqn:Hget.
    + rewrite partition_by_get_nil in Hget. case_decide as Hnil; [done|].
      destruct (filter (λ r, key r = k) G) as [|r rs'] eqn:Hf; [done|].
      assert (r ∈ filter (λ r, key r = k) G) as Hr by (rewrite Hf; left).
      apply list_elem_of_filter in Hr as [? ?]. by exists r.
    + by apply map_get_None in Hget.
  - intros (r & Hr & <-). destruct (partition_by_member key G r Hr) as (rs & Hget & _).
    destruct (decide (key r ∈ (partition_by key G []).*1)) as [|Hnin]; [done|].
    apply map_get_None in Hnin. congruence.
Qed.

(** A list without repetitions whose elements are all equal has at most
    one element. *)
Lemma NoDup_all_equal {A : Type} (l : list A) :
  NoDup l → (∀ x y, x ∈ l → y ∈ l → x = y) → (length l ≤ 1)%nat.
Proof.
  intros Hnd Heq. destruct l as [|x [|y l]]; cbn; [lia..|].
  exfalso. apply NoDup_cons in Hnd as [Hx _]. apply Hx.
  rewrite (Heq x y); [left|left|right; left].
Qed.

(** ** Running the resolver twice *)

Lemma two_elements {A : Type} (l : list A) a b :
  a ∈ l → b ∈ l → a ≠ b → (1 < length l)%nat.
Proof.
  intros Ha Hb Hne. destruct l as [|x [|y l]]; cbn; [|exfalso|lia].
  - by apply elem_of_nil in Ha.
  - apply list_elem_of_singleton in Ha, Hb. congruence.
Qed.

Lemma another_element {A : Type} `{EqDecision A} (l : list A) a :
  NoDup l → (1 < length l)%nat → ∃ b, b ∈ l ∧ b ≠ a.
Proof.
  intros Hnd Hlen. destruct l as [|x [|y l]]; cbn in Hlen; [lia..|].
  apply NoDup_cons in Hnd as [Hx _].
  destruct (decide (x = a)) as [->|Hxa].
  - exists y. split; [right; left|]. intros ->. apply Hx. left.
  - exists x. split; [left|done].
Qed.

Section TwoRuns.
Variable labels : list AugmentedLabel.
Hypothesis distinct : distinct_within_names labels.

Local Abbreviation out := (shortenTabLabels shorten labels).
Local Abbreviation group n := (name_group labels n).
Local Abbreviation sources n := (descriptionAt labels <$> name_group labels n).

Lemma sources_NoDup n : NoDup (sources n).
Proof.
  apply NoDup_alt. intros a b d Ha Hb.
  rewrite list_lookup_fmap in Ha, Hb.
  destruct (group n !! a) as [r|] eqn:Hr; [|done].
  destruct (group n !! b) as [r'|] eqn:Hr'; [|done].
  cbn in Ha, Hb.
  pose proof (list_elem_of_lookup_2 _ _ _ Hr) as (l & Hl & _ & Hn)%elem_of_name_group.
  pose proof (list_elem_of_lookup_2 _ _ _ Hr') as (l' & Hl' & _ & Hn')%elem_of_name_group.
  rewrite (descriptionAt_lookup _ _ _ Hl) in Ha.
  rewrite (descriptionAt_lookup _ _ _ Hl') in Hb.
  destruct (decide (r = r')) as [<-|Hne].
  - eapply NoDup_lookup; [|done..]. apply NoDup_filter, NoDup_seq.
  - exfalso. apply (distinct r r' l l'); congruence.
Qed.

Lemma group_NoDup n : NoDup (group n).
Proof. apply NoDup_filter, NoDup_seq. Qed.

Lemma length_out : length out = length labels.
Proof. apply frame_length, shortenTabLabels_frame. Qed.

(** The first run on a name-group of several labels: slot [p] of the group
    gets the [p]-th shortened description. *)
Lemma out_many n p r l s :
  group n !! p = Some r →
  labels !! r = Some l →
  description l = Str s →
  length (group n) ≠ 1%nat →
  ∃ s', shorten (sources n) !! p = Some (Str s')
        ∧ shortened (sources n) s s'
        ∧ out !! r = Some (set_description (Str s') l).
Proof.
  intros Hp Hl Hs Hmany.
  assert (sources n !! p = Some (Str s)) as Hsrc.
  { rewrite list_lookup_fmap, Hp. cbn. by rewrite (descriptionAt_lookup _ _ _ Hl), Hs. }
  destruct (shorten_lookup_Str (sources n) p s (sources_NoDup n) Hsrc)
    as (s' & Hs' & Hshort).
  exists s'. split_and!; [done..|].
  rewrite (shortenTabLabels_distinct shorten labels n p r l (sources_NoDup n) Hp Hl).
  rewrite finalValue_many by (by rewrite length_fmap). by rewrite Hs'.
Qed.

(** The first run, label by label: a label for which there is nothing to
    shorten ends with an empty description, any other label with the
    shortened description of its slot in its name-group, which is not
    empty. *)
Lemma out_cases r l :
  labels !! r = Some l →
  (nothing_to_shorten labels r l ∧ out !! r = Some (set_description (Str "") l))
  ∨ (¬ nothing_to_shorten labels r l
     ∧ ∃ p s', s' ≠ ""
               ∧ group (name l) !! p = Some r
               ∧ length (group (name l)) ≠ 1%nat
               ∧ shorten (sources (name l)) !! p = Some (Str s')
               ∧ out !! r = Some (set_description (Str s') l)).
Proof.
  intros Hl. destruct (description l) as [s| |] eqn:Hs.
  2,3: left; split;
    [left; intros s Hs'; congruence
    |apply shortenTabLabels_invalid; [done|by rewrite Hs]].
  assert (r ∈ group (name l)) as Hin
    by (apply elem_of_name_group; exists l; by rewrite Hs).
  pose proof Hin as [p Hp]%list_elem_of_lookup.
  destruct (decide (length (group (name l)) = 1%nat)) as [Hone|Hmany].
  - left. split.
    + right. intros j lj Hj Hn Hstr.
      assert (j ∈ group (name l)) as Hjin by (apply elem_of_name_group; by exists lj).
      destruct (group (name l)) as [|r0 [|r1 G]]; try done.
      apply list_elem_of_singleton in Hin, Hjin. congruence.
    + rewrite (shortenTabLabels_distinct shorten labels (name l) p r l
                 (sources_NoDup _) Hp Hl).
      unfold finalValue.
      assert (length (sources (name l)) = 1%nat) as Hlen by (by rewrite length_fmap).
      by destruct (sources (name l)) as [|d [|d' ds]].
  - destruct (out_many (name l) p r l s Hp Hl Hs Hmany) as (s' & Hs' & Hshort & Hout).
    pose proof (shortened_blank _ _ _ Hshort) as Hblank.
    destruct (decide (s = "")) as [->|Hne].
    + left. split.
      * left. intros s0 Hs0. congruence.
      * by rewrite Hout, (proj2 Hblank).
    + right. split.
      * intros [Hempty|Halone]; [by apply Hne, Hempty|].
        destruct (another_element (group (name l)) r) as (j & Hj & Hjr).
        { apply group_NoDup. }
        { pose proof (lookup_lt_Some _ _ _ Hp). lia. }
        apply elem_of_name_group in Hj as (lj & Hlj & Hstr & Hn).
        apply Hjr. by eapply Halone.
      * exists p, s'. split_and!; [|done..]. intros Hs'0. by apply Hne, Hblank.
Qed.

(** Every label leaves the first run with a string for its description. *)
Lemma out_lookup r l :
  labels !! r = Some l → ∃ s, out !! r = Some (set_description (Str s) l).
Proof.
  intros [[_ Hout]|(_ & p & s' & _ & _ & _ & _ & Hout)]%out_cases; by eexists.
Qed.

Lemma out_blank r l :
  labels !! r = Some l →
  descriptionAt out r = Str "" ↔ nothing_to_shorten labels r l.
Proof.
  intros [[Hnothing Hout]|(Hsome & p & s' & Hs' & _ & _ & _ & Hout)]%out_cases;
    rewrite (descriptionAt_lookup _ _ _ Hout); cbn.
  - done.
  - split; [|done]. intros [= ->]. done.
Qed.

(** Two labels of one name that leave the first run with the same
    description leave it with the empty description. *)
Lemma out_collision r r' l l' :
  r ≠ r' →
  labels !! r = Some l →
  labels !! r' = Some l' →
  name l = name l' →
  descriptionAt out r = descriptionAt out r' →
  nothing_to_shorten labels r l ∧ nothing_to_shorten labels r' l'.
Proof.
  intros Hne Hl Hl' Hn Heq.
  destruct (out_cases r l Hl)
    as [[Hnothing Hout]|(_ & p & s & Hs & Hp & _ & Hshort & Hout)];
  destruct (out_cases r' l' Hl')
    as [[Hnothing' Hout']|(_ & p' & s' & Hs' & Hp' & _ & Hshort' & Hout')];
  rewrite (descriptionAt_lookup _ _ _ Hout), (descriptionAt_lookup _ _ _ Hout') in Heq;
  cbn in Heq; simplify_eq; try done.
  exfalso. apply Hne. rewrite <- Hn in Hp', Hshort'.
  assert (p = p') as <-
    by (eapply NoDup_lookup; [apply shorten_NoDup, sources_NoDup|done..]).
  congruence.
Qed.

(** On the second run all labels of one name form one name-group. *)
Lemma elem_of_out_group n r :
  r ∈ name_group out n ↔ ∃ l, labels !! r = Some l ∧ name l = n.
Proof.
  rewrite elem_of_name_group. split.
  - intros (o & Ho & _ & Hn).
    destruct (labels !! r) as [l|] eqn:Hl.
    + destruct (out_lookup r l Hl) as [s Hout]. exists l. split; [done|].
      rewrite Hout in Ho. by simplify_eq.
    + apply lookup_ge_None in Hl. apply lookup_lt_Some in Ho.
      rewrite length_out in Ho. lia.
  - intros (l & Hl & Hn). destruct (out_lookup r l Hl) as [s Hout].
    eexists. split_and!; [done..].
Qed.

(** When the labels of one name for which there is nothing to shorten have
    one long description, the second run leaves every label as the first
    run left it: it does not switch to long descriptions, and the
    descriptions it finds need no more shortening. *)
Lemma second_run_same r :
  unshortened_share_long labels →
  shortenTabLabels shorten out !! r = out !! r.
Proof.
  intros Hshare.
  destruct (labels !! r) as [l|] eqn:Hl.
  2:{ apply lookup_ge_None in Hl.
      rewrite (proj2 (lookup_ge_None out r)) by (rewrite length_out; lia).
      apply lookup_ge_None.
      rewrite (frame_length out) by apply shortenTabLabels_frame.
      rewrite length_out. lia. }
  set (n := name l). set (G := name_group out n).
  destruct (out_lookup r l Hl) as [v Hout].
  assert (r ∈ G) as Hin by (apply elem_of_out_group; by exists l).
  assert (NoDup G) as HG by apply NoDup_filter, NoDup_seq.
  destruct (shortenTabLabels_group shorten out n)
    as (ls & Hframe & Hsame & Hrun).
  { fold G. intros HG0. rewrite HG0 in Hin. by apply elem_of_nil in Hin. }
  fold G in Hsame, Hrun. rewrite (Hrun r Hin).
  assert (ls !! r = Some (set_description (Str v) l)) as Hls by (by rewrite Hsame).
  assert (descriptionAt out r = Str v) as Hv
    by (by rewrite (descriptionAt_lookup _ _ _ Hout)).
  (* it is enough that the second run assigns the description [v] *)
  assert (∀ d, d = Str v →
               Some (set_description d (set_description (Str v) l)) = out !! r) as Hdone.
  { intros d ->. by rewrite Hout, set_description_twice. }
  destruct (decide (length G = 1%nat)) as [Hone|Hmany].
  { destruct G as [|r0 [|r1 G0]] eqn:HG0; try done.
    apply list_elem_of_singleton in Hin as <-.
    cbn. rewrite assign_lookup, Hls. cbn. apply Hdone.
    rewrite <- Hv. symmetry. apply (out_blank r l Hl).
    right. intros j lj Hj Hn _.
    assert (j ∈ name_group out n) as Hjin by (apply elem_of_out_group; by exists lj).
    fold G in Hjin. rewrite HG0 in Hjin. by apply list_elem_of_singleton in Hjin. }
  assert (valid_refs ls G) as Hvalid.
  { apply name_group_valid_refs. by apply frame_length. }
  destruct (shortenDuplicateTitles_in shorten ls G r _ Hmany Hvalid Hin Hls)
    as (p & Hp & ->).
  apply Hdone.
  assert (∀ j, j ∈ G → descriptionAt ls j = descriptionAt out j) as Hdesc.
  { intros j Hj. unfold descriptionAt. by rewrite Hsame. }
  assert (∀ j, longDescription ls j = longDescription labels j) as Hlong.
  { intros j. apply frame_longDescription.
    by rewrite Hframe, shortenTabLabels_frame. }
  assert (∀ a b, a ∈ G → b ∈ G → a ≠ b →
                 descriptionAt out a = descriptionAt out b →
                 descriptionAt out a = Str ""
                 ∧ longDescription labels a = longDescription labels b) as Hcollide.
  { intros a b (la & Hla & Hna)%elem_of_out_group (lb & Hlb & Hnb)%elem_of_out_group
      Hab Heq.
    destruct (out_collision a b la lb) as [Ha Hb]; [done..|congruence|done|].
    split; [by apply (out_blank a la)|].
    rewrite (longDescription_lookup _ _ _ Hla), (longDescription_lookup _ _ _ Hlb).
    apply (Hshare a b); [done|done|congruence|done|done]. }
  assert (usesLong ls G = false) as Huses.
  { unfold usesLong. apply checkLongDescriptions_same.
    intros entry a b Hentry Ha Hb.
    destruct (partition_by_elem_of _ _ _ _ Hentry Ha) as [Hka HaG].
    destruct (partition_by_elem_of _ _ _ _ Hentry Hb) as [Hkb HbG].
    destruct (decide (a = b)) as [->|Hab]; [done|].
    rewrite !Hlong. apply Hcollide; [done..|].
    rewrite <- !Hdesc by done. congruence. }
  assert (groupKeys ls G = (partition_by (descriptionAt ls) G []).*1) as HK
    by (unfold groupKeys, groupKey; by rewrite Huses).
  unfold groupKey in Hp. rewrite Huses, Hdesc, Hv in Hp by done.
  set (K := groupKeys ls G) in *.
  assert (NoDup K) as HKnd.
  { rewrite HK. apply partition_by_keys_NoDup. constructor. }
  assert (∀ x, x ∈ K ↔ ∃ j, j ∈ G ∧ descriptionAt out j = x) as HKin.
  { intros x. rewrite HK, partition_by_keys. split.
    - intros (j & Hj & <-). exists j. by rewrite Hdesc.
    - intros (j & Hj & <-). exists j. by rewrite Hdesc. }
  destruct (decide (length K = 1%nat)) as [HKone|HKmany].
  - (* one description is left: it is the empty one *)
    assert (finalValue shorten K p = Str "") as ->
      by (unfold finalValue; by destruct K as [|k0 [|k1 K0]]).
    destruct (another_element G r HG) as (r' & Hr' & Hne).
    { pose proof (two_elements G). destruct G as [|r0 [|r1 G0]]; cbn in *; try done; lia. }
    assert (descriptionAt out r' = descriptionAt out r) as Heq.
    { assert (descriptionAt out r' ∈ K) as Hk' by (apply HKin; by exists r').
      assert (descriptionAt out r ∈ K) as Hk by (apply HKin; by exists r).
      destruct K as [|k0 [|k1 K0]]; try done.
      apply list_elem_of_singleton in Hk, Hk'. congruence. }
    rewrite <- Hv. symmetry. apply (Hcollide r r'); [done..|congruence|done].
  - (* several descriptions are left: none of them needs shortening *)
    rewrite finalValue_many by done.
    rewrite shorten_settled, Hp; [done|done|].
    destruct (decide (length (group n) = 1%nat ∨ group n = [])) as [Hsmall|Hlarge].
    + apply (settled_mono []).
      * intros s k Hs. by apply elem_of_nil in Hs.
      * intros x Hx. by apply elem_of_nil in Hx.
      * intros s (j & (lj & Hlj & Hnj)%elem_of_out_group & Hs)%HKin. right.
        destruct (out_cases j lj Hlj)
          as [[_ Hj]|(_ & q & s' & _ & Hq & Hmany' & _)].
        -- rewrite (descriptionAt_lookup _ _ _ Hj) in Hs. by simplify_eq/=.
        -- exfalso. fold n in Hnj. rewrite Hnj in Hq, Hmany'.
           destruct Hsmall as [?|Hnil]; [done|]. by rewrite Hnil in Hq.
    + apply (settled_mono (shorten (sources n))).
      * apply settled_shorten, sources_NoDup.
      * intros x [q Hq]%list_elem_of_lookup. apply HKin.
        destruct (lookup_lt_is_Some_2 (group n) q) as [j Hj].
        { apply lookup_lt_Some in Hq. by rewrite length_shorten, length_fmap in Hq. }
        pose proof (list_elem_of_lookup_2 _ _ _ Hj)
          as (lj & Hlj & Hstr & Hnj)%elem_of_name_group.
        destruct (description lj) as [s| |] eqn:Hs; try done.
        destruct (out_many n q j lj s Hj Hlj Hs) as (s' & Hs' & _ & Hj').
        { intros ?. apply Hlarge. by left. }
        exists j. split.
        -- apply elem_of_out_group. by exists lj.
        -- rewrite (descriptionAt_lookup _ _ _ Hj'). cbn. congruence.
      * intros s (j & (lj & Hlj & Hnj)%elem_of_out_group & Hs)%HKin.
        destruct (out_cases j lj Hlj)
          as [[_ Hj]|(_ & q & s' & _ & Hq & _ & Hshort & Hj)];
          rewrite (descriptionAt_lookup _ _ _ Hj) in Hs; cbn in Hs; injection Hs as <-.
        -- by right.
        -- left. fold n in Hnj. rewrite Hnj in Hshort. by eapply list_elem_of_lookup_2.
Qed.

(** Two labels of one name that the first run leaves without description
    and whose long descriptions differ are told apart by the second run. *)
Lemma second_run_tells_apart i j li lj :
  labels !! i = Some li →
  labels !! j = Some lj →
  name li = name lj →
  nothing_to_shorten labels i li →
  nothing_to_shorten labels j lj →
  getDescription (editor li) LONG ≠ getDescription (editor lj) LONG →
  shortenTabLabels shorten out ≠ out.
Proof.
  intros Hli Hlj Hn Hi Hj Hdiff Hsame2.
  assert (i ≠ j) as Hij by (intros ->; congruence).
  set (n := name li). set (G := name_group out n).
  assert (i ∈ G) as HiG by (apply elem_of_out_group; by exists li).
  assert (j ∈ G) as HjG by (apply elem_of_out_group; by exists lj).
  assert (NoDup G) as HG by apply NoDup_filter, NoDup_seq.
  assert (descriptionAt out i = Str "") as Hvi by (by apply (out_blank i li)).
  assert (descriptionAt out j = Str "") as Hvj by (by apply (out_blank j lj)).
  destruct (out_lookup i li Hli) as [vi Houti].
  destruct (out_lookup j lj Hlj) as [vj Houtj].
  rewrite (descriptionAt_lookup _ _ _ Houti) in Hvi. cbn in Hvi. injection Hvi as ->.
  rewrite (descriptionAt_lookup _ _ _ Houtj) in Hvj. cbn in Hvj. injection Hvj as ->.
  destruct (shortenTabLabels_group shorten out n)
    as (ls & Hframe & Hsame & Hrun).
  { fold G. intros HG0. rewrite HG0 in HiG. by apply elem_of_nil in HiG. }
  fold G in Hsame, Hrun.
  assert (length G ≠ 1%nat) as Hmany by (pose proof (two_elements G i j HiG HjG Hij); lia).
  assert (valid_refs ls G) as Hvalid.
  { apply name_group_valid_refs. by apply frame_length. }
  assert (∀ r, r ∈ G → descriptionAt ls r = descriptionAt out r) as Hdesc.
  { intros r Hr. unfold descriptionAt. by rewrite Hsame. }
  assert (∀ r, longDescription ls r = longDescription labels r) as Hlong.
  { intros r. apply frame_longDescription.
    by rewrite Hframe, shortenTabLabels_frame. }
  set (m := partition_by (descriptionAt ls) G []).
  set (rs := filter (λ r, descriptionAt ls r = Str "") G).
  assert (i ∈ rs) as Hirs.
  { apply list_elem_of_filter. split; [|done].
    by rewrite Hdesc, (descriptionAt_lookup _ _ _ Houti). }
  assert (j ∈ rs) as Hjrs.
  { apply list_elem_of_filter. split; [|done].
    by rewrite Hdesc, (descriptionAt_lookup _ _ _ Houtj). }
  assert (map_get m (Str "") = Some rs) as Hget.
  { unfold m. rewrite partition_by_get_nil. fold rs.
    rewrite decide_False; [done|]. intros Hnil. rewrite Hnil in Hirs.
    by apply elem_of_nil in Hirs. }
  assert (usesLong ls G = true) as Huses.
  { unfold usesLong. fold m.
    apply (checkLongDescriptions_differ ls m (Str "") rs).
    - by apply map_get_Some_elem_of.
    - intros entry Hentry Hne.
      apply NoDup_all_equal; [by eapply partition_by_entry_NoDup|].
      intros a b Ha Hb.
      destruct (partition_by_elem_of _ _ _ _ Hentry Ha) as [Hka HaG].
      destruct (partition_by_elem_of _ _ _ _ Hentry Hb) as [Hkb HbG].
      destruct (decide (a = b)) as [|Hab]; [done|exfalso].
      pose proof HaG as (la & Hla & Hna)%elem_of_out_group.
      pose proof HbG as (lb & Hlb & Hnb)%elem_of_out_group.
      destruct (out_collision a b la lb) as [Hnothing _]; [done..|congruence| |].
      { rewrite <- !Hdesc by done. congruence. }
      apply (out_blank a la Hla) in Hnothing.
      apply Hne. destruct entry as [k rs'].
      cbn in Hka. rewrite Hdesc, Hnothing in Hka by done. subst k. f_equal.
      apply elem_of_map_get in Hentry; [|apply partition_by_keys_NoDup; constructor].
      fold m in Hentry. congruence.
    - by apply (two_elements rs i j).
    - apply (longDescriptionsDiffer_differ ls rs i j); [done..|].
      rewrite !Hlong.
      by rewrite (longDescription_lookup _ _ _ Hli), (longDescription_lookup _ _ _ Hlj). }
  assert (ls !! i = Some (set_description (Str "") li)) as Hlsi by (by rewrite Hsame).
  assert (ls !! j = Some (set_description (Str "") lj)) as Hlsj by (by rewrite Hsame).
  destruct (shortenDuplicateTitles_in shorten ls G i _ Hmany Hvalid HiG Hlsi)
    as (p & Hp & Hruni).
  destruct (shortenDuplicateTitles_in shorten ls G j _ Hmany Hvalid HjG Hlsj)
    as (q & Hq & Hrunj).
  rewrite <- Hrun, Hsame2, Houti in Hruni by done.
  rewrite <- Hrun, Hsame2, Houtj in Hrunj by done.
  unfold groupKey in Hp, Hq. rewrite Huses, Hlong in Hp, Hq.
  rewrite (longDescription_lookup _ _ _ Hli) in Hp.
  rewrite (longDescription_lookup _ _ _ Hlj) in Hq.
  set (K := groupKeys ls G) in *.
  assert (NoDup K) as HKnd by (apply partition_by_keys_NoDup; constructor).
  assert (p ≠ q) as Hpq by (intros ->; congruence).
  assert (length K ≠ 1%nat) as HKmany.
  { apply lookup_lt_Some in Hp, Hq. lia. }
  rewrite finalValue_many in Hruni, Hrunj by done.
  destruct (lookup_lt_is_Some_2 (shorten K) p) as [a Ha];
    [rewrite length_shorten; by eapply lookup_lt_Some|].
  destruct (lookup_lt_is_Some_2 (shorten K) q) as [b Hb];
    [rewrite length_shorten; by eapply lookup_lt_Some|].
  rewrite Ha in Hruni. rewrite Hb in Hrunj. cbn in Hruni, Hrunj.
  apply Hpq. eapply NoDup_lookup; [apply shorten_NoDup, HKnd|exact Ha|].
  rewrite Hb. f_equal.
  injection Hruni as Hruni. injection Hrunj as Hrunj. congruence.
Qed.

(** C3, amended: on labels whose descriptions differ within each name, a
    second run of the resolver on its own output changes nothing exactly
    when the labels of one name for which the resolver has nothing to
    shorten (their description is not a string or is empty, or no other
    label of the name has a string description) have one long description.
    The path shortener is the one the spec describes. *)
Theorem shortenTabLabels_twice :
  shortenTabLabels shorten (shortenTabLabels shorten labels)
  = shortenTabLabels shorten labels
  ↔ unshortened_share_long labels.
Proof.
  split.
  - intros Hsame i j li lj Hli Hlj Hn Hi Hj.
    destruct (decide (getDescription (editor li) LONG = getDescription (editor lj) LONG))
      as [|Hdiff]; [done|].
    by destruct (second_run_tells_apart i j li lj).
  - intros Hshare. apply list_eq. intros r. by apply second_run_same.
Qed.
End TwoRuns.

(** ** The properties at work on the examples *)

Lemma drop_of_last_tab_is_noop_witness :
  (group_editors (onDropTabsContainer false insideGroupHost drop_on_strip control_dragging_last)
   = ["a.ts"; "b.ts"; "c.ts"]
   ∧ tabLabels (onDropTabsContainer false insideGroupHost drop_on_strip control_dragging_last)
     = [Some "a.ts"; Some "b.ts"; Some "c.ts"])
  ∧ (group_editors (onDrop false insideGroupHost drop_on_strip 2 control_dragging_last)
     = ["a.ts"; "b.ts"; "c.ts"]
     ∧ tabLabels (onDrop false insideGroupHost drop_on_strip 2 control_dragging_last)
       = [Some "a.ts"; Some "b.ts"; Some "c.ts"]).
Proof.
  apply (drop_of_last_tab_is_noop false insideGroupHost) with (e := "c.ts").
  - intros c e index. unfold insideGroupHost. by rewrite decide_True.
  - reflexivity.
  - reflexivity.
  - reflexivity.
Defined.

Lemma shortenTabLabels_changes_descriptions_only_witness :
  ∃ label',
    shortenTabLabels shorten labels_sibling_folders !! 0%nat = Some label'
    ∧ name label' = "index.ts"
    ∧ title label' = Str "/p/src/a"
    ∧ editor label' = mkEditor "index.ts" (Str "src/a") (Str "/p/src/a").
Proof.
  exact (proj2 (shortenTabLabels_changes_descriptions_only shorten labels_sibling_folders)
           0%nat _ eq_refl).
Defined.

Lemma unique_name_clears_description_witness :
  description <$> shortenTabLabels shorten labels_sibling_folders !! 2%nat = Some (Str "").
Proof.
  rewrite (unique_name_clears_description shorten labels_sibling_folders 2
             {| editor := mkEditor "main.ts" (Str "src") (Str "/p/src");
                name := "main.ts"; description := Str "src"; title := Str "/p/src" |});
    reflexivity.
Defined.

Lemma indistinguishable_group_cleared_witness :
  description <$> shortenTabLabels shorten labels_same_file_twice !! 2%nat = Some (Str "").
Proof.
  rewrite (indistinguishable_group_cleared shorten labels_same_file_twice "index.ts"
             ltac:(intros l l' Hl Hl' [_ Hn] [_ Hn'] _;
                   repeat (apply elem_of_cons in Hl as [->|Hl]);
                   repeat (apply elem_of_cons in Hl' as [->|Hl']);
                   try discriminate; try reflexivity;
                   by (apply elem_of_nil in Hl || apply elem_of_nil in Hl'))
             ltac:(intros l l' Hl Hl' [_ Hn] [_ Hn'];
                   repeat (apply elem_of_cons in Hl as [->|Hl]);
                   repeat (apply elem_of_cons in Hl' as [->|Hl']);
                   try discriminate; try reflexivity;
                   by (apply elem_of_nil in Hl || apply elem_of_nil in Hl'))
             2 {| editor := mkEditor "index.ts" (Str "src") (Str "/p/src");
                  name := "index.ts"; description := Str "src"; title := Str "/p/src" |});
    reflexivity.
Defined.

(** C10, as stated, fails: two files of one name whose folders have one
    name come in with the same description and leave with different ones,
    taken from their long descriptions. *)
Lemma long_descriptions_tell_apart :
  ¬ equal_sources_equal_results shorten labels_same_folder_name.
Proof.
  intros Hequal.
  destruct (shortenTabLabels shorten labels_same_folder_name !! 0%nat) as [l0|] eqn:H0;
    [|by vm_compute in H0].
  destruct (shortenTabLabels shorten labels_same_folder_name !! 1%nat) as [l1|] eqn:H1;
    [|by vm_compute in H1].
  pose proof (Hequal 0%nat 1%nat _ _ l0 l1 eq_refl eq_refl eq_refl eq_refl eq_refl H0 H1)
    as Hdesc.
  vm_compute in H0, H1. injection H0 as <-. injection H1 as <-.
  discriminate Hdesc.
Qed.

Lemma same_source_same_description_witness :
  ∃ d,
    description <$> shortenTabLabels shorten labels_same_file_twice !! 0%nat = Some d
    ∧ description <$> shortenTabLabels shorten labels_same_file_twice !! 2%nat = Some d.
Proof.
  destruct (same_source_same_description shorten labels_same_file_twice 0 2
              _ _ eq_refl eq_refl eq_refl eq_refl eq_refl eq_refl) as (d & H0 & H2).
  exists d. by rewrite H0, H2.
Defined.

(** C3, as stated, fails: an editor without descriptions and a file of the
    same name both end the first run with an empty description; the second
    run finds two equal descriptions and resolves them by the long ones. *)
Lemma second_run_differs :
  has_duplicate_names labels_without_description
  ∧ NoDup (description <$> labels_without_description)
  ∧ shortenTabLabels shorten (shortenTabLabels shorten labels_without_description)
    ≠ shortenTabLabels shorten labels_without_description.
Proof.
  split_and!.
  - exists 0%nat, 1%nat. do 2 eexists. split_and!; [done|reflexivity..].
  - cbn. apply NoDup_cons. split; [|apply NoDup_singleton].
    by intros ?%list_elem_of_singleton.
  - intros Hsame. apply (f_equal (fmap description)) in Hsame.
    vm_compute in Hsame. discriminate Hsame.
Qed.

Lemma shortenTabLabels_twice_witness :
  shortenTabLabels shorten (shortenTabLabels shorten labels_with_settings)
  = shortenTabLabels shorten labels_with_settings.
Proof.
  apply shortenTabLabels_twice.
  - intros i j li lj Hne Hi Hj Hn.
    destruct i as [|[|[|i]]], j as [|[|[|j]]]; simplify_eq/=; done.
  - intros i j li lj Hi Hj Hn Hnothing _.
    destruct i as [|[|[|i]]], j as [|[|[|j]]]; simplify_eq/=; try done;
      destruct Hnothing as [Hempty|Halone];
      solve [ discriminate (Hempty _ eq_refl)
            | discriminate (Halone 1%nat _ eq_refl eq_refl eq_refl)
            | discriminate (Halone 2%nat _ eq_refl eq_refl eq_refl) ].
Defined.

(* ===================================================================== *)
(** * Further properties *)
(* ===================================================================== *)

(** ** Computing the labels *)

Lemma length_buildLabels v (es : list IEditorInput) : length (buildLabels v es) = length es.
Proof. apply length_fmap. Qed.

Lemma frame_buildLabels v (es : list IEditorInput) :
  frame <$> buildLabels v es = (λ e, (e, getName e, getTitle e LONG)) <$> es.
Proof. unfold buildLabels. by rewrite <- list_fmap_compose. Qed.

Lemma frame_computeTabLabels shorten' (labelFormat : string) (es : list IEditorInput) :
  frame <$> computeTabLabels shorten' labelFormat es
  = (λ e, (e, getName e, getTitle e LONG)) <$> es.
Proof.
  unfold computeTabLabels. cbn zeta.
  destruct (shortenDuplicates _); [rewrite shortenTabLabels_frame|];
    apply frame_buildLabels.
Qed.

(** X1: whatever the label format and the shortener, [computeTabLabels]
    yields one label for every editor of the group, in the order of the
    editors, with the name and the long title of that editor. *)
Theorem computeTabLabels_one_label_per_editor shorten' (labelFormat : string)
    (es : list IEditorInput) :
  length (computeTabLabels shorten' labelFormat es) = length es
  ∧ ∀ i e,
      es !! i = Some e →
      ∃ label,
        computeTabLabels shorten' labelFormat es !! i = Some label
        ∧ editor label = e
        ∧ name label = getName e
        ∧ title label = getTitle e LONG.
Proof.
  pose proof (frame_computeTabLabels shorten' labelFormat es) as Hframe. split.
  - by rewrite <- (length_fmap frame), Hframe, length_fmap.
  - intros i e Hi.
    assert ((frame <$> computeTabLabels shorten' labelFormat es) !! i
            = Some (e, getName e, getTitle e LONG)) as Hl
      by (by rewrite Hframe, list_lookup_fmap, Hi).
    rewrite list_lookup_fmap in Hl.
    destruct (computeTabLabels shorten' labelFormat es !! i) as [l|]; [|done].
    exists l. unfold frame in Hl. by simplify_eq/=.
Qed.

Lemma computeTabLabels_one_label_per_editor_witness :
  ∃ label,
    computeTabLabels shorten "default"
      [mkEditor "index.ts" (Str "src/a") (Str "/p/src/a");
       mkEditor "index.ts" (Str "src/b") (Str "/p/src/b")] !! 1%nat = Some label
    ∧ editor label = mkEditor "index.ts" (Str "src/b") (Str "/p/src/b")
    ∧ name label = "index.ts"
    ∧ title label = Str "/p/src/b".
Proof.
  exact (proj2 (computeTabLabels_one_label_per_editor shorten "default"
                  [mkEditor "index.ts" (Str "src/a") (Str "/p/src/a");
                   mkEditor "index.ts" (Str "src/b") (Str "/p/src/b")])
           1%nat _ eq_refl).
Defined.

(** X2: with the label format "short", "medium" or "long" no description is
    shortened or cleared: every label shows the description of its editor
    at that verbosity, duplicates or not. *)
Theorem computeTabLabels_fixed_format shorten' (es : list IEditorInput) :
  description <$> computeTabLabels shorten' "short" es
  = (λ e, getDescription e SHORT) <$> es
  ∧ description <$> computeTabLabels shorten' "medium" es
    = (λ e, getDescription e MEDIUM) <$> es
  ∧ description <$> computeTabLabels shorten' "long" es
    = (λ e, getDescription e LONG) <$> es.
Proof.
  split_and!; cbn; unfold buildLabels; by rewrite <- list_fmap_compose.
Qed.

(** ** What the resolver tells apart *)

(** X3: two labels of one name whose descriptions differ, and whose long
    descriptions differ, end with different descriptions, for every
    shortener that returns as many values as it is given, pairwise distinct
    when those are. *)
Theorem distinct_sources_distinct_results (shorten' : list jsstring → list jsstring)
    (labels : list AugmentedLabel) i j li lj :
  (∀ ds, NoDup ds → length (shorten' ds) = length ds ∧ NoDup (shorten' ds)) →
  labels !! i = Some li →
  labels !! j = Some lj →
  name li = name lj →
  isString (description li) = true →
  isString (description lj) = true →
  description li ≠ description lj →
  getDescription (editor li) LONG ≠ getDescription (editor lj) LONG →
  ∃ di dj,
    shortenTabLabels shorten' labels !! i = Some (set_description di li)
    ∧ shortenTabLabels shorten' labels !! j = Some (set_description dj lj)
    ∧ di ≠ dj.
Proof.
  intros Hshorten Hi Hj Hname Hsi Hsj Hdesc Hlong.
  set (G := name_group labels (name li)).
  assert (i ∈ G) as Hini by (apply elem_of_name_group; by exists li).
  assert (j ∈ G) as Hinj by (apply elem_of_name_group; by exists lj).
  assert (G ≠ []) as HG
    by (intros HG; rewrite HG in Hini; by apply elem_of_nil in Hini).
  destruct (shortenTabLabels_group shorten' labels (name li))
    as (ls & Hframe & Hsame & Hrun); [done|].
  fold G in Hsame, Hrun. rewrite (Hrun i Hini), (Hrun j Hinj).
  assert (ls !! i = Some li) as Hli by (by rewrite Hsame).
  assert (ls !! j = Some lj) as Hlj by (by rewrite Hsame).
  assert (length G ≠ 1%nat) as Hmany.
  { intros Hone. destruct G as [|r [|r' G']]; try done.
    apply list_elem_of_singleton in Hini, Hinj. congruence. }
  assert (valid_refs ls G) as Hvalid
    by (apply name_group_valid_refs; by apply frame_length).
  destruct (shortenDuplicateTitles_in shorten' ls G i li Hmany Hvalid Hini Hli)
    as (p & Hp & ->).
  destruct (shortenDuplicateTitles_in shorten' ls G j lj Hmany Hvalid Hinj Hlj)
    as (q & Hq & ->).
  assert (groupKey ls G i ≠ groupKey ls G j) as Hkey.
  { unfold groupKey. destruct (usesLong ls G).
    - by rewrite (longDescription_lookup _ _ _ Hli), (longDescription_lookup _ _ _ Hlj).
    - by rewrite (descriptionAt_lookup _ _ _ Hli), (descriptionAt_lookup _ _ _ Hlj). }
  assert (NoDup (groupKeys ls G)) as Hnd
    by (apply partition_by_keys_NoDup; constructor).
  assert (p ≠ q) as Hpq by (intros ->; congruence).
  destruct (Hshorten _ Hnd) as [Hlen Hnd'].
  pose proof (lookup_lt_Some _ _ _ Hp) as Hplt.
  pose proof (lookup_lt_Some _ _ _ Hq) as Hqlt.
  assert (length (groupKeys ls G) ≠ 1%nat) as Hkeys by (intros ?; lia).
  rewrite !finalValue_many by done.
  destruct (lookup_lt_is_Some_2 (shorten' (groupKeys ls G)) p) as [dp Hdp]; [lia|].
  destruct (lookup_lt_is_Some_2 (shorten' (groupKeys ls G)) q) as [dq Hdq]; [lia|].
  rewrite Hdp, Hdq. cbn. exists dp, dq. split_and!; [done..|].
  intros ->. apply Hpq. by eapply NoDup_lookup.
Qed.

Lemma distinct_sources_distinct_results_witness :
  ∃ di dj,
    description <$> shortenTabLabels id labels_sibling_folders !! 0%nat = Some di
    ∧ description <$> shortenTabLabels id labels_sibling_folders !! 1%nat = Some dj
    ∧ di ≠ dj.
Proof.
  destruct (distinct_sources_distinct_results id labels_sibling_folders 0 1 _ _
              ltac:(done) eq_refl eq_refl eq_refl eq_refl eq_refl
              ltac:(discriminate) ltac:(discriminate)) as (di & dj & Hi & Hj & Hne).
  exists di, dj. by rewrite Hi, Hj.
Defined.

(** ** Revealing the active tab *)

Ltac layout_cases :=
  repeat match goal with
         | |- context [(?a <=? ?b)] => destruct (Z.leb_spec a b)
         | |- context [(?a <? ?b)] => destruct (Z.ltb_spec a b)
         | |- context [(?a >? ?b)] => destruct (Z.gtb_spec a b)
         end; cbn [andb orb negb].

(** X4: after [doLayout], run with the suppress-reveal flag clear, an active
    tab that is not wider than the viewport lies within the viewport: the
    scroll offset is at most its left edge, and its right edge at most the
    right edge of the viewport. *)
Theorem doLayout_reveals (st : LayoutState) (tab : HTMLElement) :
  activeTab st = Some tab →
  blockRevealActiveTab st = false →
  offsetWidth tab ≤ containerOffsetWidth st →
  scrollLeft (scrollbar (doLayout st)) ≤ offsetLeft tab
  ∧ offsetLeft tab + offsetWidth tab
    ≤ scrollLeft (scrollbar (doLayout st)) + containerOffsetWidth st.
Proof.
  intros Htab Hflag Hfit.
  rewrite (doLayout_unblocked st tab Htab Hflag). cbn zeta.
  layout_cases; cbn; lia.
Qed.

Lemma doLayout_reveals_witness :
  let st := {| activeTab := Some {| offsetLeft := 500; offsetWidth := 80 |};
               containerOffsetWidth := 400;
               containerScrollWidth := 2000;
               scrollbar := {| width := 400; scrollWidth := 2000; scrollLeft := 50 |};
               blockRevealActiveTab := false |} in
  scrollLeft (scrollbar (doLayout st)) ≤ 500
  ∧ 500 + 80 ≤ scrollLeft (scrollbar (doLayout st)) + 400.
Proof.
  exact (doLayout_reveals
    {| activeTab := Some {| offsetLeft := 500; offsetWidth := 80 |};
       containerOffsetWidth := 400;
       containerScrollWidth := 2000;
       scrollbar := {| width := 400; scrollWidth := 2000; scrollLeft := 50 |};
       blockRevealActiveTab := false |}
    {| offsetLeft := 500; offsetWidth := 80 |} eq_refl eq_refl ltac:(cbn; lia)).
Defined.

(** X5: with the suppress-reveal flag clear, a second [doLayout] on the
    same measures changes nothing. *)
Theorem doLayout_twice (st : LayoutState) :
  blockRevealActiveTab st = false →
  doLayout (doLayout st) = doLayout st.
Proof.
  intros Hflag. destruct st as [[[X W]|] V T [w sw S] b]; cbn in Hflag; subst b;
    [|done].
  unfold doLayout; cbn. layout_cases; cbn; layout_cases; try reflexivity; try lia.
Qed.

Lemma doLayout_twice_witness :
  let st := {| activeTab := Some {| offsetLeft := 500; offsetWidth := 80 |};
               containerOffsetWidth := 400;
               containerScrollWidth := 2000;
               scrollbar := {| width := 400; scrollWidth := 2000; scrollLeft := 50 |};
               blockRevealActiveTab := false |} in
  doLayout (doLayout st) = doLayout st.
Proof. intros st. exact (doLayout_twice st eq_refl). Defined.

(** X6: [blockRevealActiveTabOnce] holds the reveal back for one layout and
    not more.  With an active tab, the [doLayout] that follows it leaves
    the scroll offset where it was, wherever the active tab lies, and
    clears the flag; the [doLayout] after that leaves the state that one
    [doLayout] without the block leaves. *)
Theorem blockReveal_lasts_one_layout (st : LayoutState) (tab : HTMLElement) :
  activeTab st = Some tab →
  let blocked := doLayout (blockRevealActiveTabOnce st) in
  scrollLeft (scrollbar blocked) = scrollLeft (scrollbar st)
  ∧ blockRevealActiveTab blocked = false
  ∧ doLayout blocked = doLayout (with_blockRevealActiveTab false st).
Proof.
  intros Htab. destruct st as [[[X W]|] V T [w sw S] b]; [|done].
  cbn zeta. split_and!; [reflexivity..|].
  unfold doLayout; cbn. layout_cases; reflexivity.
Qed.

Lemma blockReveal_lasts_one_layout_witness :
  let st := {| activeTab := Some {| offsetLeft := 500; offsetWidth := 80 |};
               containerOffsetWidth := 400;
               containerScrollWidth := 2000;
               scrollbar := {| width := 400; scrollWidth := 2000; scrollLeft := 50 |};
               blockRevealActiveTab := false |} in
  scrollLeft (scrollbar (doLayout (blockRevealActiveTabOnce st))) = 50
  ∧ blockRevealActiveTab (doLayout (blockRevealActiveTabOnce st)) = false
  ∧ scrollLeft (scrollbar (doLayout (doLayout (blockRevealActiveTabOnce st)))) = 180.
Proof.
  intros st.
  destruct (blockReveal_lasts_one_layout st {| offsetLeft := 500; offsetWidth := 80 |}
              eq_refl) as (Hkept & Hcleared & Hnext).
  split_and!; [exact Hkept|exact Hcleared|].
  rewrite Hnext. reflexivity.
Defined.

(** ** Scheduling the layout *)

Lemma layout_layoutState (d : option Dimension) (c : LayoutControl) :
  layoutState (layout d c) = layoutState c.
Proof.
  unfold layout. destruct (activeTab (layoutState c)), d; try done.
  by destruct (layoutScheduled c).
Qed.

Lemma layout_with_dimension (d : Dimension) (c : LayoutControl) tab :
  activeTab (layoutState c) = Some tab →
  layout (Some d) c =
    {| layoutState := layoutState c;
       dimension := Some d;
       layoutScheduled := true;
       queuedFrames := if layoutScheduled c then queuedFrames c
                       else S (queuedFrames c) |}.
Proof. intros Htab. unfold layout. rewrite Htab. by destruct (layoutScheduled c). Qed.

(** Calls of [layout], summed up by the last of their dimensions. *)
Lemma layouts_from (c : LayoutControl) (dims : list (option Dimension)) tab :
  activeTab (layoutState c) = Some tab →
  foldl (λ c d, layout d c) c dims =
    match last (omap id dims) with
    | None => c
    | Some d =>
      {| layoutState := layoutState c;
         dimension := Some d;
         layoutScheduled := true;
         queuedFrames := if layoutScheduled c then queuedFrames c
                         else S (queuedFrames c) |}
    end.
Proof.
  intros Htab. induction dims as [|[d|] dims IH] using rev_ind.
  - done.
  - rewrite foldl_app, omap_app, IH. cbn [foldl omap list_omap id app].
    rewrite last_snoc.
    destruct (last (omap id dims)) as [d0|].
    + by rewrite (layout_with_dimension d _ tab) by done.
    + by rewrite (layout_with_dimension d c tab) by done.
  - rewrite foldl_app, omap_app, IH. cbn [foldl omap list_omap id app].
    rewrite app_nil_r. unfold layout.
    destruct (last (omap id dims)) as [d0|]; cbn; by rewrite Htab.
Qed.

(** X7: calls of [layout] between two animation frames are coalesced.  When
    nothing is scheduled and there is an active tab, any number of calls, one
    or more of them with a dimension, make [doLayout] run once at the next
    frame; the control keeps the dimension of the last such call and has
    nothing scheduled afterwards. *)
Theorem layout_coalesces (c : LayoutControl) (dims : list (option Dimension)) tab d :
  activeTab (layoutState c) = Some tab →
  layoutScheduled c = false →
  queuedFrames c = 0%nat →
  last (omap id dims) = Some d →
  animationFrame (foldl (λ c d, layout d c) c dims)
  = {| layoutState := doLayout (layoutState c);
       dimension := Some d;
       layoutScheduled := false;
       queuedFrames := 0 |}.
Proof.
  intros Htab Hidle Hqueue Hlast.
  rewrite (layouts_from c dims tab Htab), Hlast, Hidle, Hqueue. done.
Qed.

Lemma layout_coalesces_witness :
  let c := {| layoutState :=
                {| activeTab := Some {| offsetLeft := 500; offsetWidth := 80 |};
                   containerOffsetWidth := 400;
                   containerScrollWidth := 2000;
                   scrollbar := {| width := 400; scrollWidth := 2000; scrollLeft := 50 |};
                   blockRevealActiveTab := true |};
              dimension := None; layoutScheduled := false; queuedFrames := 0 |} in
  animationFrame
    (layout (Some {| dim_width := 900; dim_height := 35 |})
       (layout None (layout (Some {| dim_width := 800; dim_height := 35 |}) c)))
  = {| layoutState := doLayout (layoutState c);
       dimension := Some {| dim_width := 900; dim_height := 35 |};
       layoutScheduled := false;
       queuedFrames := 0 |}.
Proof.
  intros c.
  exact (layout_coalesces c
           [Some {| dim_width := 800; dim_height := 35 |}; None;
            Some {| dim_width := 900; dim_height := 35 |}]
           {| offsetLeft := 500; offsetWidth := 80 |}
           {| dim_width := 900; dim_height := 35 |} eq_refl eq_refl eq_refl eq_refl).
Defined.

(** ** More on the label splice of moveEditor *)

(** X8: moving from an index within the array, to whatever target index,
    rearranges the labels: none is lost, none added. *)
Theorem moveEditor_rearranges {L : Type} (tabLabels : list (option L)) (i j : Z) :
  0 ≤ i < Z.of_nat (length tabLabels) →
  moveEditor tabLabels i j ≡ₚ tabLabels.
Proof.
  intros Hi. rewrite <- (Z2Nat.id i) by lia. set (a := Z.to_nat i).
  assert (a < length tabLabels)%nat as Ha by lia.
  destruct (lookup_lt_is_Some_2 tabLabels a Ha) as [x Hx].
  unfold moveEditor. rewrite js_index_of_nat, Hx. cbn [mjoin option_join].
  rewrite splice_delete1_of_nat by lia. unfold splice_insert.
  rewrite <- Permutation_middle, take_drop.
  rewrite <- (take_drop_middle tabLabels a x Hx) at 3.
  by rewrite <- Permutation_middle.
Qed.

Lemma moveEditor_rearranges_witness :
  moveEditor [Some "a.ts"; Some "b.ts"; Some "c.ts"] 0 7
  ≡ₚ [Some "a.ts"; Some "b.ts"; Some "c.ts"].
Proof.
  apply (moveEditor_rearranges [Some "a.ts"; Some "b.ts"; Some "c.ts"] 0 7). cbn. lia.
Defined.

(** X9: after a move from an index within the array to a target index that
    is not negative, the moved label is at the target index, or at the last
    index when the target lies beyond it. *)
Theorem moveEditor_lands_at_target {L : Type} (tabLabels : list (option L)) (i j : Z) :
  0 ≤ i < Z.of_nat (length tabLabels) →
  0 ≤ j →
  js_index (moveEditor tabLabels i j) (Z.min j (Z.of_nat (length tabLabels) - 1))
  = js_index tabLabels i.
Proof.
  intros Hi Hj. rewrite <- (Z2Nat.id i) by lia. set (a := Z.to_nat i).
  assert (a < length tabLabels)%nat as Ha by lia.
  destruct (lookup_lt_is_Some_2 tabLabels a Ha) as [x Hx].
  unfold moveEditor. rewrite !js_index_of_nat, Hx. cbn [mjoin option_join].
  rewrite splice_delete1_of_nat by lia.
  set (rest := take a tabLabels ++ drop (S a) tabLabels).
  assert (length rest = pred (length tabLabels)) as Hrest
    by (by apply length_splice_delete1).
  unfold splice_insert, splice_start, js_index. rewrite Hrest.
  destruct (Z.ltb_spec j 0) as [|_]; [lia|].
  destruct (Z.ltb_spec (Z.min j (Z.of_nat (length tabLabels) - 1)) 0) as [|_]; [lia|].
  replace (Z.min j (Z.of_nat (pred (length tabLabels))))
    with (Z.min j (Z.of_nat (length tabLabels) - 1)) by lia.
  set (s := Z.to_nat (Z.min j (Z.of_nat (length tabLabels) - 1))).
  assert (s ≤ length rest)%nat as Hs by lia.
  rewrite lookup_app_r by (rewrite length_take; lia).
  rewrite length_take, Nat.min_l, Nat.sub_diag by lia. done.
Qed.

Lemma moveEditor_lands_at_target_witness :
  js_index (moveEditor [Some "a.ts"; Some "b.ts"; Some "c.ts"] 0 7) 2 = Some (Some "a.ts").
Proof.
  apply (moveEditor_lands_at_target [Some "a.ts"; Some "b.ts"; Some "c.ts"] 0 7);
    cbn; lia.
Defined.

(** X10: a move from an index at or beyond the length of the array takes
    no label out and puts an undefined slot in: the array grows by one. *)
Theorem moveEditor_from_beyond {L : Type} (tabLabels : list (option L)) (i j : Z) :
  Z.of_nat (length tabLabels) ≤ i →
  moveEditor tabLabels i j ≡ₚ None :: tabLabels
  ∧ length (moveEditor tabLabels i j) = S (length tabLabels).
Proof.
  intros Hi.
  assert (moveEditor tabLabels i j ≡ₚ None :: tabLabels) as Hperm.
  { unfold moveEditor, js_index.
    destruct (Z.ltb_spec i 0) as [|_]; [lia|].
    rewrite (proj2 (lookup_ge_None tabLabels (Z.to_nat i))) by lia.
    cbn [mjoin option_join].
    assert (splice_delete1 tabLabels i = tabLabels) as ->.
    { unfold splice_delete1, splice_start.
      destruct (Z.ltb_spec i 0) as [|_]; [lia|].
      rewrite Z.min_r, Nat2Z.id by lia.
      rewrite firstn_all, drop_ge by lia. apply app_nil_r. }
    unfold splice_insert. by rewrite <- Permutation_middle, take_drop. }
  split; [done|]. by rewrite Hperm.
Qed.

Lemma moveEditor_from_beyond_witness :
  moveEditor [Some "a.ts"; Some "b.ts"] 2 0 ≡ₚ [None; Some "a.ts"; Some "b.ts"]
  ∧ length (moveEditor [Some "a.ts"; Some "b.ts"] 2 0) = 3%nat.
Proof.
  apply (moveEditor_from_beyond [Some "a.ts"; Some "b.ts"] 2 0). cbn. lia.
Defined.

(** ** The drag feedback of a tab *)

Lemma tab_drag_from (isTab : bool) (events : list TabDragEvent) (t : TabDragState) :
  0 ≤ counter t →
  draggedOver t = (0 <? counter t) →
  tabDropFeedback t = negb isTab && (0 <? counter t) →
  nested (counter t) events →
  let t' := foldl (tabDragStep isTab) t events in
  counter t' = counter t + enters_minus_leaves events
  ∧ draggedOver t' = (0 <? counter t')
  ∧ tabDropFeedback t' = negb isTab && (0 <? counter t').
Proof.
  revert t. induction events as [|[|] events IH]; intros t Hpos Hover Hfeed Hnested;
    cbn [foldl enters_minus_leaves tabDragStep] in *.
  - split_and!; [lia|done..].
  - destruct (IH (onTabDragEnter isTab t)) as (Hc & Ho & Hf); cbn.
    + lia.
    + symmetry. apply Z.ltb_lt. lia.
    + rewrite Hfeed. destruct isTab; cbn; [done|].
      symmetry. apply Z.ltb_lt. lia.
    + done.
    + cbn in Hc. split_and!; [lia|done..].
  - destruct Hnested as [Hdepth Hnested].
    assert (counter (onTabDragLeave t) = counter t - 1) as Hcount
      by (unfold onTabDragLeave; by destruct (counter t - 1 =? 0)).
    destruct (IH (onTabDragLeave t)) as (Hc & Ho & Hf).
    + lia.
    + rewrite Hcount. unfold onTabDragLeave.
      destruct (Z.eqb_spec (counter t - 1) 0) as [Hz|Hz]; cbn.
      * by rewrite Hz.
      * rewrite Hover. transitivity true; [apply Z.ltb_lt|symmetry; apply Z.ltb_lt]; lia.
    + rewrite Hcount. unfold onTabDragLeave.
      destruct (Z.eqb_spec (counter t - 1) 0) as [Hz|Hz]; cbn.
      * rewrite Hz. by destruct isTab.
      * rewrite Hfeed. f_equal.
        transitivity true; [apply Z.ltb_lt|symmetry; apply Z.ltb_lt]; lia.
    + by rewrite Hcount.
    + rewrite Hcount in Hc. split_and!; [lia|done..].
Qed.

(** X11: while drag-enter and drag-leave events of a tab come nested (its
    children fire their own), the counter of the tab is the number of enters
    not yet left; the tab has the class 'dragged-over' exactly while that
    number is positive; and it shows drop feedback exactly then, unless the
    dragged editor is this very tab, for which it shows none. *)
Theorem tab_drag_feedback (isTab : bool) (events : list TabDragEvent) :
  nested 0 events →
  let t := foldl (tabDragStep isTab) tabDragInit events in
  counter t = enters_minus_leaves events
  ∧ draggedOver t = (0 <? enters_minus_leaves events)
  ∧ tabDropFeedback t = negb isTab && (0 <? enters_minus_leaves events).
Proof.
  intros Hnested.
  destruct (tab_drag_from isTab events tabDragInit) as (Hc & Ho & Hf);
    [done|done|by destruct isTab|done|].
  cbn in Hc. cbn zeta. rewrite Ho, Hf, Hc. done.
Qed.

Lemma tab_drag_feedback_witness :
  let t := foldl (tabDragStep false) tabDragInit
             [DragEnter; DragEnter; DragEnter; DragLeave; DragLeave] in
  counter t = 1 ∧ draggedOver t = true ∧ tabDropFeedback t = true.
Proof.
  exact (tab_drag_feedback false [DragEnter; DragEnter; DragEnter; DragLeave; DragLeave]
           ltac:(cbn; lia)).
Defined.

Section MoreDropFacts.
Context {Editor L : Type} `{EqDecision Editor}.
Variable isMacintosh : bool.
Variable host : HostCall Editor → TitleControl Editor L → TitleControl Editor L.

Implicit Types (c : TitleControl Editor L) (e : Editor).

(** X12: the drop of a dragged editor is a copy (the editor is opened
    pinned at the target index) when the copy modifier of the platform is
    held, Alt on macOS and Ctrl elsewhere, and the editor comes from
    another group; every other drop is a move, within the group whatever the
    modifiers.  Either way the transfer slot is empty afterwards. *)
Theorem onDrop_moves_or_copies c (ev : DragEvent) (index : Z) d :
  transfer c = Some d →
  let copyModifier := if isMacintosh then altKey ev else ctrlKey ev in
  let call :=
    if copyModifier && negb (bool_decide (dragged_group d = group_id c))
    then GroupOpenEditor (dragged_editor d) true index
    else GroupMoveEditor (dragged_group d) (dragged_editor d) (group_id c) index in
  onDrop isMacintosh host ev index c
  = set_transfer None (host call (set_scrollClass false (updateDropFeedback false c)))
  ∧ transfer (onDrop isMacintosh host ev index c) = None.
Proof.
  intros Htransfer. cbn zeta.
  assert (onDrop isMacintosh host ev index c
          = set_transfer None
              (host (if (if isMacintosh then altKey ev else ctrlKey ev)
                        && negb (bool_decide (dragged_group d = group_id c))
                     then GroupOpenEditor (dragged_editor d) true index
                     else GroupMoveEditor (dragged_group d) (dragged_editor d)
                            (group_id c) index)
                 (set_scrollClass false (updateDropFeedback false c)))) as ->.
  { unfold onDrop. cbn. rewrite Htransfer. unfold isMoveOperation. cbn.
    by destruct isMacintosh, (ctrlKey ev), (altKey ev),
         (bool_decide (dragged_group d = group_id c)). }
  done.
Qed.

(** X13: while the last tab of this group is dragged over the empty part of
    the strip, where a drop would change nothing, the strip shows no drop
    feedback; scrolling while dragging is enabled all the same. *)
Theorem dragging_last_tab_over_strip c e (ev : DragEvent) :
  transfer c = Some {| dragged_editor := e; dragged_group := group_id c |} →
  getIndexOfEditor e (group_editors c) = group_count c - 1 →
  dropFeedback (onDragOverTabsContainer ev c) = dropFeedback c
  ∧ scrollClass (onDragOverTabsContainer ev c) = true.
Proof.
  intros Htransfer Hlast. split.
  - by apply (onDragOver_last_shows_no_feedback c e).
  - unfold onDragOverTabsContainer. cbn.
    destruct (targetIsTabsContainer ev); [|done].
    by destruct (negb _).
Qed.

(** X14: the navigation keys never leave the group and do not wrap around:
    whatever they open is an editor of the group; Left on the first tab and
    Right on the last open nothing; Home and End open the first and the
    last editor. *)
Theorem navigation_stays_in_group c :
  (∀ key index e, navigate key index c = Some e → e ∈ group_editors c)
  ∧ navigate LeftArrow 0 c = None
  ∧ navigate RightArrow (group_count c - 1) c = None
  ∧ (∀ index, navigate Home index c = head (group_editors c))
  ∧ (∀ index, navigate End_ index c = last (group_editors c)).
Proof.
  unfold navigate, getEditor, group_count, js_index. split_and!.
  - intros key index e. case_match; [done|]. by intros ?%list_elem_of_lookup_2.
  - done.
  - cbn. case_match; [done|]. apply lookup_ge_None. lia.
  - intros index. cbn. by rewrite head_lookup.
  - intros index. cbn. rewrite last_lookup. case_match eqn:Hlt.
    + apply Z.ltb_lt in Hlt. destruct (group_editors c); [done|cbn in *; lia].
    + f_equal. lia.
Qed.
End MoreDropFacts.

Lemma onDrop_moves_or_copies_witness :
  onDrop false insideGroupHost drop_on_strip 3 control_dragging_last
  = set_transfer None
      (insideGroupHost (GroupMoveEditor 1%nat "c.ts" 1%nat 3)
         (set_scrollClass false (updateDropFeedback false control_dragging_last)))
  ∧ transfer (onDrop false insideGroupHost drop_on_strip 3 control_dragging_last) = None.
Proof.
  exact (onDrop_moves_or_copies false insideGroupHost control_dragging_last drop_on_strip 3
           {| dragged_editor := "c.ts"; dragged_group := 1%nat |} eq_refl).
Defined.

Lemma dragging_last_tab_over_strip_witness :
  dropFeedback (onDragOverTabsContainer drop_on_strip control_dragging_last) = false
  ∧ scrollClass (onDragOverTabsContainer drop_on_strip control_dragging_last) = true.
Proof.
  exact (dragging_last_tab_over_strip control_dragging_last "c.ts" drop_on_strip
           eq_refl eq_refl).
Defined.

Lemma navigation_stays_in_group_witness :
  "b.ts" ∈ group_editors control_dragging_last.
Proof.
  exact (proj1 (navigation_stays_in_group control_dragging_last)
           RightArrow 0 "b.ts" eq_refl).
Defined.

(** ** The tabs of the strip *)

Lemma foldl_appendTab (st : TabStore) (indices : list nat) :
  foldl appendTab st indices =
    {| children := children st ++ indices;
       tabLabelWidgets := tabLabelWidgets st ++ indices;
       tabDisposeables := tabDisposeables st ++ indices;
       disposed := disposed st;
       storeTabLabels := storeTabLabels st |}.
Proof.
  revert st. induction indices as [|i indices IH]; intros st; cbn [foldl].
  - destruct st. cbn. by rewrite !app_nil_r.
  - rewrite IH. cbn. by rewrite <- !app_assoc.
Qed.

Lemma openEditor_fields shorten' (labelFormat : string) (g : Group) (st : TabStore) :
  let new := seq (length (children st)) (length (editors g) - length (children st)) in
  openEditor shorten' labelFormat g st =
    {| children := children st ++ new;
       tabLabelWidgets := tabLabelWidgets st ++ new;
       tabDisposeables := tabDisposeables st ++ new;
       disposed := disposed st;
       storeTabLabels := Some <$> computeTabLabels shorten' labelFormat (editors g) |}.
Proof. cbn zeta. unfold openEditor. by rewrite foldl_appendTab. Qed.

Lemma length_computeTabLabels shorten' (labelFormat : string) (es : list IEditorInput) :
  length (computeTabLabels shorten' labelFormat es) = length es.
Proof.
  by rewrite <- (length_fmap frame), frame_computeTabLabels, length_fmap.
Qed.

(** X15: [openEditor] keeps the tabs aligned with their indices: when tab
    [i] was created for index [i], for all [n] tabs, it is so afterwards for
    all [max n count] tabs, where [count] is the number of editors of the
    group; no tab is taken away, nothing is disposed, and there is one
    label for every editor. *)
Theorem openEditor_aligned shorten' (labelFormat : string) (g : Group)
    (st : TabStore) (n : nat) :
  aligned n st →
  aligned (Nat.max n (length (editors g))) (openEditor shorten' labelFormat g st)
  ∧ disposed (openEditor shorten' labelFormat g st) = disposed st
  ∧ length (storeTabLabels (openEditor shorten' labelFormat g st)) = length (editors g).
Proof.
  intros (Hc & Hw & Hd). rewrite openEditor_fields. cbn.
  rewrite Hc, Hw, Hd, length_seq.
  assert (seq 0 n ++ seq n (length (editors g) - n) = seq 0 (Nat.max n (length (editors g))))
    as ->
    by (replace (Nat.max n (length (editors g))) with (n + (length (editors g) - n))%nat
          by lia; by rewrite seq_app).
  split_and!; [done| |].
  - done.
  - by rewrite length_fmap, length_computeTabLabels.
Qed.

(** The loop of [closeEditor] ends with an error exactly when the
    disposables run out before the tabs are down to the count. *)
Lemma removeClosedTabs_None (fuel count : nat) (st : TabStore) :
  (length (children st) ≤ fuel)%nat →
  removeClosedTabs fuel count st = None
  ↔ (length (tabDisposeables st) + count < length (children st))%nat.
Proof.
  revert st. induction fuel as [|fuel IH]; intros st Hfuel.
  - cbn [removeClosedTabs].
    destruct (Nat.ltb_spec count (length (children st))); [lia|].
    split; [done|lia].
  - cbn [removeClosedTabs].
    destruct (Nat.ltb_spec count (length (children st))) as [Hlt|Hge];
      [|split; [done|lia]].
    unfold removeLastTab. rewrite last_lookup.
    destruct (tabDisposeables st !! pred (length (tabDisposeables st))) as [d|] eqn:Hd.
    + apply lookup_lt_Some in Hd. rewrite IH; cbn; rewrite !length_take; lia.
    + apply lookup_ge_None in Hd. split; [lia|done].
Qed.

(** When every tab has its label widget and its disposable, the loop trims
    the three arrays to the count, from the tail, and disposes what it
    takes off, last first. *)
Lemma removeClosedTabs_Some (fuel count : nat) (st : TabStore) :
  (length (children st) ≤ fuel)%nat →
  length (tabDisposeables st) = length (children st) →
  length (tabLabelWidgets st) = length (children st) →
  removeClosedTabs fuel count st =
    Some {| children := take count (children st);
            tabLabelWidgets := take count (tabLabelWidgets st);
            tabDisposeables := take count (tabDisposeables st);
            disposed := disposed st ++ reverse (drop count (tabDisposeables st));
            storeTabLabels := storeTabLabels st |}.
Proof.
  revert st. induction fuel as [|fuel IH]; intros st Hfuel Hd Hw;
    cbn [removeClosedTabs];
    destruct (Nat.ltb_spec count (length (children st))) as [Hlt|Hge]; try lia.
  - destruct st as [cs ws ds dd ls]; cbn in *.
    by rewrite !take_ge, drop_ge, app_nil_r by lia.
  - unfold removeLastTab. rewrite last_lookup.
    destruct (lookup_lt_is_Some_2 (tabDisposeables st) (pred (length (tabDisposeables st))))
      as [d Hlast]; [lia|].
    rewrite Hlast. rewrite IH; cbn; rewrite ?length_take; try lia.
    rewrite !take_take. rewrite !Nat.min_l by lia. f_equal. f_equal.
    rewrite <- app_assoc. f_equal.
    rewrite <- (take_drop_middle _ _ _ Hlast) at 3.
    replace (S (pred (length (tabDisposeables st)))) with (length (tabDisposeables st))
      by lia.
    rewrite drop_all, drop_app_le by (rewrite length_take; lia).
    by rewrite reverse_app.
  - destruct st as [cs ws ds dd ls]; cbn in *.
    by rewrite !take_ge, drop_ge, app_nil_r by lia.
Qed.

(** [closeEditor] with an active editor, when every tab has its label
    widget and its disposable. *)
Lemma closeEditor_active shorten' (labelFormat : string) (g : Group) (st : TabStore) a :
  activeEditor g = Some a →
  length (tabDisposeables st) = length (children st) →
  length (tabLabelWidgets st) = length (children st) →
  closeEditor shorten' labelFormat g st =
    Some {| children := take (length (editors g)) (children st);
            tabLabelWidgets := take (length (editors g)) (tabLabelWidgets st);
            tabDisposeables := take (length (editors g)) (tabDisposeables st);
            disposed := disposed st
                        ++ reverse (drop (length (editors g)) (tabDisposeables st));
            storeTabLabels :=
              Some <$> computeTabLabels shorten' labelFormat (editors g) |}.
Proof.
  intros Hactive Hd Hw. unfold closeEditor. rewrite Hactive.
  by rewrite removeClosedTabs_Some by done.
Qed.

(** X16: with an active editor in the group, and a label widget and a
    disposable for every tab, [closeEditor] succeeds.  It trims the tabs,
    the label widgets and the disposables to the number of editors, always
    from the tail, whichever editor was closed; it disposes exactly the
    disposables it takes off; and it leaves one label for every editor. *)
Theorem closeEditor_trims shorten' (labelFormat : string) (g : Group)
    (st : TabStore) a :
  activeEditor g = Some a →
  length (tabDisposeables st) = length (children st) →
  length (tabLabelWidgets st) = length (children st) →
  ∃ st',
    closeEditor shorten' labelFormat g st = Some st'
    ∧ children st' = take (length (editors g)) (children st)
    ∧ tabLabelWidgets st' = take (length (editors g)) (tabLabelWidgets st)
    ∧ tabDisposeables st' = take (length (editors g)) (tabDisposeables st)
    ∧ disposed st'
      = disposed st ++ reverse (drop (length (editors g)) (tabDisposeables st))
    ∧ length (storeTabLabels st') = length (editors g).
Proof.
  intros Hactive Hd Hw.
  rewrite (closeEditor_active shorten' labelFormat g st a) by done.
  eexists. split; [done|]. cbn.
  split_and!; try done. by rewrite length_fmap, length_computeTabLabels.
Qed.

(** X17: [closeEditor] ends with the TypeError of popping an empty array of
    disposables exactly when the group has an active editor and there are
    fewer disposables than tabs to take off. *)
Theorem closeEditor_error shorten' (labelFormat : string) (g : Group) (st : TabStore) :
  closeEditor shorten' labelFormat g st = None
  ↔ is_Some (activeEditor g)
    ∧ (length (tabDisposeables st) + length (editors g) < length (children st))%nat.
Proof.
  unfold closeEditor. destruct (activeEditor g) as [a|].
  - pose proof (removeClosedTabs_None (length (children st)) (length (editors g)) st
                  ltac:(done)) as Hnone.
    destruct (removeClosedTabs _ _ st) as [st'|].
    + split; [done|]. intros [_ Hlt]. by apply Hnone in Hlt.
    + split; [|done]. intros _. split; [by eexists|]. by apply Hnone.
  - split; [done|]. by intros [[? ?] _].
Qed.

(** X18: opening an editor and closing it again restores the tabs.  From
    aligned tabs and the labels of the group, [openEditor] on the group with
    whatever editors were added, followed by [closeEditor] on the group as
    it was, gives back the tabs, the label widgets, the disposables and the
    labels. *)
Theorem open_then_close_restores shorten' (labelFormat : string) (g g' : Group)
    (st : TabStore) a :
  aligned (length (editors g)) st →
  storeTabLabels st = Some <$> computeTabLabels shorten' labelFormat (editors g) →
  activeEditor g = Some a →
  ∃ st',
    closeEditor shorten' labelFormat g (openEditor shorten' labelFormat g' st) = Some st'
    ∧ children st' = children st
    ∧ tabLabelWidgets st' = tabLabelWidgets st
    ∧ tabDisposeables st' = tabDisposeables st
    ∧ storeTabLabels st' = storeTabLabels st.
Proof.
  intros (Hc & Hw & Hd) Hlabels Hactive.
  rewrite (closeEditor_active shorten' labelFormat g _ a Hactive);
    rewrite openEditor_fields; cbn; rewrite ?length_app, ?Hc, ?Hw, ?Hd; try done.
  eexists. split; [done|]. cbn.
  assert (∀ k : list nat,
            take (length (editors g)) (seq 0 (length (editors g)) ++ k)
            = seq 0 (length (editors g))) as Htake.
  { intros k. rewrite <- (length_seq (length (editors g)) 0) at 1.
    by rewrite take_app_length. }
  by rewrite !Htake, Hlabels.
Qed.

Lemma openEditor_aligned_witness :
  aligned 3 (openEditor shorten "default" group_of_three store_of_two)
  ∧ disposed (openEditor shorten "default" group_of_three store_of_two) = []
  ∧ length (storeTabLabels (openEditor shorten "default" group_of_three store_of_two))
    = 3%nat.
Proof.
  exact (openEditor_aligned shorten "default" group_of_three store_of_two 2
           ltac:(by repeat split)).
Defined.

Lemma closeEditor_trims_witness :
  ∃ st',
    closeEditor shorten "default" group_of_two
      (openEditor shorten "default" group_of_three store_of_two) = Some st'
    ∧ children st' = [0; 1]%nat
    ∧ tabLabelWidgets st' = [0; 1]%nat
    ∧ tabDisposeables st' = [0; 1]%nat
    ∧ disposed st' = [2%nat]
    ∧ length (storeTabLabels st') = 2%nat.
Proof.
  exact (closeEditor_trims shorten "default" group_of_two
           (openEditor shorten "default" group_of_three store_of_two)
           (mkEditor "index.ts" (Str "src/a") (Str "/p/src/a"))
           eq_refl eq_refl eq_refl).
Defined.

Lemma closeEditor_error_witness :
  closeEditor shorten "default" group_of_two store_without_disposables = None.
Proof.
  apply (proj2 (closeEditor_error shorten "default" group_of_two store_without_disposables)).
  split; [by eexists|cbn; lia].
Defined.

Lemma open_then_close_restores_witness :
  ∃ st',
    closeEditor shorten "default" group_of_two
      (openEditor shorten "default" group_of_three store_of_two) = Some st'
    ∧ children st' = children store_of_two
    ∧ tabLabelWidgets st' = tabLabelWidgets store_of_two
    ∧ tabDisposeables st' = tabDisposeables store_of_two
    ∧ storeTabLabels st' = storeTabLabels store_of_two.
Proof.
  exact (open_then_close_restores shorten "default" group_of_two group_of_three
           store_of_two (mkEditor "index.ts" (Str "src/a") (Str "/p/src/a"))
           ltac:(by repeat split) eq_refl eq_refl).
Defined.

(** ** More on the resolver *)

(** X19: a label whose description is not a string ends with the empty
    description, whatever the other labels and the shortener. *)
Theorem non_string_description_cleared (shorten' : list jsstring → list jsstring)
    (labels : list AugmentedLabel) i label :
  labels !! i = Some label →
  isString (description label) = false →
  shortenTabLabels shorten' labels !! i = Some (set_description (Str "") label).
Proof. apply shortenTabLabels_invalid. Qed.

Lemma non_string_description_cleared_witness :
  description <$> shortenTabLabels shorten labels_without_description !! 0%nat
  = Some (Str "").
Proof.
  rewrite (non_string_description_cleared shorten labels_without_description 0
             {| editor := mkEditor "index.ts" Null Null; name := "index.ts";
                description := Null; title := Null |}); reflexivity.
Defined.

(** A name-group of one label: the label ends with the empty description. *)
Lemma single_member_cleared (shorten' : list jsstring → list jsstring)
    (labels : list AugmentedLabel) i label :
  labels !! i = Some label →
  name_group labels (name label) = [i] →
  shortenTabLabels shorten' labels !! i = Some (set_description (Str "") label).
Proof.
  intros Hi HG.
  destruct (shortenTabLabels_group shorten' labels (name label))
    as (ls & _ & Hsame & Hrun); [by rewrite HG|].
  rewrite HG in Hsame, Hrun.
  rewrite Hrun by left. cbn. rewrite assign_lookup, Hsame by left.
  by rewrite Hi.
Qed.

(** X20: when no two editors of the group have the same name and the label
    format asks for shortening (it is none of "short", "medium", "long"),
    [computeTabLabels] gives every label the empty description. *)
Theorem computeTabLabels_distinct_names (shorten' : list jsstring → list jsstring)
    (labelFormat : string) (es : list IEditorInput) :
  shortenDuplicates (getLabelConfigFlags labelFormat) = true →
  NoDup (getName <$> es) →
  description <$> computeTabLabels shorten' labelFormat es
  = replicate (length es) (Str "").
Proof.
  intros Hshorten Hnames. unfold computeTabLabels. cbn zeta. rewrite Hshorten.
  set (labels := buildLabels (verbosity (getLabelConfigFlags labelFormat)) es).
  assert (name <$> labels = getName <$> es) as Hlabels
    by (unfold labels, buildLabels; by rewrite <- list_fmap_compose).
  apply list_eq. intros i. rewrite list_lookup_fmap.
  destruct (labels !! i) as [label|] eqn:Hi.
  2:{ apply lookup_ge_None in Hi. unfold labels in Hi. rewrite length_buildLabels in Hi.
      rewrite (proj2 (lookup_ge_None (shortenTabLabels shorten' labels) i))
        by (rewrite (frame_length _ _ (shortenTabLabels_frame shorten' labels));
            unfold labels; by rewrite length_buildLabels).
      symmetry. apply lookup_ge_None. by rewrite length_replicate. }
  pose proof (lookup_lt_Some _ _ _ Hi) as Hlt.
  unfold labels in Hlt. rewrite length_buildLabels in Hlt.
  rewrite lookup_replicate_2 by done.
  destruct (isString (description label)) eqn:Hs.
  - rewrite (single_member_cleared shorten' labels i label Hi); [done|].
    assert (i ∈ name_group labels (name label)) as Hin
      by (apply elem_of_name_group; by exists label).
    assert (∀ r, r ∈ name_group labels (name label) → r = i) as Honly.
    { intros r (l & Hl & _ & Hn)%elem_of_name_group.
      rewrite <- Hlabels in Hnames. eapply NoDup_lookup; [exact Hnames| |].
      - by rewrite list_lookup_fmap, Hl.
      - rewrite list_lookup_fmap, Hi. cbn. by rewrite Hn. }
    assert (NoDup (name_group labels (name label))) as Hnd
      by apply NoDup_filter, NoDup_seq.
    destruct (name_group labels (name label)) as [|r [|r' G]].
    + by apply elem_of_nil in Hin.
    + by rewrite (Honly r) by left.
    + exfalso. apply NoDup_cons in Hnd as [Hr _]. apply Hr.
      rewrite (Honly r) by left. rewrite (Honly r') by (right; left). left.
  - by rewrite (shortenTabLabels_invalid shorten' labels i label Hi Hs).
Qed.

Lemma computeTabLabels_distinct_names_witness :
  description <$> computeTabLabels shorten "default"
    [mkEditor "index.ts" (Str "src") (Str "/p/src");
     mkEditor "main.ts" (Str "src") (Str "/p/src")]
  = [Str ""; Str ""].
Proof.
  apply (computeTabLabels_distinct_names shorten "default"
           [mkEditor "index.ts" (Str "src") (Str "/p/src");
            mkEditor "main.ts" (Str "src") (Str "/p/src")]).
  - reflexivity.
  - cbn. apply NoDup_cons. split; [|apply NoDup_singleton].
    by intros ?%list_elem_of_singleton.
Defined.
